(** * A shallow embedding of the AI search toolkit

    The development follows the layout of the Python sources:
    - [utils.py]: the fringe containers [Stack], [Queue] and [PriorityQueue]
      (the latter on top of the binary heap of Python's [heapq] module);
    - [problem.py]: the abstract [Problem] interface;
    - [search.py]: [depthFirstSearch], [breadthFirstSearch],
      [uniformCostSearch], [nullHeuristic] and [aStarSearch].

    Python code can raise and [while] loops can run forever, so every
    operation lives in the [result] monad below: a value, a raised
    exception, or fuel exhaustion for a loop that was cut off. *)

From stdpp Require Import base list gmap sets strings.
From Stdlib Require Import ZArith Lia Sorted.

Local Open Scope Z_scope.
Local Open Scope nat_scope.

(** ** Outcomes of running Python code *)

Inductive exn : Set :=
| IndexError   (* pop from an empty list or deque, index out of range *)
| TypeError.   (* [<] between values that do not support it *)

Inductive result (A : Type) : Type :=
| Ok (a : A)
| Raise (e : exn)
| OutOfFuel.

Arguments Ok {A} a.
Arguments Raise {A} e.
Arguments OutOfFuel {A}.

#[global] Instance result_ret : MRet result := fun A a => Ok a.
#[global] Instance result_bind : MBind result := fun A B f m =>
  match m with
  | Ok a => f a
  | Raise e => Raise e
  | OutOfFuel => OutOfFuel
  end.

Definition is_Ok {A} (r : result A) : Prop := ∃ a, r = Ok a.

(** ** Python lists used as arrays *)

(** [l[i]] *)
Definition list_get {A} (l : list A) (i : nat) : result A :=
  match l !! i with
  | Some x => Ok x
  | None => Raise IndexError
  end.

(** [l[i] = x] *)
Definition list_set {A} (l : list A) (i : nat) (x : A) : result (list A) :=
  if decide (i < length l) then Ok (<[i:=x]> l) else Raise IndexError.

(** [l.pop()]: removes and returns the last element *)
Definition list_pop {A} (l : list A) : result (A * list A) :=
  match last l with
  | Some x => Ok (x, removelast l)
  | None => Raise IndexError
  end.

(** ** utils.py *)

(** *** Stack *)
Module Stack.
Record t (A : Type) : Type := mk { list : list A }.
Arguments mk {A} list.
Arguments list {A} t.

Definition init {A} : t A := mk [].

(** [self.list.append(item)] *)
Definition push {A} (self : t A) (item : A) : t A :=
  mk (list self ++ [item]).

(** [return self.list.pop()] *)
Definition pop {A} (self : t A) : result (A * t A) :=
  '(item, l) ← list_pop (list self); mret (item, mk l).

(** [return len(self.list) == 0] *)
Definition isEmpty {A} (self : t A) : bool :=
  bool_decide (length (list self) = 0).
End Stack.

(** *** Queue *)
Module Queue.
Record t (A : Type) : Type := mk { queue : list A }.
Arguments mk {A} queue.
Arguments queue {A} t.

Definition init {A} : t A := mk [].

(** [self.queue.append(item)] *)
Definition push {A} (self : t A) (item : A) : t A :=
  mk (queue self ++ [item]).

(** [return self.queue.popleft()] *)
Definition pop {A} (self : t A) : result (A * t A) :=
  match queue self with
  | [] => Raise IndexError
  | item :: q => Ok (item, mk q)
  end.

(** [return len(self.queue) == 0] *)
Definition isEmpty {A} (self : t A) : bool :=
  bool_decide (length (queue self) = 0).
End Queue.

(** *** heapq

    [PriorityQueue] delegates to [heapq.heappush] and [heapq.heappop] of
    the Python standard library.  They are transcribed here from
    [Lib/heapq.py]: a binary min-heap stored in a list, the children of
    index [k] being [2*k+1] and [2*k+2].  The element comparison [lt]
    is Python's [<], which may raise. *)
Module heapq.
Section heapq.
Context {A : Type} (lt : A → A → result bool).

(** The [while pos > startpos] loop of [_siftdown]: [newitem] travels
    towards the root, parents move down. *)
Fixpoint siftdown_loop (fuel : nat) (heap : list A) (startpos pos : nat)
    (newitem : A) : result (list A) :=
  if decide (startpos < pos) then
    match fuel with
    | 0 => OutOfFuel
    | S fuel =>
        let parentpos := (pos - 1) `div` 2 in
        parent ← list_get heap parentpos;
        b ← lt newitem parent;
        if (b : bool) then
          heap ← list_set heap pos parent;
          siftdown_loop fuel heap startpos parentpos newitem
        else list_set heap pos newitem
    end
  else list_set heap pos newitem.

Definition _siftdown (heap : list A) (startpos pos : nat) : result (list A) :=
  newitem ← list_get heap pos;
  siftdown_loop pos heap startpos pos newitem.

(** The [while childpos < endpos] loop of [_siftup]: the smaller child
    moves up until a leaf is reached; returns the heap and the leaf. *)
Fixpoint siftup_loop (fuel : nat) (heap : list A) (endpos pos : nat)
    : result (list A * nat) :=
  let childpos := 2 * pos + 1 in
  if decide (childpos < endpos) then
    match fuel with
    | 0 => OutOfFuel
    | S fuel =>
        let rightpos := childpos + 1 in
        childpos ←
          (if decide (rightpos < endpos) then
             l ← list_get heap childpos;
             r ← list_get heap rightpos;
             b ← lt l r;
             mret (if (b : bool) then childpos else rightpos)
           else mret childpos);
        child ← list_get heap childpos;
        heap ← list_set heap pos child;
        siftup_loop fuel heap endpos childpos
    end
  else mret (heap, pos).

Definition _siftup (heap : list A) (pos : nat) : result (list A) :=
  let endpos := length heap in
  let startpos := pos in
  newitem ← list_get heap pos;
  '(heap, pos) ← siftup_loop endpos heap endpos pos;
  heap ← list_set heap pos newitem;
  _siftdown heap startpos pos.

Definition heappush (heap : list A) (item : A) : result (list A) :=
  let heap := heap ++ [item] in
  _siftdown heap 0 (length heap - 1).

Definition heappop (heap : list A) : result (A * list A) :=
  '(lastelt, heap) ← list_pop heap;
  match heap with
  | _ :: _ =>
      returnitem ← list_get heap 0;
      heap ← list_set heap 0 lastelt;
      heap ← _siftup heap 0;
      mret (returnitem, heap)
  | [] => mret (lastelt, heap)
  end.

(** [for i in reversed(range(n//2)): _siftup(x, i)], over the indices
    still to come. *)
Fixpoint heapify_loop (indices : list nat) (x : list A) : result (list A) :=
  match indices with
  | [] => mret x
  | i :: indices => x ← _siftup x i; heapify_loop indices x
  end.

Definition heapify (x : list A) : result (list A) :=
  let n := length x in
  heapify_loop (reverse (seq 0 (n `div` 2))) x.
End heapq.
End heapq.

(** *** PriorityQueue *)
Module PriorityQueue.
Section PriorityQueue.
Context {Item : Type}.
(** What Python does when a tuple comparison reaches the payloads: the
    search nodes stored in the queue need not support [<] at all. *)
Context (item_lt : Item → Item → result bool).

(** A heap entry is the tuple [(priority, self.count, item)]. *)
Definition entry : Type := Z * nat * Item.
Definition entry_priority (e : entry) : Z := e.1.1.
Definition entry_count (e : entry) : nat := e.1.2.
Definition entry_item (e : entry) : Item := e.2.

(** Python's [<] on such tuples: the first component that differs
    decides; the payloads are compared only when priority and count
    are both equal. *)
Definition entry_lt (a b : entry) : result bool :=
  if decide (entry_priority a = entry_priority b) then
    if decide (entry_count a = entry_count b) then
      item_lt (entry_item a) (entry_item b)
    else Ok (bool_decide (entry_count a < entry_count b))
  else Ok (bool_decide (entry_priority a < entry_priority b)%Z).

Record t : Type := mk { heap : list entry; count : nat }.

Definition init : t := mk [] 0.

Definition push (self : t) (item : Item) (priority : Z) : result t :=
  let entry := (priority, count self, item) in
  heap ← heapq.heappush entry_lt (heap self) entry;
  mret (mk heap (count self + 1)).

Definition pop (self : t) : result (Item * t) :=
  '(e, heap) ← heapq.heappop entry_lt (heap self);
  mret (entry_item e, mk heap (count self)).

Definition isEmpty (self : t) : bool :=
  bool_decide (length (heap self) = 0).

(** Python's [==] on two payloads. *)
Context (item_eq : Item → Item → bool).

(** The [for index, (p, c, i) in enumerate(self.heap)] loop of [update]
    from [index] on, [rest] being the entries still to be looked at.  It
    leaves the function with [return] ([Some]) at the first entry whose
    payload equals [item], or runs to its end ([None]). *)
Fixpoint update_loop (self : t) (item : Item) (priority : Z)
    (index : nat) (rest : list entry) : result (option t) :=
  match rest with
  | [] => mret None
  | (p, c, i) :: rest =>
      if item_eq i item then
        if decide (priority < p)%Z then
          heap ← list_set (heap self) index (priority, c, item);
          heap ← heapq.heapify entry_lt heap;
          mret (Some (mk heap (count self)))
        else mret (Some self)
      else update_loop self item priority (S index) rest
  end.

Definition update (self : t) (item : Item) (priority : Z) : result t :=
  r ← update_loop self item priority 0 (heap self);
  match r with
  | Some self => mret self
  | None => push self item priority
  end.
End PriorityQueue.
End PriorityQueue.

(** ** problem.py *)

(** The abstract [Problem] interface.  A step cost is a Python number,
    modelled as an integer. *)
Class Problem (State Action : Type) : Type := {
  getStartState : State;
  isGoalState : State → bool;
  getSuccessors : State → list (State * Action * Z);
}.

(** ** search.py *)

(** [for x in l: body] threading the loop state. *)
Fixpoint for_each {A S : Type} (l : list A) (body : S → A → result S) (s : S)
    : result S :=
  match l with
  | [] => mret s
  | x :: l => s ← body s x; for_each l body s
  end.

(** [while cond: body] followed by [return on_exit].  The body either
    goes round again with a new loop state ([inl], also for [continue])
    or leaves the function with [return] ([inr]).  [fuel] bounds the
    number of iterations. *)
Fixpoint while_loop {C R : Type} (cond : C → bool)
    (body : C → result (C + R)) (on_exit : R) (fuel : nat) (c : C) : result R :=
  if cond c then
    match fuel with
    | 0 => OutOfFuel
    | S fuel =>
        r ← body c;
        match r with
        | inl c => while_loop cond body on_exit fuel c
        | inr r => mret r
        end
    end
  else mret on_exit.

Section search.
Context {State Action : Type} `{Countable State}.

(** The value returned by a search: a list of actions, or [None]. *)
Definition answer : Type := option (list Action).

Section algorithms.
Context (problem : Problem State Action).

(** *** depthFirstSearch *)
Definition dfs_body (c : Stack.t (State * list Action) * gset State)
    : result (Stack.t (State * list Action) * gset State + answer) :=
  let '(fringe, visited) := c in
  '((state, path), fringe) ← Stack.pop fringe;
  if decide (state ∈ visited) then mret (inl (fringe, visited))
  else
    let visited := {[state]} ∪ visited in
    if isGoalState state then mret (inr (Some path))
    else
      fringe ← for_each (getSuccessors state)
        (λ fringe '(successor, action, stepCost),
           if decide (successor ∈ visited) then mret fringe
           else
             let new_path := path ++ [action] in
             mret (Stack.push fringe (successor, new_path)))
        fringe;
      mret (inl (fringe, visited)).

Definition depthFirstSearch (fuel : nat) : result answer :=
  let fringe := Stack.push Stack.init (getStartState, []) in
  let visited : gset State := ∅ in
  while_loop (λ c, negb (Stack.isEmpty c.1)) dfs_body None fuel
    (fringe, visited).

(** *** breadthFirstSearch *)
Definition bfs_body (c : Queue.t (State * list Action) * gset State)
    : result (Queue.t (State * list Action) * gset State + answer) :=
  let '(fringe, visited) := c in
  '((state, path), fringe) ← Queue.pop fringe;
  if decide (state ∈ visited) then mret (inl (fringe, visited))
  else
    let visited := {[state]} ∪ visited in
    if isGoalState state then mret (inr (Some path))
    else
      fringe ← for_each (getSuccessors state)
        (λ fringe '(successor, action, stepCost),
           if decide (successor ∈ visited) then mret fringe
           else
             let new_path := path ++ [action] in
             mret (Queue.push fringe (successor, new_path)))
        fringe;
      mret (inl (fringe, visited)).

Definition breadthFirstSearch (fuel : nat) : result answer :=
  let fringe := Queue.push Queue.init (getStartState, []) in
  let visited : gset State := ∅ in
  while_loop (λ c, negb (Queue.isEmpty c.1)) bfs_body None fuel
    (fringe, visited).

(** *** uniformCostSearch and aStarSearch

    Their fringe holds [(state, path, cost)] tuples.  [node_lt] is what
    [<] does on two such tuples; the states of a problem need not be
    ordered, so it may raise. *)
Local Abbreviation cnode := (State * list Action * Z)%type.
Context (node_lt : cnode → cnode → result bool).

Definition ucs_body (c : PriorityQueue.t (Item:=cnode) * gset State)
    : result (PriorityQueue.t (Item:=cnode) * gset State + answer) :=
  let '(fringe, visited) := c in
  '((state, path, cost), fringe) ← PriorityQueue.pop node_lt fringe;
  if decide (state ∈ visited) then mret (inl (fringe, visited))
  else
    let visited := {[state]} ∪ visited in
    if isGoalState state then mret (inr (Some path))
    else
      fringe ← for_each (getSuccessors state)
        (λ fringe '(successor, action, stepCost),
           if decide (successor ∈ visited) then mret fringe
           else
             let new_path := path ++ [action] in
             let new_cost := (cost + stepCost)%Z in
             PriorityQueue.push node_lt fringe
               (successor, new_path, new_cost) new_cost)
        fringe;
      mret (inl (fringe, visited)).

Definition uniformCostSearch (fuel : nat) : result answer :=
  fringe ← PriorityQueue.push node_lt PriorityQueue.init
             (getStartState, [], 0%Z) 0%Z;
  let visited : gset State := ∅ in
  while_loop (λ c, negb (PriorityQueue.isEmpty c.1)) ucs_body None fuel
    (fringe, visited).

Definition nullHeuristic (state : State)
    (problem : Problem State Action) : Z := 0%Z.

Definition astar_body (heuristic : State → Problem State Action → Z)
    (c : PriorityQueue.t (Item:=cnode) * gset State)
    : result (PriorityQueue.t (Item:=cnode) * gset State + answer) :=
  let '(fringe, visited) := c in
  '((state, path, g_cost), fringe) ← PriorityQueue.pop node_lt fringe;
  if decide (state ∈ visited) then mret (inl (fringe, visited))
  else
    let visited := {[state]} ∪ visited in
    if isGoalState state then mret (inr (Some path))
    else
      fringe ← for_each (getSuccessors state)
        (λ fringe '(successor, action, stepCost),
           if decide (successor ∈ visited) then mret fringe
           else
             let new_path := path ++ [action] in
             let new_g_cost := (g_cost + stepCost)%Z in
             let h_cost := heuristic successor problem in
             let f_cost := (new_g_cost + h_cost)%Z in
             PriorityQueue.push node_lt fringe
               (successor, new_path, new_g_cost) f_cost)
        fringe;
      mret (inl (fringe, visited)).

Definition aStarSearch (heuristic : State → Problem State Action → Z)
    (fuel : nat) : result answer :=
  let start_state := getStartState in
  let h := heuristic start_state problem in
  fringe ← PriorityQueue.push node_lt PriorityQueue.init
             (start_state, [], 0%Z) (0 + h)%Z;
  let visited : gset State := ∅ in
  while_loop (λ c, negb (PriorityQueue.isEmpty c.1)) (astar_body heuristic)
    None fuel (fringe, visited).
End algorithms.
End search.


(** ** maze_problem.py *)
Module MazeProblem.

(** A character of the maze file, as its code point. *)
Definition char : Type := N.
Definition wall_char : char := 37%N.    (* '%' *)
Definition start_char : char := 83%N.   (* 'S' *)
Definition goal_char : char := 71%N.    (* 'G' *)

(** [enumerate(l)] *)
Definition enumerate {A : Type} (l : list A) : list (nat * A) :=
  imap (λ i x, (i, x)) l.

Section strip.
(** [str.isspace] on one character: the whitespace that [str.strip]
    removes is decided by the Python runtime. *)
Context (isspace : char → bool).

Fixpoint lstrip (line : list char) : list char :=
  match line with
  | [] => []
  | ch :: rest => if isspace ch then lstrip rest else line
  end.

(** [line.strip()] *)
Definition strip (line : list char) : list char :=
  reverse (lstrip (reverse (lstrip line))).
End strip.

(** The fields [__init__] fills while it reads the file. *)
Record scan : Type := mk_scan {
  scan_grid : list (list char);
  scan_walls : gset (Z * Z);
  scan_start : option (Z * Z);
  scan_goal : option (Z * Z);
}.

(** The body of [for c, char in enumerate(line.strip())]. *)
Definition scan_char (r : nat) (acc : list char * scan) (cc : nat * char)
    : list char * scan :=
  let '(row, st) := acc in
  let '(c, char) := cc in
  let row := row ++ [char] in
  let pos := (Z.of_nat r, Z.of_nat c) in
  if decide (char = wall_char) then
    (row, mk_scan (scan_grid st) ({[pos]} ∪ scan_walls st)
            (scan_start st) (scan_goal st))
  else if decide (char = start_char) then
    (row, mk_scan (scan_grid st) (scan_walls st) (Some pos) (scan_goal st))
  else if decide (char = goal_char) then
    (row, mk_scan (scan_grid st) (scan_walls st) (scan_start st) (Some pos))
  else (row, st).

(** The body of [for r, line in enumerate(f)]. *)
Definition scan_line (isspace : char → bool) (st : scan)
    (rl : nat * list char) : scan :=
  let '(r, line) := rl in
  let '(row, st) := foldl (scan_char r) ([], st) (enumerate (strip isspace line)) in
  mk_scan (scan_grid st ++ [row]) (scan_walls st) (scan_start st) (scan_goal st).

(** A maze that was loaded. *)
Record t : Type := mk {
  grid : list (list char);
  walls : gset (Z * Z);
  startState : Z * Z;
  goalState : Z * Z;
  height : Z;
  width : Z;
}.

(** [__init__] either sets the fields up or ends the program with
    [exit(1)]. *)
Inductive loaded : Type :=
| Loaded (self : t)
| Exit (status : Z).

(** [file] is what opening the path and reading it line by line gives:
    [None] when the file does not exist, else its lines with their line
    ends. *)
Definition __init__ (isspace : char → bool) (file : option (list (list char)))
    : loaded :=
  match file with
  | None => Exit 1    (* FileNotFoundError *)
  | Some f =>
      let st := foldl (scan_line isspace) (mk_scan [] ∅ None None) (enumerate f) in
      match scan_start st, scan_goal st with
      | Some startState, Some goalState =>
          let height := length (scan_grid st) in
          let width :=
            if decide (0 < height) then
              match scan_grid st !! 0 with
              | Some row => length row
              | None => 0
              end
            else 0 in
          Loaded (mk (scan_grid st) (scan_walls st) startState goalState
                    (Z.of_nat height) (Z.of_nat width))
      | _, _ => Exit 1    (* ValueError, caught by [except Exception] *)
      end
  end.

Definition possible_actions : list (string * (Z * Z)) :=
  [("North", (-1, 0)); ("South", (1, 0)); ("West", (0, -1)); ("East", (0, 1))]%Z.

Definition getSuccessors (self : t) (state : Z * Z)
    : list (Z * Z * string * Z) :=
  let '(r, c) := state in
  foldl
    (λ successors '(action, (dr, dc)),
       let next_r := (r + dr)%Z in
       let next_c := (c + dc)%Z in
       let next_state := (next_r, next_c) in
       if bool_decide ((0 ≤ next_r < height self)%Z ∧
                       (0 ≤ next_c < width self)%Z ∧
                       next_state ∉ walls self)
       then successors ++ [(next_state, action, 1%Z)]
       else successors)
    [] possible_actions.

Definition getStartState (self : t) : Z * Z := startState self.

Definition isGoalState (self : t) (state : Z * Z) : bool :=
  bool_decide (state = goalState self).

(** [class MazeProblem(Problem)]: the three methods as an instance of the
    interface. *)
Definition problem (self : t) : Problem (Z * Z) string :=
  Build_Problem (Z * Z) string
    (getStartState self) (isGoalState self) (getSuccessors self).
End MazeProblem.

Definition manhattanHeuristic (state : Z * Z) (problem : MazeProblem.t) : Z :=
  let '(r1, c1) := state in
  let '(r2, c2) := MazeProblem.goalState problem in
  (Z.abs (r1 - r2) + Z.abs (c1 - c2))%Z.

(** ** main.py *)

(** The part of [main] between reading the arguments and printing: the
    table of algorithms and the call of the one that was chosen.  The
    heuristic of the [a_star] entry is handed the maze the search runs
    on. *)
Section main.
Context (node_lt : (Z * Z) * list string * Z → (Z * Z) * list string * Z
                   → result bool).

Definition alg_map
    : gmap string (MazeProblem.t → nat → result (@answer string)) :=
  <["dfs" := λ p, depthFirstSearch (MazeProblem.problem p)]>
  (<["bfs" := λ p, breadthFirstSearch (MazeProblem.problem p)]>
  (<["ucs" := λ p, uniformCostSearch (MazeProblem.problem p) node_lt]>
  (<["a_star" := λ p, aStarSearch (MazeProblem.problem p) node_lt
                       (λ state _, manhattanHeuristic state p)]> ∅))).

(** [algorithm = alg_map.get(args.algorithm)] and, unless that is [None],
    [solution = algorithm(problem)]. *)
Definition solve (algorithm_name : string) (problem : MazeProblem.t)
    (fuel : nat) : option (result (@answer string)) :=
  match alg_map !! algorithm_name with
  | None => None
  | Some algorithm => Some (algorithm problem fuel)
  end.
End main.
(** * Specification vocabulary *)

(** ** The binary heap behind [PriorityQueue] *)
Section heap_vocabulary.
Context {Item : Type}.
Local Abbreviation entry := (@PriorityQueue.entry Item).
Local Abbreviation prio := PriorityQueue.entry_priority.
Local Abbreviation cnt := PriorityQueue.entry_count.

(** The order of the [(priority, count)] prefix of two entries. *)
Definition key_lt (a b : entry) : Prop :=
  (prio a < prio b)%Z ∨ (prio a = prio b ∧ cnt a < cnt b).
Definition key_le (a b : entry) : Prop :=
  (prio a < prio b)%Z ∨ (prio a = prio b ∧ cnt a ≤ cnt b).

#[global] Instance key_lt_dec a b : Decision (key_lt a b).
Proof. unfold key_lt. apply _. Defined.

(** Index [c] is one of the two children of index [p]. *)
Definition is_child (p c : nat) : Prop := c = 2 * p + 1 ∨ c = 2 * p + 2.

(** The heap invariant of [heapq]: no entry is smaller than its parent. *)
Definition heap_ok (h : list entry) : Prop :=
  ∀ p c x y, is_child p c → h !! p = Some x → h !! c = Some y → key_le x y.

(** The same with index [pos] left out: while an item is sifted, [pos]
    is the slot it will be written to and its content is stale. *)
Definition heap_hole (h : list entry) (pos : nat) : Prop :=
  (∀ p c x y, is_child p c → p ≠ pos → c ≠ pos →
     h !! p = Some x → h !! c = Some y → key_le x y) ∧
  (∀ p c x y, is_child p pos → is_child pos c →
     h !! p = Some x → h !! c = Some y → key_le x y).

(** State of a sifting loop: writing [new] into the hole gives back the
    entries [orig] the heap operation started from. *)
Definition hole_inv (orig h : list entry) (pos : nat) (new : entry) : Prop :=
  pos < length h ∧ heap_hole h pos ∧ <[pos:=new]> h ≡ₚ orig.

(** Well-formed priority queue: a heap whose entries carry pairwise
    distinct sequence numbers, all below the counter. *)
Definition pq_wf (q : @PriorityQueue.t Item) : Prop :=
  heap_ok (PriorityQueue.heap q) ∧
  NoDup (cnt <$> PriorityQueue.heap q) ∧
  (∀ e, e ∈ PriorityQueue.heap q → cnt e < PriorityQueue.count q).

(** Queues that arise from the empty one by [push] and [pop]. *)
Inductive pq_reachable (item_lt : Item → Item → result bool)
    : @PriorityQueue.t Item → Prop :=
| pq_reach_init : pq_reachable item_lt PriorityQueue.init
| pq_reach_push q item priority q' :
    pq_reachable item_lt q →
    PriorityQueue.push item_lt q item priority = Ok q' →
    pq_reachable item_lt q'
| pq_reach_pop q item q' :
    pq_reachable item_lt q →
    PriorityQueue.pop item_lt q = Ok (item, q') →
    pq_reachable item_lt q'.

(** [fringe.push(item, priority)] for each pair of a list, in order. *)
Definition push_all (item_lt : Item → Item → result bool)
    (l : list (Item * Z)) (q : PriorityQueue.t) : result PriorityQueue.t :=
  for_each l (λ q ip, PriorityQueue.push item_lt q ip.1 ip.2) q.
End heap_vocabulary.

(** ** Walks in the state space of a problem *)
Section walk_vocabulary.
Context {State Action : Type} (problem : Problem State Action).

(** A successor triple [(successor, action, stepCost)]. *)
Local Abbreviation edge := (State * Action * Z)%type.
Definition edge_target (e : edge) : State := e.1.1.
Definition edge_action (e : edge) : Action := e.1.2.
Definition edge_cost (e : edge) : Z := e.2.

(** [walk s es t]: starting in [s], every triple of [es] is among the
    successors of the state it is taken from, and the last one leads
    to [t]. *)
Inductive walk (s : State) : list edge → State → Prop :=
| walk_nil : walk s [] s
| walk_snoc es u e :
    walk s es u → e ∈ getSuccessors u → walk s (es ++ [e]) (edge_target e).

Definition actions (es : list edge) : list Action := edge_action <$> es.

(** Total weight of a walk for a weight [wt] on triples; [path_cost]
    is the total step cost. *)
Definition weight (wt : edge → Z) (es : list edge) : Z :=
  foldr (λ e acc, (wt e + acc)%Z) 0%Z es.
Definition path_cost : list edge → Z := weight edge_cost.

Definition reachable (s : State) : Prop := ∃ es, walk getStartState es s.

(** [es] is a walk from the start state to a goal state. *)
Definition goal_walk (es : list edge) : Prop :=
  ∃ t, walk getStartState es t ∧ isGoalState t = true.

Definition goal_reachable : Prop := ∃ es, goal_walk es.

(** Replaying the actions [p] from the start state through successor
    triples is possible and ends in a goal state. *)
Definition solution (p : list Action) : Prop :=
  ∃ es, goal_walk es ∧ actions es = p.

(** [p] replays along a goal walk that has the least total weight
    among all walks from the start state to any goal state. *)
Definition optimal_solution (wt : edge → Z) (p : list Action) : Prop :=
  ∃ es, goal_walk es ∧ actions es = p ∧
        ∀ es', goal_walk es' → (weight wt es ≤ weight wt es')%Z.

(** The states reachable from the start state are finitely many. *)
Definition finite_reachable : Prop :=
  ∃ R : list State, ∀ s, reachable s → s ∈ R.

Definition nonneg_costs : Prop :=
  ∀ s e, e ∈ getSuccessors s → (0 ≤ edge_cost e)%Z.

Definition unit_costs : Prop :=
  ∀ s e, e ∈ getSuccessors s → edge_cost e = 1%Z.

(** The contract of a heuristic and the two classical conditions. *)
Definition nonneg_heuristic (h : State → Z) : Prop := ∀ s, (0 ≤ h s)%Z.
Definition admissible (h : State → Z) : Prop :=
  ∀ s es t, walk s es t → isGoalState t = true → (h s ≤ path_cost es)%Z.
Definition consistent (wt : edge → Z) (h : State → Z) : Prop :=
  ∀ s e, e ∈ getSuccessors s → (h s ≤ wt e + h (edge_target e))%Z.
End walk_vocabulary.

(** ** Runs of a loop *)

(** One iteration from [c] that goes round again with [c']. *)
Definition loop_step {C R : Type} (cond : C → bool)
    (body : C → result (C + R)) (c c' : C) : Prop :=
  cond c = true ∧ body c = Ok (inl c').

(** [run] returns [r] when it is given enough fuel. *)
Definition returns {R : Type} (run : nat → result R) (r : R) : Prop :=
  ∃ fuel, run fuel = Ok r.

(** ** The loop shared by the four algorithms

    The four functions of [search.py] run the same loop on different
    fringes.  [search] is that loop over an abstract fringe; each
    algorithm is shown to be an instance of it, and the invariants are
    proved once. *)
Class Fringe (F Node : Type) : Type := {
  fringe_init : F;
  fringe_isEmpty : F → bool;
  fringe_pop : F → result (Node * F);
  fringe_push : F → Node → result F;
}.

(** What the loop needs from the tuples held in the fringe.  [node_g] and
    [edge_wt] are the quantity the fringe orders by (accumulated step
    cost, or number of actions). *)
Class SearchNode (State Action Node : Type) : Type := {
  node_state : Node → State;
  node_path : Node → list Action;
  node_extend : Node → State * Action * Z → Node;
  node_g : Node → Z;
  edge_wt : State * Action * Z → Z;
}.

Section generic_search.
Context {State Action : Type} `{Countable State}.
Context (problem : Problem State Action).
Context {F Node : Type} `{!Fringe F Node, !SearchNode State Action Node}.
Context (node_start : Node).

Definition search_body (c : F * gset State)
    : result (F * gset State + @answer Action) :=
  let '(fringe, visited) := c in
  '(node, fringe) ← fringe_pop fringe;
  let state := node_state node in
  if decide (state ∈ visited) then mret (inl (fringe, visited))
  else
    let visited := {[state]} ∪ visited in
    if isGoalState state then mret (inr (Some (node_path node)))
    else
      fringe ← for_each (getSuccessors state)
        (λ fringe e,
           if decide (edge_target e ∈ visited) then mret fringe
           else fringe_push fringe (node_extend node e))
        fringe;
      mret (inl (fringe, visited)).

Definition search_cond (c : F * gset State) : bool :=
  negb (fringe_isEmpty c.1).

Definition search (fuel : nat) : result (@answer Action) :=
  fringe ← fringe_push fringe_init node_start;
  while_loop search_cond search_body None fuel (fringe, ∅).

(** What an answer has to satisfy. *)
Definition answer_ok (r : @answer Action) : Prop :=
  match r with
  | Some p => solution problem p
  | None => ¬ goal_reachable problem
  end.
Definition answer_optimal (r : @answer Action) : Prop :=
  match r with
  | Some p => optimal_solution problem edge_wt p
  | None => True
  end.

(** The nodes a node gives rise to when it is expanded. *)
Definition children (n : Node) (visited : gset State) : list Node :=
  node_extend n <$>
    filter (λ e, edge_target e ∉ visited) (getSuccessors (node_state n)).

(** A node records a walk from the start state to its state. *)
Definition node_ok (n : Node) : Prop :=
  ∃ es, walk problem getStartState es (node_state n) ∧
        actions es = node_path n ∧ weight edge_wt es = node_g n.

(** *** What a fringe has to guarantee *)
Class FringeSpec : Type := {
  elems : F → list Node;
  (** invariant of the fringe between iterations; while [n] is expanded *)
  wf : F → Prop;
  wfa : Node → F → Prop;
  node_start_state : node_state node_start = getStartState;
  node_start_path : node_path node_start = [];
  node_start_g : node_g node_start = 0%Z;
  node_extend_state n e : node_state (node_extend n e) = edge_target e;
  node_extend_path n e :
    node_path (node_extend n e) = node_path n ++ [edge_action e];
  node_extend_g n e : node_g (node_extend n e) = (node_g n + edge_wt e)%Z;
  init_spec :
    ∃ f0, fringe_push fringe_init node_start = Ok f0 ∧
          elems f0 = [node_start] ∧ wf f0;
  isEmpty_spec f : fringe_isEmpty f = true ↔ elems f = [];
  pop_spec f :
    wf f → fringe_isEmpty f = false →
    ∃ n f', fringe_pop f = Ok (n, f') ∧ elems f ≡ₚ n :: elems f' ∧ wfa n f';
  wfa_wf n f : wfa n f → wf f;
  push_spec n f e :
    wfa n f → e ∈ getSuccessors (node_state n) →
    ∃ f', fringe_push f (node_extend n e) = Ok f' ∧
          elems f' ≡ₚ node_extend n e :: elems f ∧ wfa n f';
}.

Context {FS : FringeSpec}.

(** [pop] returns a node of least [key] among those held. *)
Definition pop_min (key : Node → Z) : Prop :=
  ∀ f n f', wf f → fringe_pop f = Ok (n, f') →
            ∀ m, m ∈ elems f → (key n ≤ key m)%Z.

(** The loop invariant.  [closed] lists the nodes expanded so far. *)
Record search_inv (closed : list Node) (c : F * gset State) : Prop := {
  inv_wf : wf c.1;
  inv_visited : ∀ s, s ∈ c.2 ↔ s ∈ node_state <$> closed;
  inv_fringe_ok : ∀ n, n ∈ elems c.1 → node_ok n;
  inv_closed_ok : ∀ n, n ∈ closed →
    node_ok n ∧ isGoalState (node_state n) = false ∧
    ∀ e, e ∈ getSuccessors (node_state n) →
         edge_target e ∈ c.2 ∨ node_extend n e ∈ elems c.1;
  inv_start : getStartState ∈ c.2 ∨ node_start ∈ elems c.1;
}.

(** Every expanded node was reached by a walk of least weight. *)
Definition closed_optimal (closed : list Node) : Prop :=
  ∀ n es, n ∈ closed → walk problem getStartState es (node_state n) →
          (node_g n ≤ weight edge_wt es)%Z.

(** Bound on the number of iterations left: the nodes in the fringe
    plus, for every state of [R] not yet visited, its visit and the
    nodes that visit may push. *)
Definition visit_cost (visited : gset State) (s : State) : nat :=
  if decide (s ∈ visited) then 0 else 1 + length (getSuccessors s).
Definition potential (R : list State) (c : F * gset State) : nat :=
  length (elems c.1) + sum_list (visit_cost c.2 <$> R).
End generic_search.

Arguments elems {State Action problem F Node _ _ node_start FringeSpec} _.
Arguments wf {State Action problem F Node _ _ node_start FringeSpec} _.
Arguments wfa {State Action problem F Node _ _ node_start FringeSpec} _ _.
Arguments node_start_state {State Action problem F Node _ _ node_start FringeSpec}.
Arguments node_start_path {State Action problem F Node _ _ node_start FringeSpec}.
Arguments node_start_g {State Action problem F Node _ _ node_start FringeSpec}.
Arguments node_extend_state {State Action problem F Node _ _ node_start FringeSpec} _ _.
Arguments node_extend_path {State Action problem F Node _ _ node_start FringeSpec} _ _.
Arguments node_extend_g {State Action problem F Node _ _ node_start FringeSpec} _ _.
Arguments init_spec {State Action problem F Node _ _ node_start FringeSpec}.
Arguments isEmpty_spec {State Action problem F Node _ _ node_start FringeSpec} _.
Arguments pop_spec {State Action problem F Node _ _ node_start FringeSpec} _ _ _.
Arguments wfa_wf {State Action problem F Node _ _ node_start FringeSpec} _ _ _.
Arguments push_spec {State Action problem F Node _ _ node_start FringeSpec} _ _ _ _ _.

(** ** The four algorithms as instances of the shared loop *)
Section instances.
Context {State Action : Type} `{Countable State}.
Context (problem : Problem State Action).
Local Abbreviation pnode := (State * list Action)%type.
Local Abbreviation cnode := (State * list Action * Z)%type.

(** [(state, path)] tuples of the depth-first and breadth-first
    searches, measured by the number of actions. *)
Definition pnode_ops : SearchNode State Action pnode := {|
  node_state n := n.1;
  node_path n := n.2;
  node_extend n e := (edge_target e, n.2 ++ [edge_action e]);
  node_g n := Z.of_nat (length n.2);
  edge_wt _ := 1%Z;
|}.

(** [(state, path, cost)] tuples of the uniform-cost and A* searches,
    measured by the accumulated step cost. *)
Definition cnode_ops : SearchNode State Action cnode := {|
  node_state n := n.1.1;
  node_path n := n.1.2;
  node_extend n e :=
    (edge_target e, n.1.2 ++ [edge_action e], (n.2 + edge_cost e)%Z);
  node_g n := n.2;
  edge_wt := edge_cost;
|}.

Definition stack_fringe : Fringe (Stack.t pnode) pnode := {|
  fringe_init := Stack.init;
  fringe_isEmpty := Stack.isEmpty;
  fringe_pop := Stack.pop;
  fringe_push f n := mret (Stack.push f n);
|}.

Definition queue_fringe : Fringe (Queue.t pnode) pnode := {|
  fringe_init := Queue.init;
  fringe_isEmpty := Queue.isEmpty;
  fringe_pop := Queue.pop;
  fringe_push f n := mret (Queue.push f n);
|}.

(** A priority queue on which every node is pushed with priority
    [priority n]. *)
Definition pq_fringe (node_lt : cnode → cnode → result bool)
    (priority : cnode → Z) : Fringe (PriorityQueue.t (Item:=cnode)) cnode := {|
  fringe_init := PriorityQueue.init;
  fringe_isEmpty := PriorityQueue.isEmpty;
  fringe_pop := PriorityQueue.pop node_lt;
  fringe_push f n := PriorityQueue.push node_lt f n (priority n);
|}.

Definition ucs_priority (n : cnode) : Z := n.2.
Definition astar_priority (heuristic : State → Problem State Action → Z)
    (n : cnode) : Z := (n.2 + heuristic n.1.1 problem)%Z.

(** The queue of the breadth-first search while node [n] is expanded:
    path lengths do not decrease along the queue and lie between the
    length of [n] and one more. *)
Definition queue_wfa (n : pnode) (q : Queue.t pnode) : Prop :=
  ∀ i j a b, i ≤ j → Queue.queue q !! i = Some a → Queue.queue q !! j = Some b →
    length n.2 ≤ length a.2 ∧ length a.2 ≤ length b.2 ∧
    length b.2 ≤ length n.2 + 1.

Definition queue_wf (q : Queue.t pnode) : Prop :=
  match Queue.queue q with
  | [] => True
  | n :: _ => queue_wfa n q
  end.

(** The priority queue of the cost-based searches: well-formed, and
    every entry filed under the priority of its node. *)
Definition pq_fringe_wf (priority : cnode → Z)
    (q : PriorityQueue.t (Item:=cnode)) : Prop :=
  pq_wf q ∧
  ∀ e, e ∈ PriorityQueue.heap q →
       PriorityQueue.entry_priority e = priority (PriorityQueue.entry_item e).
End instances.

(** ** How a search loop treats its visited set *)
Section discipline_vocabulary.
Context {State Action : Type} `{Countable State} {F Node : Type}.
Context (pop : F → result (Node * F)) (state_of : Node → State).
Context (cond : F * gset State → bool).
Context (body : Problem State Action → F * gset State →
                result (F * gset State + @answer Action)).

(** An iteration that pops a node whose state is in the visited set
    drops the node and changes nothing else: no goal test, no
    successors, no push. *)
Definition discards_visited (problem : Problem State Action) : Prop :=
  ∀ fringe visited node fringe',
    pop fringe = Ok (node, fringe') → state_of node ∈ visited →
    body problem (fringe, visited) = Ok (inl (fringe', visited)).

(** Along a run, a state in the visited set stays there, and the
    iteration that pops it again gives the same outcome whatever the
    goal test and the successors of the problem are: they are not
    consulted. *)
Definition never_reexpands (problem : Problem State Action) : Prop :=
  ∀ c c' s,
    rtc (loop_step cond (body problem)) c c' → s ∈ c.2 →
    s ∈ c'.2 ∧
    ∀ node fringe', pop c'.1 = Ok (node, fringe') → state_of node = s →
      ∀ problem', body problem' c' = Ok (inl (fringe', c'.2)).
End discipline_vocabulary.

(** ** Answers of least cost *)
Definition least_cost_answer {State Action : Type}
    (problem : Problem State Action) (r : @answer Action) : Prop :=
  ∃ p, r = Some p ∧ optimal_solution problem edge_cost p.

(** [p] replays to a goal and no action sequence that does is shorter. *)
Definition fewest_actions_answer {State Action : Type}
    (problem : Problem State Action) (r : @answer Action) : Prop :=
  ∃ p, r = Some p ∧ solution problem p ∧
       ∀ p', solution problem p' → length p ≤ length p'.

(** ** Example problems *)

(** A small graph: [0 → 1] at cost [c01], [0 → 2], [2 → 1], [2 → 0] and
    [1 → 3] at cost 1; the start state is 0 and the goal is 3.  Actions are
    numbered by the edge they take. *)
Definition demo_problem (c01 : Z) : Problem nat nat := {|
  getStartState := 0;
  isGoalState s := bool_decide (s = 3);
  getSuccessors s :=
    match s with
    | 0 => [(1, 10, c01); (2, 20, 1%Z)]
    | 1 => [(3, 13, 1%Z)]
    | 2 => [(1, 21, 1%Z); (0, 22, 1%Z)]
    | _ => []
    end;
|}.

(** An endless chain [0 → 1 → 2 → ...] without a goal. *)
Definition chain_problem : Problem nat unit := {|
  getStartState := 0;
  isGoalState _ := false;
  getSuccessors s := [(S s, (), 1%Z)];
|}.

(** A ring [0 → 1 → 2 → 0] with steps of cost 1.  The start state is 0;
    the goal is the state [goal], which lies on the ring only when it is
    below 3. *)
Definition ring_problem (goal : nat) : Problem nat nat := {|
  getStartState := 0;
  isGoalState s := bool_decide (s = goal);
  getSuccessors s :=
    match s with
    | 0 => [(1, 10, 1%Z)]
    | 1 => [(2, 11, 1%Z)]
    | 2 => [(0, 12, 1%Z)]
    | _ => []
    end;
|}.

(** Search nodes that do not support [<]. *)
Definition no_lt {A : Type} : A → A → result bool := λ _ _, Raise TypeError.


(** ** Mazes *)

(** The test [getSuccessors] applies to a neighbour: inside the bounds
    and not a wall. *)
Definition maze_free (self : MazeProblem.t) (state : Z * Z) : bool :=
  bool_decide ((0 ≤ state.1 < MazeProblem.height self)%Z ∧
               (0 ≤ state.2 < MazeProblem.width self)%Z ∧
               state ∉ MazeProblem.walls self).

(** The cells inside the bounds that [getSuccessors] checks. *)
Definition maze_cells (self : MazeProblem.t) : list (Z * Z) :=
  r ← seqZ 0 (MazeProblem.height self);
  c ← seqZ 0 (MazeProblem.width self);
  [(r, c)].

(** The heuristic the [a_star] entry of [main] uses on maze [self]. *)
Definition maze_heuristic (self : MazeProblem.t)
    : Z * Z → Problem (Z * Z) string → Z :=
  λ state _, manhattanHeuristic state self.

(** ** Reading a maze file *)

(** The positions of the character [ch] in row [r], from left to right. *)
Definition row_positions (ch : MazeProblem.char) (r : nat)
    (row : list MazeProblem.char) : list (Z * Z) :=
  omap (λ cx : nat * MazeProblem.char,
          if decide (cx.2 = ch) then Some (Z.of_nat r, Z.of_nat cx.1)
          else None)
       (MazeProblem.enumerate row).

(** The positions of [ch] in the rows, in reading order. *)
Definition positions (ch : MazeProblem.char)
    (rows : list (list MazeProblem.char)) : list (Z * Z) :=
  mjoin (imap (row_positions ch) rows).

(** The character of the grid at a position. *)
Definition grid_at (rows : list (list MazeProblem.char)) (pos : Z * Z)
    : option MazeProblem.char :=
  if decide (0 ≤ pos.1 ∧ 0 ≤ pos.2)%Z then
    row ← rows !! Z.to_nat pos.1; row !! Z.to_nat pos.2
  else None.

(** Reading order: an earlier row, or the same row and no later column. *)
Definition reads_before (a b : Z * Z) : Prop :=
  (a.1 < b.1 ∨ a.1 = b.1 ∧ a.2 ≤ b.2)%Z.

(** ** Paths without repeated states *)
Section simple_vocabulary.
Context {State Action : Type} `{Countable State}.
Context (problem : Problem State Action).

(** The states a walk from [s] passes through, [s] included. *)
Definition walk_states (s : State) (es : list (State * Action * Z))
    : list State :=
  s :: (edge_target <$> es).

(** [p] replays to a goal state without passing through a state twice. *)
Definition simple_solution (p : list Action) : Prop :=
  ∃ es, goal_walk problem es ∧ actions es = p ∧
        NoDup (walk_states getStartState es).

Context {F Node : Type} `{!Fringe F Node, !SearchNode State Action Node}.
Context (node_start : Node) {FS : FringeSpec problem node_start}.

(** A node of the fringe records a walk without repeated states, all of
    them visited but for the last. *)
Definition node_simple (visited : gset State) (n : Node) : Prop :=
  ∃ es, walk problem getStartState es (node_state n) ∧
        actions es = node_path n ∧
        NoDup (walk_states getStartState es) ∧
        ∀ s, s ∈ walk_states getStartState es →
             s = node_state n ∨ s ∈ visited.

Definition simple_inv (c : F * gset State) : Prop :=
  ∀ n, n ∈ elems c.1 → node_simple c.2 n.

Definition answer_simple (r : @answer Action) : Prop :=
  match r with
  | Some p => simple_solution p
  | None => True
  end.
End simple_vocabulary.

(** ** Using the containers *)

(** [n] times [pop], collecting what it returns. *)
Fixpoint pop_many {F A : Type} (pop : F → result (A * F)) (n : nat) (f : F)
    : result (list A * F) :=
  match n with
  | 0 => mret ([], f)
  | S n =>
      '(x, f) ← pop f;
      '(xs, f) ← pop_many pop n f;
      mret (x :: xs, f)
  end.

(** ** Problems that differ in their step costs only *)
Definition same_up_to_costs {State Action : Type}
    (problem problem' : Problem State Action) : Prop :=
  getStartState (Problem:=problem) = getStartState (Problem:=problem') ∧
  (∀ s, isGoalState (Problem:=problem) s = isGoalState (Problem:=problem') s) ∧
  (∀ s, fst <$> getSuccessors (Problem:=problem) s
        = fst <$> getSuccessors (Problem:=problem') s).

(** ** Heaps below an index *)
Section heapify_vocabulary.
Context {Item : Type}.
Local Abbreviation entry := (@PriorityQueue.entry Item).

(** The heap invariant for the parents from index [k] on: what
    [heapify] has established when it has come down to [k]. *)
Definition heap_from (k : nat) (h : list entry) : Prop :=
  ∀ p c x y, is_child p c → k ≤ p →
             h !! p = Some x → h !! c = Some y → key_le x y.

(** The same with the slot [pos] left out. *)
Definition hole_from (k : nat) (h : list entry) (pos : nat) : Prop :=
  (∀ p c x y, is_child p c → k ≤ p → p ≠ pos → c ≠ pos →
     h !! p = Some x → h !! c = Some y → key_le x y) ∧
  (∀ p c x y, is_child p pos → is_child pos c → k ≤ p →
     h !! p = Some x → h !! c = Some y → key_le x y).

(** Index [pos] lies in the subtree of index [k]. *)
Inductive below (k : nat) : nat → Prop :=
| below_root : below k k
| below_child p c : below k p → is_child p c → below k c.

(** The first entry of the heap whose payload equals [item], with its
    index: the entry [update] stops at. *)
Definition first_match (item_eq : Item → Item → bool) (item : Item)
    (h : list entry) : option (nat * entry) :=
  list_find (λ e, item_eq (PriorityQueue.entry_item e) item = true) h.
End heapify_vocabulary.

(** ** An example maze *)

(** [str.isspace] on the ASCII characters. *)
Definition ascii_isspace (ch : MazeProblem.char) : bool :=
  bool_decide (ch ∈ [9; 10; 11; 12; 13; 28; 29; 30; 31; 32]%N).

(** The lines of a maze file, each with its line end:
<<
  %%%%%
  %S  %
  % %G%
  %%%%%
>> *)
Definition demo_lines : list (list MazeProblem.char) :=
  [[37; 37; 37; 37; 37; 10];
   [37; 83; 32; 32; 37; 10];
   [37; 32; 37; 71; 37; 10];
   [37; 37; 37; 37; 37; 10]]%N.

(** The maze [__init__] builds from these lines. *)
Definition demo_maze : MazeProblem.t :=
  MazeProblem.mk
    [[37; 37; 37; 37; 37]; [37; 83; 32; 32; 37];
     [37; 32; 37; 71; 37]; [37; 37; 37; 37; 37]]%N
    (list_to_set
       [(0, 0); (0, 1); (0, 2); (0, 3); (0, 4); (1, 0); (1, 4);
        (2, 0); (2, 2); (2, 4); (3, 0); (3, 1); (3, 2); (3, 3); (3, 4)]%Z)
    (1, 1)%Z (2, 3)%Z 4 5.
(** * Proofs *)

(** ** The [result] monad and Python lists *)

Lemma bind_ext {A B} (m : result A) (f g : A → result B) :
  (∀ a, f a = g a) → m ≫= f = m ≫= g.
Proof. intros Hfg. destruct m; simpl; auto. Qed.

Lemma list_get_Ok {A} (l : list A) i x : l !! i = Some x → list_get l i = Ok x.
Proof. unfold list_get. by intros ->. Qed.

Lemma list_set_Ok {A} (l : list A) i x :
  i < length l → list_set l i x = Ok (<[i:=x]> l).
Proof. unfold list_set. intros. by rewrite decide_True. Qed.

Lemma list_pop_snoc {A} (l : list A) x : list_pop (l ++ [x]) = Ok (x, l).
Proof. unfold list_pop. by rewrite last_snoc, removelast_last. Qed.

(** Moving the content of slot [j] into slot [i] and the new item into
    slot [j] permutes the list in which the new item sits in slot [i]. *)
Lemma insert_cons_Permutation {A} (l : list A) j x y :
  l !! j = Some y → y :: <[j:=x]> l ≡ₚ x :: l.
Proof.
  revert j. induction l as [|a l IH]; intros [|j] Hj; simplify_eq/=.
  - apply perm_swap.
  - rewrite (perm_swap a y), (IH _ Hj). apply perm_swap.
Qed.

Lemma insert_insert_Permutation {A} (l : list A) i j x y :
  i ≠ j → i < length l → l !! j = Some y →
  <[j:=x]> (<[i:=y]> l) ≡ₚ <[i:=x]> l.
Proof.
  revert i j. induction l as [|a l IH]; intros [|i] [|j] Hij Hi Hj;
    simplify_eq/=; try lia.
  - by apply insert_cons_Permutation.
  - rewrite <- (insert_cons_Permutation (<[i:=y]> l) i x y).
    + by rewrite list_insert_insert_eq.
    + apply list_lookup_insert_eq. lia.
  - f_equiv. apply IH; [congruence|lia|done].
Qed.

(** ** heapq keeps a heap *)
Section heap_proofs.
Context {Item : Type} (item_lt : Item → Item → result bool).
Local Abbreviation entry := (@PriorityQueue.entry Item).
Local Abbreviation cnt := PriorityQueue.entry_count.
Local Abbreviation elt := (PriorityQueue.entry_lt item_lt).
Implicit Types (h orig : list entry) (x y new : entry).

Lemma key_le_refl x : key_le x x.
Proof. unfold key_le. lia. Qed.

Lemma key_le_trans x y z : key_le x y → key_le y z → key_le x z.
Proof. unfold key_le. lia. Qed.

Lemma key_lt_le x y : key_lt x y → key_le x y.
Proof. unfold key_lt, key_le. lia. Qed.

Lemma not_key_lt_le x y : ¬ key_lt x y → key_le y x.
Proof. unfold key_lt, key_le. lia. Qed.

(** With distinct sequence numbers the tuple comparison is decided by
    the [(priority, count)] prefix and never looks at the payloads. *)
Lemma entry_lt_distinct x y :
  cnt x ≠ cnt y → elt x y = Ok (bool_decide (key_lt x y)).
Proof.
  intros Hne. unfold PriorityQueue.entry_lt, key_lt.
  repeat case_decide; try done; f_equal; apply bool_decide_ext; lia.
Qed.

Lemma parent_is_child pos : 0 < pos → is_child ((pos - 1) `div` 2) pos.
Proof.
  intros Hpos. unfold is_child.
  pose proof (Nat.div_mod_eq (pos - 1) 2) as Hd.
  pose proof (Nat.mod_upper_bound (pos - 1) 2) as Hm. lia.
Qed.

Lemma is_child_lt p c : is_child p c → p < c.
Proof. unfold is_child. lia. Qed.

Lemma is_child_inj p p' c : is_child p c → is_child p' c → p = p'.
Proof. unfold is_child. lia. Qed.

Lemma heap_hole_insert h pos x :
  heap_hole h pos → heap_hole (<[pos:=x]> h) pos.
Proof.
  intros [H1 H2]. split.
  - intros p c a b Hc Hp Hcp.
    rewrite !list_lookup_insert_ne by done. eauto.
  - intros p c a b Hp Hc.
    apply is_child_lt in Hp as Hp'. apply is_child_lt in Hc as Hc'.
    rewrite !list_lookup_insert_ne by lia. eauto.
Qed.

Lemma hole_inv_distinct orig h pos new i j x y :
  NoDup (cnt <$> orig) → hole_inv orig h pos new →
  i ≠ j → <[pos:=new]> h !! i = Some x → <[pos:=new]> h !! j = Some y →
  cnt x ≠ cnt y.
Proof.
  intros Hnd (_ & _ & Hperm) Hij Hi Hj Heq.
  rewrite <- Hperm in Hnd. apply Hij.
  eapply (NoDup_lookup _ i j (cnt x) Hnd);
    rewrite list_lookup_fmap; [by rewrite Hi | by rewrite Hj, Heq].
Qed.

(** Writing the item into the hole gives a heap as soon as it fits
    between the parent and the children of the hole. *)
Lemma hole_fill h pos new :
  heap_hole h pos → pos < length h →
  (∀ p y, is_child p pos → h !! p = Some y → key_le y new) →
  (∀ c y, is_child pos c → h !! c = Some y → key_le new y) →
  heap_ok (<[pos:=new]> h).
Proof.
  intros [H1 H2] Hlen Hup Hdown p c x y Hc Hp Hcy.
  apply is_child_lt in Hc as Hlt.
  destruct (decide (p = pos)) as [->|Hp'].
  - rewrite list_lookup_insert_eq in Hp by done.
    rewrite list_lookup_insert_ne in Hcy by lia. simplify_eq. eauto.
  - rewrite list_lookup_insert_ne in Hp by done.
    destruct (decide (c = pos)) as [->|Hc'].
    + rewrite list_lookup_insert_eq in Hcy by done. simplify_eq. eauto.
    + rewrite list_lookup_insert_ne in Hcy by done. eauto.
Qed.

(** One iteration of [_siftdown]: the parent moves into the hole. *)
Lemma hole_move_up h pos pp parent :
  heap_hole h pos → is_child pp pos → h !! pp = Some parent →
  heap_hole (<[pos:=parent]> h) pp.
Proof.
  intros [H1 H2] Hpp Hparent.
  apply is_child_lt in Hpp as Hlt. split.
  - intros p c x y Hc Hp Hcp Hx Hy.
    destruct (decide (c = pos)) as [->|Hc'].
    { destruct Hp. eapply is_child_inj; eauto. }
    rewrite list_lookup_insert_ne in Hy by done.
    destruct (decide (p = pos)) as [->|Hp'].
    + assert (pos < length h) by (apply is_child_lt in Hc;
        apply lookup_lt_Some in Hy; lia).
      rewrite list_lookup_insert_eq in Hx by done. simplify_eq. eauto.
    + rewrite list_lookup_insert_ne in Hx by done. eauto.
  - intros p c x y Hp Hc Hx Hy.
    apply is_child_lt in Hp as Hlt'.
    rewrite list_lookup_insert_ne in Hx by lia.
    assert (key_le x parent) by (eapply (H1 p pp); eauto; lia).
    destruct (decide (c = pos)) as [->|Hc'].
    + assert (pos < length h) by (apply lookup_lt_Some in Hy;
        by rewrite length_insert in Hy).
      rewrite list_lookup_insert_eq in Hy by done. by simplify_eq.
    + rewrite list_lookup_insert_ne in Hy by done.
      eapply key_le_trans; [done|]. eapply (H1 pp c); eauto; lia.
Qed.

(** One iteration of [_siftup]: the smaller child moves into the hole. *)
Lemma hole_move_down h pos c child :
  heap_hole h pos → is_child pos c → h !! c = Some child →
  (∀ s z, is_child pos s → h !! s = Some z → key_le child z) →
  heap_hole (<[pos:=child]> h) c.
Proof.
  intros [H1 H2] Hc Hchild Hmin.
  apply is_child_lt in Hc as Hlt.
  assert (pos < length h) by (apply lookup_lt_Some in Hchild; lia).
  split.
  - intros p d x y Hd Hp Hdc Hx Hy.
    destruct (decide (d = pos)) as [->|Hd'].
    + rewrite list_lookup_insert_eq in Hy by done.
      apply is_child_lt in Hd as ?.
      rewrite list_lookup_insert_ne in Hx by lia. simplify_eq. eauto.
    + rewrite list_lookup_insert_ne in Hy by done.
      destruct (decide (p = pos)) as [->|Hp'].
      * rewrite list_lookup_insert_eq in Hx by done. simplify_eq. eauto.
      * rewrite list_lookup_insert_ne in Hx by done. eauto.
  - intros p d x y Hp Hd Hx Hy.
    assert (p = pos) as -> by (eapply is_child_inj; eauto).
    apply is_child_lt in Hd as ?.
    rewrite list_lookup_insert_eq in Hx by done.
    rewrite list_lookup_insert_ne in Hy by lia. simplify_eq.
    eapply (H1 c d); eauto; lia.
Qed.

Lemma siftdown_loop_spec orig fuel h pos new :
  NoDup (cnt <$> orig) → pos ≤ fuel → hole_inv orig h pos new →
  (∀ c y, is_child pos c → h !! c = Some y → key_le new y) →
  ∃ h', heapq.siftdown_loop elt fuel h 0 pos new = Ok h' ∧
        heap_ok h' ∧ h' ≡ₚ orig.
Proof.
  intros Hnd. revert h pos.
  induction fuel as [|fuel IH]; intros h pos Hfuel Hinv Hdown;
    pose proof Hinv as (Hlen & Hhole & Hperm); cbn [heapq.siftdown_loop].
  - rewrite decide_False by lia. rewrite list_set_Ok by done.
    eexists; split_and!; [done| |done].
    apply hole_fill; [done..| |done].
    intros p y Hp%is_child_lt. lia.
  - case_decide as Hpos; last first.
    { rewrite list_set_Ok by done. eexists; split_and!; [done| |done].
      apply hole_fill; [done..| |done].
      intros p y Hp%is_child_lt. lia. }
    pose proof (parent_is_child pos Hpos) as Hpp.
    set (pp := (pos - 1) `div` 2) in *.
    apply is_child_lt in Hpp as Hlt.
    destruct (lookup_lt_is_Some_2 h pp) as [parent Hparent]; [lia|].
    rewrite (list_get_Ok _ _ _ Hparent). simpl.
    rewrite entry_lt_distinct; last first.
    { eapply (hole_inv_distinct orig h pos new pos pp); eauto; [lia|..].
      - by apply list_lookup_insert_eq.
      - by rewrite list_lookup_insert_ne by lia. }
    simpl. case_bool_decide as Hcmp.
    + rewrite list_set_Ok by done. simpl.
      apply IH; [lia| |].
      * split_and!; [rewrite length_insert; lia| |].
        -- by eapply hole_move_up.
        -- rewrite insert_insert_Permutation; [done|lia|done|done].
      * intros c y Hc Hy. destruct (decide (c = pos)) as [->|Hc'].
        -- rewrite list_lookup_insert_eq in Hy by done. simplify_eq.
           by apply key_lt_le.
        -- rewrite list_lookup_insert_ne in Hy by done.
           eapply key_le_trans; [by apply key_lt_le|].
           destruct Hhole as [H1 _]. eapply (H1 pp c); eauto; lia.
    + rewrite list_set_Ok by done. eexists; split_and!; [done| |done].
      apply hole_fill; [done..| |done].
      intros p y Hp Hy.
      assert (p = pp) as -> by (eapply is_child_inj; eauto).
      simplify_eq. by apply not_key_lt_le.
Qed.

Lemma siftup_loop_spec orig fuel h pos new :
  NoDup (cnt <$> orig) → length h - pos ≤ fuel → hole_inv orig h pos new →
  ∃ h' pos', heapq.siftup_loop elt fuel h (length h) pos = Ok (h', pos') ∧
             hole_inv orig h' pos' new ∧ length h' ≤ 2 * pos' + 1.
Proof.
  intros Hnd. revert h pos.
  induction fuel as [|fuel IH]; intros h pos Hfuel Hinv;
    pose proof Hinv as (Hlen & Hhole & Hperm); cbn [heapq.siftup_loop].
  - rewrite decide_False by lia. eexists _, _. split_and!; [done..|lia].
  - case_decide as Hleft; last first.
    { eexists _, _. split_and!; [done..|lia]. }
    assert (∃ c child,
      (if decide (2 * pos + 1 + 1 < length h)
       then l ← list_get h (2 * pos + 1);
            r ← list_get h (2 * pos + 1 + 1);
            b ← elt l r;
            mret (if (b : bool) then 2 * pos + 1 else 2 * pos + 1 + 1)
       else mret (2 * pos + 1)) = Ok c ∧
      is_child pos c ∧ h !! c = Some child ∧
      ∀ s z, is_child pos s → h !! s = Some z → key_le child z)
      as (c & child & -> & Hc & Hchild & Hmin).
    { destruct (lookup_lt_is_Some_2 h (2 * pos + 1)) as [l Hl]; [lia|].
      case_decide as Hright.
      - destruct (lookup_lt_is_Some_2 h (2 * pos + 1 + 1)) as [r Hr]; [lia|].
        rewrite (list_get_Ok _ _ _ Hl), (list_get_Ok _ _ _ Hr). simpl.
        rewrite entry_lt_distinct; last first.
        { eapply (hole_inv_distinct orig h pos new
                    (2 * pos + 1) (2 * pos + 1 + 1)); eauto; [lia|..];
            by rewrite list_lookup_insert_ne by lia. }
        simpl. case_bool_decide as Hcmp.
        + exists (2 * pos + 1), l. split_and!; [done|left; lia|done|].
          intros s z [->| ->] Hz; simplify_eq; [apply key_le_refl|].
          replace (2 * pos + 2) with (2 * pos + 1 + 1) in Hz by lia.
          simplify_eq. by apply key_lt_le.
        + exists (2 * pos + 1 + 1), r.
          split_and!; [done|right; lia|done|].
          intros s z [->| ->] Hz; simplify_eq; [by apply not_key_lt_le|].
          replace (2 * pos + 2) with (2 * pos + 1 + 1) in Hz by lia.
          simplify_eq. apply key_le_refl.
      - exists (2 * pos + 1), l. split_and!; [done|left; lia|done|].
        intros s z [->| ->] Hz; simplify_eq; [apply key_le_refl|].
        apply lookup_lt_Some in Hz. lia. }
    simpl. rewrite (list_get_Ok _ _ _ Hchild). simpl.
    rewrite list_set_Ok by done. simpl.
    apply is_child_lt in Hc as Hlt.
    rewrite <- (length_insert h pos child).
    apply IH.
    + rewrite length_insert. lia.
    + split_and!.
      * rewrite length_insert. by apply lookup_lt_Some in Hchild.
      * by eapply hole_move_down.
      * rewrite insert_insert_Permutation; [done|lia|done|done].
Qed.

Lemma siftup_spec orig h new :
  NoDup (cnt <$> orig) → hole_inv orig h 0 new → h !! 0 = Some new →
  ∃ h', heapq._siftup elt h 0 = Ok h' ∧ heap_ok h' ∧ h' ≡ₚ orig.
Proof.
  intros Hnd Hinv Hnew. unfold heapq._siftup.
  rewrite (list_get_Ok _ _ _ Hnew). simpl.
  destruct (siftup_loop_spec orig (length h) h 0 new)
    as (h1 & pos1 & -> & (Hlen1 & Hhole1 & Hperm1) & Hleaf); [done|lia|done|].
  simpl. rewrite list_set_Ok by done. simpl.
  unfold heapq._siftdown.
  rewrite (list_get_Ok _ _ new) by by apply list_lookup_insert_eq.
  simpl. apply siftdown_loop_spec; [done|lia| |].
  - split_and!.
    + by rewrite length_insert.
    + by apply heap_hole_insert.
    + by rewrite list_insert_insert_eq.
  - intros c y Hc Hy%lookup_lt_Some.
    rewrite length_insert in Hy. unfold is_child in Hc. lia.
Qed.

Lemma heappush_spec h e :
  heap_ok h → NoDup (cnt <$> (h ++ [e])) →
  ∃ h', heapq.heappush elt h e = Ok h' ∧ heap_ok h' ∧ h' ≡ₚ e :: h.
Proof.
  intros Hheap Hnd. unfold heapq.heappush, heapq._siftdown.
  rewrite length_app. simpl.
  replace (length h + 1 - 1) with (length h) by lia.
  assert ((h ++ [e]) !! length h = Some e) as Hlast.
  { rewrite lookup_app_r by lia. by rewrite Nat.sub_diag. }
  rewrite (list_get_Ok _ _ _ Hlast). simpl.
  destruct (siftdown_loop_spec (h ++ [e]) (length h) (h ++ [e])
              (length h) e) as (h' & -> & Hok & Hperm); [done|lia| | |].
  - split_and!.
    + rewrite length_app. simpl. lia.
    + split.
      * intros p c x y Hc Hp Hcp Hx Hy.
        apply lookup_lt_Some in Hx as Hx', Hy as Hy'.
        rewrite length_app in Hx', Hy'. simpl in *.
        rewrite lookup_app_l in Hx, Hy by lia. eauto.
      * intros p c x y _ Hc%is_child_lt _ Hy%lookup_lt_Some.
        rewrite length_app in Hy. simpl in *. lia.
    + by rewrite list_insert_id.
  - intros c y Hc%is_child_lt Hy%lookup_lt_Some.
    rewrite length_app in Hy. simpl in *. lia.
  - eexists; split_and!; [done..|].
    rewrite Hperm. by rewrite Permutation_app_comm.
Qed.

(** The root of a heap is a least entry. *)
Lemma heap_ok_root_min h r i x :
  heap_ok h → h !! 0 = Some r → h !! i = Some x → key_le r x.
Proof.
  intros Hheap Hr. revert x.
  induction (lt_wf i) as [i _ IH]; intros x Hx.
  destruct (decide (i = 0)) as [->|Hi].
  { simplify_eq. apply key_le_refl. }
  pose proof (parent_is_child i) as Hp. specialize (Hp ltac:(lia)).
  apply is_child_lt in Hp as Hlt.
  destruct (lookup_lt_is_Some_2 h ((i - 1) `div` 2)) as [y Hy].
  { apply lookup_lt_Some in Hx. lia. }
  eapply key_le_trans; [by eapply IH|]. by eapply Hheap.
Qed.

Lemma heappop_spec h :
  heap_ok h → NoDup (cnt <$> h) → h ≠ [] →
  ∃ e h', heapq.heappop elt h = Ok (e, h') ∧ h ≡ₚ e :: h' ∧ heap_ok h' ∧
          ∀ x, x ∈ h → key_le e x.
Proof.
  intros Hheap Hnd Hne. unfold heapq.heappop.
  destruct (exists_last Hne) as (h0 & lastelt & ->).
  rewrite list_pop_snoc. simpl.
  assert (∀ r t, (r :: t) ++ [lastelt] ≡ₚ r :: lastelt :: t) as Hsnoc.
  { intros r t. simpl. f_equiv. by rewrite <- Permutation_cons_append. }
  destruct h0 as [|r t]; simpl.
  - eexists _, _. split_and!; [done|done| |].
    + intros p c x y _ Hp. by rewrite lookup_nil in Hp.
    + intros x ->%list_elem_of_singleton. apply key_le_refl.
  - destruct (siftup_spec (lastelt :: t) (lastelt :: t) lastelt)
      as (h' & Hup & Hok & Hperm); [| |done|].
    + rewrite Hsnoc, fmap_cons in Hnd. by apply NoDup_cons in Hnd as [_ ?].
    + split_and!; [simpl; lia| |done]. split.
      * intros p c x y Hc Hp Hcp Hx Hy.
        destruct p as [|p], c as [|c]; try done. simpl in Hx, Hy.
        eapply (Hheap (S p) (S c)); [done|..]; simpl;
          by apply lookup_app_l_Some.
      * intros p c x y Hp%is_child_lt. lia.
    + unfold list_get, list_set. simpl.
      replace (heapq._siftup elt (lastelt :: t) 0) with (Ok (A:=list entry) h').
      simpl. eexists _, _. split_and!; [done| |done|].
      * by rewrite Hperm, <- Hsnoc.
      * intros x [i Hi]%list_elem_of_lookup.
        by eapply (heap_ok_root_min ((r :: t) ++ [lastelt]) r i).
Qed.
End heap_proofs.

(** ** PriorityQueue *)
Section pq_proofs.
Context {Item : Type} (item_lt : Item → Item → result bool).
Local Abbreviation entry := (@PriorityQueue.entry Item).
Local Abbreviation cnt := PriorityQueue.entry_count.
Implicit Types (q : @PriorityQueue.t Item).

Lemma pq_wf_init : pq_wf (@PriorityQueue.init Item).
Proof.
  split_and!; simpl.
  - intros p c x y _ Hx. by rewrite lookup_nil in Hx.
  - constructor.
  - intros e He. by apply elem_of_nil in He.
Qed.

Lemma pq_isEmpty_heap q :
  PriorityQueue.isEmpty q = true ↔ PriorityQueue.heap q = [].
Proof.
  unfold PriorityQueue.isEmpty. rewrite bool_decide_eq_true.
  apply length_zero_iff_nil.
Qed.

Lemma pq_push_spec q x p :
  pq_wf q →
  ∃ q', PriorityQueue.push item_lt q x p = Ok q' ∧ pq_wf q' ∧
        PriorityQueue.heap q' ≡ₚ
          (p, PriorityQueue.count q, x) :: PriorityQueue.heap q ∧
        PriorityQueue.count q' = PriorityQueue.count q + 1.
Proof.
  intros (Hheap & Hnd & Hlt). unfold PriorityQueue.push.
  assert (NoDup (cnt <$> (p, PriorityQueue.count q, x)
                           :: PriorityQueue.heap q)) as Hnd'.
  { rewrite fmap_cons. apply NoDup_cons. split; [|done].
    intros (e & Heq & He%Hlt)%list_elem_of_fmap.
    unfold PriorityQueue.entry_count in *. simpl in Heq. lia. }
  destruct (heappush_spec item_lt (PriorityQueue.heap q)
              (p, PriorityQueue.count q, x)) as (h' & -> & Hok & Hperm).
  { done. }
  { eapply NoDup_Permutation_proper; [|exact Hnd'].
    apply fmap_Permutation. by rewrite <- Permutation_cons_append. }
  simpl. eexists. split_and!; [done| |done|done].
  split_and!; simpl; [done|by rewrite Hperm|].
  intros e. rewrite Hperm.
  intros [->|He%Hlt]%elem_of_cons; unfold PriorityQueue.entry_count in *;
    simpl; lia.
Qed.

Lemma pq_pop_spec q :
  pq_wf q → PriorityQueue.isEmpty q = false →
  ∃ e q', PriorityQueue.pop item_lt q = Ok (PriorityQueue.entry_item e, q') ∧
          PriorityQueue.heap q ≡ₚ e :: PriorityQueue.heap q' ∧ pq_wf q' ∧
          PriorityQueue.count q' = PriorityQueue.count q ∧
          ∀ y, y ∈ PriorityQueue.heap q → key_le e y.
Proof.
  intros (Hheap & Hnd & Hlt) Hne. unfold PriorityQueue.pop.
  destruct (heappop_spec item_lt (PriorityQueue.heap q))
    as (e & h' & -> & Hperm & Hok & Hmin); [done|done| |].
  { intros Hnil%pq_isEmpty_heap. congruence. }
  simpl. exists e. eexists. split_and!; [done|done| |done|done].
  rewrite Hperm, fmap_cons in Hnd.
  apply NoDup_cons in Hnd as [_ Hnd].
  split_and!; simpl; [done..|].
  intros y Hy. apply Hlt. rewrite Hperm. by right.
Qed.

Lemma pq_pop_empty q :
  PriorityQueue.isEmpty q = true →
  PriorityQueue.pop item_lt q = Raise IndexError.
Proof.
  intros Hnil%pq_isEmpty_heap. unfold PriorityQueue.pop, heapq.heappop.
  by rewrite Hnil.
Qed.

Lemma pq_reachable_wf q : pq_reachable item_lt q → pq_wf q.
Proof.
  induction 1 as [|q x p q' _ IH Hpush|q x q' _ IH Hpop].
  - apply pq_wf_init.
  - destruct (pq_push_spec q x p IH) as (q'' & Hq'' & ? & _).
    rewrite Hpush in Hq''. by simplify_eq.
  - destruct (PriorityQueue.isEmpty q) eqn:Hne.
    { rewrite pq_pop_empty in Hpop by done. discriminate. }
    destruct (pq_pop_spec q IH Hne) as (e & q'' & Hq'' & _ & ? & _).
    rewrite Hpop in Hq''. by simplify_eq.
Qed.

(** After pushing a list of items, the heap holds one entry per
    item, numbered in the order of the pushes. *)
Lemma push_all_spec (l : list (Item * Z)) q :
  pq_wf q →
  ∃ q', push_all item_lt l q = Ok q' ∧ pq_wf q' ∧
        PriorityQueue.heap q' ≡ₚ
          imap (λ i ip, (ip.2, PriorityQueue.count q + i, ip.1)) l
            ++ PriorityQueue.heap q.
Proof.
  revert q. induction l as [|[x p] l IH]; intros q Hwf; simpl.
  { by exists q. }
  unfold push_all. simpl.
  destruct (pq_push_spec q x p Hwf) as (q1 & -> & Hwf1 & Hperm1 & Hcnt1).
  simpl. destruct (IH q1 Hwf1) as (q' & Hq' & Hwf' & Hperm').
  exists q'. split_and!; [done..|].
  rewrite Hperm', Hperm1, Hcnt1, Nat.add_0_r.
  rewrite <- Permutation_middle. f_equiv. f_equiv.
  erewrite imap_ext; [done|]. intros i [y r] _. simpl. do 2 f_equal. lia.
Qed.
End pq_proofs.

(** ** Loops *)

Lemma for_each_ext {A S} (l : list A) (f g : S → A → result S) s :
  (∀ s x, f s x = g s x) → for_each l f s = for_each l g s.
Proof.
  intros Hfg. revert s. induction l as [|x l IH]; intros s; simpl; [done|].
  rewrite Hfg. destruct (g s x); simpl; auto.
Qed.

Lemma while_loop_ext {C R} cond (body body' : C → result (C + R)) on_exit fuel c :
  (∀ c, body c = body' c) →
  while_loop cond body on_exit fuel c = while_loop cond body' on_exit fuel c.
Proof.
  intros Hb. revert c. induction fuel as [|fuel IH]; intros c; simpl; [done|].
  destruct (cond c); [|done]. rewrite Hb.
  destruct (body' c) as [[c'|r]| |]; simpl; auto.
Qed.

Lemma while_loop_S {C R} cond (body : C → result (C + R)) on_exit fuel c :
  while_loop cond body on_exit (S fuel) c =
  if cond c then
    r ← body c;
    match r with
    | inl c => while_loop cond body on_exit fuel c
    | inr r => mret r
    end
  else mret on_exit.
Proof. done. Qed.

(** Invariant rule: if the body maintains [I] and never raises, the loop
    ends in a result satisfying [Post], unless it is cut off. *)
Lemma while_loop_inv {C R} cond (body : C → result (C + R)) on_exit
    (I : C → Prop) (Post : R → Prop) :
  (∀ c, I c → cond c = false → Post on_exit) →
  (∀ c, I c → cond c = true →
        ∃ r, body c = Ok r ∧
             match r with inl c' => I c' | inr x => Post x end) →
  ∀ fuel c, I c →
    while_loop cond body on_exit fuel c = OutOfFuel ∨
    ∃ x, while_loop cond body on_exit fuel c = Ok x ∧ Post x.
Proof.
  intros Hexit Hbody fuel.
  induction fuel as [|fuel IH]; intros c HI; simpl;
    destruct (cond c) eqn:Hc; eauto.
  destruct (Hbody c HI Hc) as (r & -> & Hr). simpl.
  destruct r as [c'|x]; eauto.
Qed.

(** Variant rule: if every iteration decreases [mu], more fuel than
    [mu] is never used up. *)
Lemma while_loop_fuel {C R} cond (body : C → result (C + R)) on_exit
    (I : C → Prop) (mu : C → nat) :
  (∀ c, I c → cond c = true →
        ∃ r, body c = Ok r ∧
             match r with inl c' => I c' ∧ mu c' < mu c | inr x => True end) →
  ∀ fuel c, I c → mu c < fuel →
    ∃ x, while_loop cond body on_exit fuel c = Ok x.
Proof.
  intros Hbody fuel.
  induction fuel as [|fuel IH]; intros c HI Hmu; simpl; [lia|].
  destruct (cond c) eqn:Hc; eauto.
  destruct (Hbody c HI Hc) as (r & -> & Hr). simpl.
  destruct r as [c'|x]; [|eauto]. destruct Hr. apply IH; [done|lia].
Qed.

(** More fuel does not change a result that was reached. *)
Lemma while_loop_more_fuel {C R} cond (body : C → result (C + R)) on_exit
    fuel fuel' c x :
  while_loop cond body on_exit fuel c = Ok x → fuel ≤ fuel' →
  while_loop cond body on_exit fuel' c = Ok x.
Proof.
  revert fuel' c. induction fuel as [|fuel IH]; intros fuel' c; simpl.
  - destruct (cond c) eqn:Hc; [done|]. intros <- _.
    destruct fuel'; simpl; by rewrite Hc.
  - destruct (cond c) eqn:Hc.
    + intros Hrun Hle. destruct fuel' as [|fuel']; [lia|]. simpl. rewrite Hc.
      destruct (body c) as [[c'|r]| |]; simpl in *; try done.
      apply IH; [done|lia].
    + intros <- _. destruct fuel'; simpl; by rewrite Hc.
Qed.

(** ** Walks *)
Section walk_proofs.
Context {State Action : Type} (problem : Problem State Action).
Local Abbreviation edge := (State * Action * Z)%type.
Implicit Types (es : list edge) (wt : edge → Z).

Lemma weight_app wt es1 es2 :
  weight wt (es1 ++ es2) = (weight wt es1 + weight wt es2)%Z.
Proof. induction es1 as [|e es1 IH]; simpl; lia. Qed.

Lemma weight_snoc wt es e : weight wt (es ++ [e]) = (weight wt es + wt e)%Z.
Proof. rewrite weight_app. simpl. lia. Qed.

Lemma weight_unit es : weight (λ _, 1%Z) es = Z.of_nat (length es).
Proof. induction es as [|e es IH]; simpl; lia. Qed.

Lemma actions_length es : length (actions es) = length es.
Proof. apply length_fmap. Qed.

Lemma walk_app s es1 u es2 t :
  walk problem s es1 u → walk problem u es2 t → walk problem s (es1 ++ es2) t.
Proof.
  intros H1 H2. induction H2 as [|es2 v e H2 IH He].
  - by rewrite app_nil_r.
  - rewrite app_assoc. by econstructor.
Qed.

Lemma walk_cons s e es t :
  e ∈ getSuccessors s → walk problem (edge_target e) es t →
  walk problem s (e :: es) t.
Proof.
  intros He Hw. apply (walk_app s [e] (edge_target e)); [|done].
  apply (walk_snoc problem s [] s); [constructor|done].
Qed.

(** Along a walk a consistent heuristic drops by at most the weight. *)
Lemma consistent_walk wt h s es t :
  consistent problem wt h → walk problem s es t →
  (h s ≤ weight wt es + h t)%Z.
Proof.
  intros Hc Hw. induction Hw as [|es u e Hw IH He]; simpl; [lia|].
  rewrite weight_snoc. specialize (Hc u e He). lia.
Qed.
End walk_proofs.

(** ** The shared loop *)
Section generic_proofs.
Context {State Action : Type} `{Countable State}.
Context (problem : Problem State Action).
Context {F Node : Type} `{!Fringe F Node, !SearchNode State Action Node}.
Context (node_start : Node) `{!FringeSpec problem node_start}.
Implicit Types (f : F) (n m : Node) (visited : gset State)
  (closed : list Node) (c : F * gset State).

Local Abbreviation body := (search_body problem).
Local Abbreviation inv := (search_inv problem node_start).

Lemma node_ok_extend n e :
  node_ok problem n → e ∈ getSuccessors (node_state n) →
  node_ok problem (node_extend n e).
Proof.
  intros (es & Hw & Ha & Hg) He. exists (es ++ [e]).
  rewrite node_extend_state, node_extend_path, node_extend_g.
  split_and!.
  - by econstructor.
  - unfold actions in *. by rewrite fmap_app, Ha.
  - by rewrite weight_snoc, Hg.
Qed.

(** The [for] loop over the successors pushes the children. *)
Lemma expand_spec n visited l f :
  wfa n f → (∀ e, e ∈ l → e ∈ getSuccessors (node_state n)) →
  ∃ f', for_each l
          (λ fringe e,
             if decide (edge_target e ∈ visited) then mret fringe
             else fringe_push fringe (node_extend n e)) f = Ok f' ∧
        wfa n f' ∧
        elems f' ≡ₚ
          (node_extend n <$> filter (λ e, edge_target e ∉ visited) l)
            ++ elems f.
Proof.
  revert f. induction l as [|e l IH]; intros f Hwf Hl; simpl.
  { by exists f. }
  case_decide as Hv.
  - simpl. rewrite filter_cons_False by tauto.
    apply IH; [done|]. intros e' ?. apply Hl. by right.
  - destruct (push_spec n f e) as (f1 & -> & Hperm1 & Hwf1);
      [done|apply Hl; by left|].
    simpl. rewrite filter_cons_True by done.
    destruct (IH f1) as (f' & -> & Hwf' & Hperm'); [done| |].
    { intros e' ?. apply Hl. by right. }
    exists f'. split_and!; [done..|].
    rewrite Hperm', Hperm1. simpl. by rewrite Permutation_middle.
Qed.

(** What one iteration does, by cases on the node it pops. *)
Lemma body_cases closed f visited :
  inv closed (f, visited) → fringe_isEmpty f = false →
  ∃ n f1, fringe_pop f = Ok (n, f1) ∧ elems f ≡ₚ n :: elems f1 ∧
    if decide (node_state n ∈ visited) then
      body (f, visited) = Ok (inl (f1, visited)) ∧ inv closed (f1, visited)
    else if isGoalState (node_state n) then
      body (f, visited) = Ok (inr (Some (node_path n)))
    else
      ∃ f2, body (f, visited)
              = Ok (inl (f2, {[node_state n]} ∪ visited)) ∧
            inv (n :: closed) (f2, {[node_state n]} ∪ visited) ∧
            elems f2 ≡ₚ
              children problem n ({[node_state n]} ∪ visited) ++ elems f1.
Proof.
  intros [Hwf Hvis Hfr Hcl Hst] Hne. simpl in *.
  destruct (pop_spec f Hwf Hne) as (n & f1 & Hpop & Hperm & Hwfa).
  exists n, f1. split_and!; [done..|].
  assert (∀ m, m ∈ elems f → m = n ∨ m ∈ elems f1) as Hsplit.
  { intros m. rewrite Hperm. by intros [->|?]%elem_of_cons; [left|right]. }
  assert (∀ m, m ∈ elems f1 → m ∈ elems f) as Hsub.
  { intros m ?. rewrite Hperm. by right. }
  unfold search_body. rewrite Hpop. simpl.
  case_decide as Hin; [|destruct (isGoalState (node_state n)) eqn:Hgoal].
  - split; [done|]. split; simpl; [by eapply wfa_wf|done|by auto| |].
    + intros n' Hn'. destruct (Hcl n' Hn') as (? & ? & Hsucc).
      split_and!; [done..|]. intros e He.
      destruct (Hsucc e He) as [?|[Heq|?]%Hsplit]; auto.
      left. by rewrite <- (node_extend_state n' e), Heq.
    + destruct Hst as [?|[Heq|?]%Hsplit]; auto.
      left. by rewrite <- node_start_state, Heq.
  - done.
  - destruct (expand_spec n ({[node_state n]} ∪ visited)
                (getSuccessors (node_state n)) f1)
      as (f2 & -> & Hwf2 & Hperm2); [done|done|].
    simpl. exists f2. split_and!; [done| |done].
    assert (∀ m, m ∈ elems f1 → m ∈ elems f2) as Hsub2.
    { intros m ?. rewrite Hperm2. apply elem_of_app. by right. }
    split; simpl.
    + by eapply wfa_wf.
    + intros s. rewrite elem_of_cons, elem_of_union, elem_of_singleton.
      by rewrite Hvis.
    + intros m. rewrite Hperm2, elem_of_app.
      intros [(e & -> & [_ He]%list_elem_of_filter)%list_elem_of_fmap|?];
        [|by auto].
      apply node_ok_extend; [|done]. apply Hfr. rewrite Hperm. by left.
    + intros n' [->|Hn']%elem_of_cons.
      * split_and!; [apply Hfr; rewrite Hperm; by left|done|].
        intros e He.
        destruct (decide (edge_target e ∈ {[node_state n]} ∪ visited));
          [by left|right].
        rewrite Hperm2. apply elem_of_app. left.
        apply list_elem_of_fmap. exists e. split; [done|].
        by apply list_elem_of_filter.
      * destruct (Hcl n' Hn') as (? & ? & Hsucc).
        split_and!; [done..|]. intros e He.
        destruct (Hsucc e He) as [?|[Heq|?]%Hsplit]; auto.
        -- left. apply elem_of_union. by right.
        -- left. rewrite <- (node_extend_state n' e), Heq.
           apply elem_of_union. left. by apply elem_of_singleton.
    + destruct Hst as [?|[Heq|?]%Hsplit]; auto.
      * left. apply elem_of_union. by right.
      * left. rewrite <- node_start_state, Heq.
        apply elem_of_union. left. by apply elem_of_singleton.
Qed.

(** The invariant holds when the loop is entered. *)
Lemma inv_init f0 :
  elems f0 = [node_start] → wf f0 → inv [] (f0, ∅).
Proof.
  intros Hel Hwf. split; simpl; [done|set_solver| |set_solver|].
  - rewrite Hel. intros n ->%list_elem_of_singleton. exists [].
    rewrite node_start_state, node_start_path, node_start_g.
    split_and!; [constructor|done..].
  - right. rewrite Hel. by left.
Qed.

Lemma inv_visited_closed closed c s :
  inv closed c → s ∈ c.2 → ∃ n, n ∈ closed ∧ node_state n = s.
Proof.
  intros Hinv Hs. apply (inv_visited _ _ _ _ Hinv) in Hs.
  apply list_elem_of_fmap in Hs as (n & -> & ?). eauto.
Qed.

Lemma inv_visited_reachable closed c s :
  inv closed c → s ∈ c.2 → reachable problem s ∧ isGoalState s = false.
Proof.
  intros Hinv (n & Hn & <-)%(inv_visited_closed closed).
  - destruct (inv_closed_ok _ _ _ _ Hinv n Hn) as ((es & ? & _) & ? & _).
    split; [by exists es|done].
  - done.
Qed.

(** When the fringe is empty every reachable state has been visited. *)
Lemma inv_exhausted closed c s :
  inv closed c → elems c.1 = [] → reachable problem s → s ∈ c.2.
Proof.
  intros Hinv Hempty [es Hw].
  induction Hw as [|es u e Hw IH He].
  - destruct (inv_start _ _ _ _ Hinv) as [?|Hin]; [done|].
    rewrite Hempty in Hin. by apply elem_of_nil in Hin.
  - destruct (inv_visited_closed closed c u Hinv IH) as (n & Hn & <-).
    destruct (inv_closed_ok _ _ _ _ Hinv n Hn) as (_ & _ & Hsucc).
    destruct (Hsucc e He) as [?|Hin]; [done|].
    rewrite Hempty in Hin. by apply elem_of_nil in Hin.
Qed.

(** *** Soundness of the answers *)
Lemma body_sound c :
  (∃ closed, inv closed c) → search_cond c = true →
  ∃ r, body c = Ok r ∧
       match r with
       | inl c' => ∃ closed, inv closed c'
       | inr x => answer_ok problem x
       end.
Proof.
  intros [closed Hinv] Hne. destruct c as [f visited].
  apply negb_true_iff in Hne.
  destruct (body_cases closed f visited Hinv Hne)
    as (n & f1 & Hpop & Hperm & Hcases).
  case_decide; [|destruct (isGoalState (node_state n)) eqn:Hgoal].
  - destruct Hcases as [-> ?]. eexists; split; [done|]. simpl. eauto.
  - rewrite Hcases. eexists; split; [done|]. simpl.
    destruct (inv_fringe_ok _ _ _ _ Hinv n) as (es & Hw & Ha & _).
    { simpl. rewrite Hperm. by left. }
    exists es. split; [|done]. by exists (node_state n).
  - destruct Hcases as (f2 & -> & ? & _).
    eexists; split; [done|]. simpl. eauto.
Qed.

Lemma exit_sound c :
  (∃ closed, inv closed c) → search_cond c = false → answer_ok problem None.
Proof.
  intros [closed Hinv] Hempty (es & t & Hw & Hgoal).
  apply negb_false_iff, isEmpty_spec in Hempty.
  assert (t ∈ c.2) as Ht by (eapply inv_exhausted; [done..|by exists es]).
  destruct (inv_visited_reachable closed c t Hinv Ht). congruence.
Qed.

Lemma search_sound fuel :
  search problem node_start fuel = OutOfFuel ∨
  ∃ r, search problem node_start fuel = Ok r ∧ answer_ok problem r.
Proof.
  unfold search. destruct init_spec as (f0 & -> & Hel & Hwf). simpl.
  apply (while_loop_inv _ _ _ (λ c, ∃ closed, inv closed c) (answer_ok problem)).
  - apply exit_sound.
  - apply body_sound.
  - exists []. by apply inv_init.
Qed.

(** *** Termination *)
Lemma visit_cost_mono visited s r :
  visit_cost problem ({[s]} ∪ visited) r ≤ visit_cost problem visited r.
Proof.
  unfold visit_cost. repeat case_decide; try lia.
  exfalso. match goal with Hn : _ ∉ _ ∪ _ |- _ => apply Hn end.
  apply elem_of_union. by right.
Qed.

Lemma potential_visit (R : list State) visited s :
  sum_list (visit_cost problem ({[s]} ∪ visited) <$> R)
  ≤ sum_list (visit_cost problem visited <$> R).
Proof.
  induction R as [|r R IH]; csimpl; [done|].
  pose proof (visit_cost_mono visited s r). lia.
Qed.

Lemma potential_visit_new (R : list State) visited s :
  s ∈ R → s ∉ visited →
  sum_list (visit_cost problem ({[s]} ∪ visited) <$> R)
    + (1 + length (getSuccessors s))
  ≤ sum_list (visit_cost problem visited <$> R).
Proof.
  intros Hin Hnew. induction R as [|r R IH]; csimpl.
  { by apply elem_of_nil in Hin. }
  apply elem_of_cons in Hin as [<-|Hin].
  - pose proof (potential_visit R visited s).
    unfold visit_cost at 1 3.
    rewrite decide_True
      by (apply elem_of_union; left; by apply elem_of_singleton).
    rewrite decide_False by done. lia.
  - specialize (IH Hin). pose proof (visit_cost_mono visited s r). lia.
Qed.

Lemma children_length n visited :
  length (children problem n visited) ≤ length (getSuccessors (node_state n)).
Proof. unfold children. rewrite length_fmap. apply length_filter. Qed.

Lemma body_decreases (R : list State) c :
  (∀ s, reachable problem s → s ∈ R) →
  (∃ closed, inv closed c) → search_cond c = true →
  ∃ r, body c = Ok r ∧
       match r with
       | inl c' => (∃ closed, inv closed c') ∧
                   potential problem node_start R c' < potential problem node_start R c
       | inr x => True
       end.
Proof.
  intros HR [closed Hinv] Hne. destruct c as [f visited].
  apply negb_true_iff in Hne.
  destruct (body_cases closed f visited Hinv Hne)
    as (n & f1 & Hpop & Hperm & Hcases).
  apply Permutation_length in Hperm as Hlen. simpl in Hlen.
  case_decide as Hv; [|destruct (isGoalState (node_state n)) eqn:Hgoal].
  - destruct Hcases as [-> ?]. eexists; split; [done|]. simpl.
    split; [eauto|]. unfold potential. simpl. lia.
  - rewrite Hcases. eexists; split; done.
  - destruct Hcases as (f2 & -> & ? & Hperm2).
    eexists; split; [done|]. simpl. split; [eauto|].
    apply Permutation_length in Hperm2 as Hlen2.
    rewrite length_app in Hlen2.
    pose proof (children_length n ({[node_state n]} ∪ visited)).
    assert (node_state n ∈ R) as HnR.
    { apply HR. destruct (inv_fringe_ok _ _ _ _ Hinv n) as (es & ? & _).
      - simpl. rewrite Hperm. by left.
      - by exists es. }
    pose proof (potential_visit_new R visited (node_state n) HnR Hv).
    unfold potential. simpl. lia.
Qed.

Lemma search_terminates :
  finite_reachable problem →
  ∃ fuel r, search problem node_start fuel = Ok r.
Proof.
  intros [R HR]. unfold search.
  destruct init_spec as (f0 & -> & Hel & Hwf). simpl.
  exists (S (potential problem node_start R (f0, ∅))).
  eapply (while_loop_fuel _ _ _ (λ c, ∃ closed, inv closed c)
            (potential problem node_start R)).
  - intros c. by apply body_decreases.
  - exists []. by apply inv_init.
  - lia.
Qed.

(** *** The start state is a goal *)
Lemma search_start_goal fuel :
  isGoalState getStartState = true →
  search problem node_start (S fuel) = Ok (Some []).
Proof.
  intros Hgoal. unfold search.
  destruct init_spec as (f0 & -> & Hel & Hwf).
  assert (fringe_isEmpty f0 = false) as Hne.
  { apply not_true_is_false. rewrite isEmpty_spec, Hel. done. }
  change (while_loop search_cond body None (S fuel) (f0, ∅) = Ok (Some [])).
  rewrite while_loop_S. unfold search_cond at 1. simpl fst.
  rewrite Hne. simpl negb. cbv iota.
  destruct (body_cases [] f0 ∅ (inv_init f0 Hel Hwf) Hne)
    as (n & f1 & Hpop & Hperm & Hcases).
  assert (n = node_start) as ->.
  { rewrite Hel in Hperm. symmetry in Hperm.
    apply Permutation_singleton_r in Hperm. by simplify_eq. }
  rewrite decide_False in Hcases by set_solver.
  rewrite node_start_state, Hgoal in Hcases.
  rewrite Hcases. simpl. by rewrite node_start_path.
Qed.

(** *** Optimality for fringes that pop a least [g + h] *)
Section optimality.
Context (h : State → Z).
Hypothesis Hmin : pop_min problem node_start
                    (λ n, (node_g n + h (node_state n))%Z).
Hypothesis Hcons : consistent problem edge_wt h.
Hypothesis Hnonneg : ∀ s, (0 ≤ h s)%Z.
Hypothesis Hgoal0 : ∀ s, isGoalState s = true → (h s ≤ 0)%Z.

(** Every walk from the start state either stays within the visited
    states or passes through a node of the fringe that was reached at
    most as expensively as the walk reaches it. *)
Lemma fringe_cover closed c es u :
  inv closed c → closed_optimal problem closed →
  walk problem getStartState es u →
  u ∈ c.2 ∨
  ∃ es1 es2 m, es = es1 ++ es2 ∧ m ∈ elems c.1 ∧
               walk problem (node_state m) es2 u ∧
               (node_g m ≤ weight edge_wt es1)%Z.
Proof.
  intros Hinv Hopt Hw. induction Hw as [|es u e Hw IH He].
  - destruct (inv_start _ _ _ _ Hinv) as [?|Hin]; [by left|right].
    exists [], [], node_start. rewrite node_start_state, node_start_g.
    split_and!; [done|done|constructor|done].
  - destruct IH as [Hu|(es1 & es2 & m & -> & Hm & Hw2 & Hg)].
    + destruct (inv_visited_closed closed c u Hinv Hu) as (n & Hn & <-).
      destruct (inv_closed_ok _ _ _ _ Hinv n Hn) as (_ & _ & Hsucc).
      destruct (Hsucc e He) as [?|Hin]; [by left|right].
      exists (es ++ [e]), [], (node_extend n e).
      rewrite node_extend_state, node_extend_g, weight_snoc, app_nil_r.
      split_and!; [done|done|constructor|].
      specialize (Hopt n es Hn Hw). lia.
    + right. exists es1, (es2 ++ [e]), m.
      rewrite app_assoc. split_and!; [done|done| |done]. by econstructor.
Qed.

Lemma pop_bound closed f visited n f1 es u :
  inv closed (f, visited) → closed_optimal problem closed →
  fringe_pop f = Ok (n, f1) →
  walk problem getStartState es u → u ∉ visited →
  (node_g n + h (node_state n) ≤ weight edge_wt es + h u)%Z.
Proof.
  intros Hinv Hopt Hpop Hw Hu.
  destruct (fringe_cover closed (f, visited) es u Hinv Hopt Hw)
    as [?|(es1 & es2 & m & -> & Hm & Hw2 & Hg)]; [done|].
  pose proof (Hmin f n f1 (inv_wf _ _ _ _ Hinv) Hpop m Hm) as Hle.
  pose proof (consistent_walk problem edge_wt h _ _ _ Hcons Hw2).
  rewrite weight_app. simpl in Hle. lia.
Qed.

Lemma body_optimal c :
  (∃ closed, inv closed c ∧ closed_optimal problem closed) →
  search_cond c = true →
  ∃ r, body c = Ok r ∧
       match r with
       | inl c' => ∃ closed, inv closed c' ∧ closed_optimal problem closed
       | inr x => answer_optimal problem x
       end.
Proof.
  intros (closed & Hinv & Hopt) Hne. destruct c as [f visited].
  apply negb_true_iff in Hne.
  destruct (body_cases closed f visited Hinv Hne)
    as (n & f1 & Hpop & Hperm & Hcases).
  case_decide as Hv; [|destruct (isGoalState (node_state n)) eqn:Hgoal].
  - destruct Hcases as [-> ?]. eexists; split; [done|]. simpl. eauto.
  - rewrite Hcases. eexists; split; [done|]. simpl.
    destruct (inv_fringe_ok _ _ _ _ Hinv n) as (es & Hw & Ha & Hg).
    { simpl. rewrite Hperm. by left. }
    exists es. split_and!; [by exists (node_state n)|done|].
    intros es' (u & Hw' & Hgoal').
    assert (u ∉ visited) as Hu.
    { intros Hu.
      destruct (inv_visited_reachable closed (f, visited) u Hinv Hu).
      congruence. }
    pose proof (pop_bound closed f visited n f1 es' u
                  Hinv Hopt Hpop Hw' Hu).
    specialize (Hgoal0 u Hgoal'). specialize (Hnonneg (node_state n)).
    lia.
  - destruct Hcases as (f2 & -> & Hinv2 & _).
    eexists; split; [done|]. simpl. eexists; split; [done|].
    intros n' es [->|Hn']%elem_of_cons Hw; [|by eapply Hopt].
    pose proof (pop_bound closed f visited n f1 es (node_state n)
                  Hinv Hopt Hpop Hw Hv). lia.
Qed.

Lemma search_optimal fuel p :
  search problem node_start fuel = Ok (Some p) →
  optimal_solution problem edge_wt p.
Proof.
  unfold search. destruct init_spec as (f0 & -> & Hel & Hwf). simpl.
  intros Hrun.
  destruct (while_loop_inv search_cond body None
              (λ c, ∃ closed, inv closed c ∧ closed_optimal problem closed)
              (answer_optimal problem)) with (fuel := fuel) (c := (f0, ∅ : gset State))
    as [Hout|(x & Hx & Hpost)].
  - done.
  - apply body_optimal.
  - exists []. split; [by apply inv_init|].
    intros n es Hn. by apply elem_of_nil in Hn.
  - congruence.
  - rewrite Hrun in Hx. by simplify_eq.
Qed.
End optimality.
End generic_proofs.

(** ** The fringes of the four algorithms meet the requirements *)
Section instance_proofs.
Context {State Action : Type} `{Countable State}.
Context (problem : Problem State Action).
Local Abbreviation pnode := (State * list Action)%type.
Local Abbreviation cnode := (State * list Action * Z)%type.
Local Abbreviation edge := (State * Action * Z)%type.

Lemma pnode_extend_g (n : pnode) (e : edge) :
  Z.of_nat (length (n.2 ++ [edge_action e]))
  = (Z.of_nat (length n.2) + 1)%Z.
Proof. rewrite length_app. simpl. lia. Qed.

(** *** Stack *)
Lemma stack_isEmpty_spec {A} (f : Stack.t A) :
  Stack.isEmpty f = true ↔ Stack.list f = [].
Proof.
  unfold Stack.isEmpty. rewrite bool_decide_eq_true.
  apply length_zero_iff_nil.
Qed.

Lemma stack_pop_empty {A} (f : Stack.t A) :
  Stack.isEmpty f = true → Stack.pop f = Raise IndexError.
Proof. intros Hnil%stack_isEmpty_spec. unfold Stack.pop. by rewrite Hnil. Qed.

Lemma stack_pop_spec {A} (f : Stack.t A) :
  True → Stack.isEmpty f = false →
  ∃ n f', Stack.pop f = Ok (n, f') ∧ Stack.list f ≡ₚ n :: Stack.list f' ∧ True.
Proof.
  intros _ Hne. destruct f as [l]. unfold Stack.pop. simpl.
  destruct (decide (l = [])) as [->|Hl]; [done|].
  destruct (exists_last Hl) as (l' & x & ->).
  rewrite list_pop_snoc. simpl. eexists _, _.
  split_and!; [done| |done]. simpl. by rewrite <- Permutation_cons_append.
Qed.

Lemma stack_push_spec (n : pnode) (f : Stack.t pnode) (e : edge) :
  True → e ∈ getSuccessors n.1 →
  ∃ f', mret (Stack.push f (edge_target e, n.2 ++ [edge_action e])) = Ok f' ∧
        Stack.list f' ≡ₚ (edge_target e, n.2 ++ [edge_action e])
                          :: Stack.list f ∧ True.
Proof.
  intros _ _. eexists. split_and!; [done| |done]. simpl.
  by rewrite <- Permutation_cons_append.
Qed.

Definition stack_spec
    : FringeSpec (Fringe0:=stack_fringe) (SearchNode0:=pnode_ops)
        problem (getStartState, []) :=
  @Build_FringeSpec State Action problem _ _ stack_fringe pnode_ops
    (getStartState, [])
    Stack.list (λ _, True) (λ _ _, True)
    eq_refl eq_refl eq_refl (λ _ _, eq_refl) (λ _ _, eq_refl)
    pnode_extend_g
    (ex_intro _ _ (conj eq_refl (conj eq_refl I)))
    stack_isEmpty_spec stack_pop_spec (λ _ _ _, I) stack_push_spec.

(** *** Queue *)
Lemma queue_isEmpty_spec {A} (f : Queue.t A) :
  Queue.isEmpty f = true ↔ Queue.queue f = [].
Proof.
  unfold Queue.isEmpty. rewrite bool_decide_eq_true.
  apply length_zero_iff_nil.
Qed.

Lemma queue_pop_empty {A} (f : Queue.t A) :
  Queue.isEmpty f = true → Queue.pop f = Raise IndexError.
Proof. intros Hnil%queue_isEmpty_spec. unfold Queue.pop. by rewrite Hnil. Qed.

Lemma queue_wf_init : queue_wf (Queue.mk [(getStartState, [] : list Action)]).
Proof.
  intros i j a b _ Ha Hb. simpl in *.
  apply list_lookup_singleton_Some in Ha as [_ <-].
  apply list_lookup_singleton_Some in Hb as [_ <-]. simpl. lia.
Qed.

Lemma queue_pop_spec (f : Queue.t pnode) :
  queue_wf f → Queue.isEmpty f = false →
  ∃ n f', Queue.pop f = Ok (n, f') ∧
          Queue.queue f ≡ₚ n :: Queue.queue f' ∧ queue_wfa n f'.
Proof.
  destruct f as [[|n l]]; [done|]. unfold queue_wf, Queue.pop. simpl.
  intros Hwf _. eexists _, _. split_and!; [done..|].
  intros i j a b Hij Ha Hb. apply (Hwf (S i) (S j) a b); [lia|done..].
Qed.

Lemma queue_wfa_wf (n : pnode) (f : Queue.t pnode) :
  queue_wfa n f → queue_wf f.
Proof.
  destruct f as [[|m l]]; [done|]. unfold queue_wf. simpl.
  intros Hwf i j a b Hij Ha Hb.
  destruct (Hwf 0 i m a) as (? & ? & ?); [lia|done..|].
  destruct (Hwf i j a b) as (? & ? & ?); [done..|]. lia.
Qed.

Lemma queue_push_spec (n : pnode) (f : Queue.t pnode) (e : edge) :
  queue_wfa n f → e ∈ getSuccessors n.1 →
  ∃ f', mret (Queue.push f (edge_target e, n.2 ++ [edge_action e])) = Ok f' ∧
        Queue.queue f' ≡ₚ (edge_target e, n.2 ++ [edge_action e])
                           :: Queue.queue f ∧
        queue_wfa n f'.
Proof.
  intros Hwf _. eexists. split_and!; [done|..]; simpl.
  { by rewrite <- Permutation_cons_append. }
  intros i j a b Hij Ha Hb.
  assert (∀ k c, (Queue.queue f ++ [(edge_target e, n.2 ++ [edge_action e])])
                   !! k = Some c →
                 (k < length (Queue.queue f) ∧ Queue.queue f !! k = Some c) ∨
                 (k = length (Queue.queue f) ∧
                  length c.2 = length n.2 + 1)) as Hcases.
  { intros k c [?|[? Hc]]%lookup_app_Some; [left|right].
    - split; [by eapply lookup_lt_Some|done].
    - apply list_lookup_singleton_Some in Hc as [? <-]. simpl.
      rewrite length_app. simpl. lia. }
  destruct (Hcases i a Ha) as [[? Ha']|[? ?]],
           (Hcases j b Hb) as [[? Hb']|[? ?]]; try lia.
  - by apply (Hwf i j).
  - destruct (Hwf i i a a) as (? & ? & ?); [done..|]. lia.
Qed.

Definition queue_spec
    : FringeSpec (Fringe0:=queue_fringe) (SearchNode0:=pnode_ops)
        problem (getStartState, []) :=
  @Build_FringeSpec State Action problem _ _ queue_fringe pnode_ops
    (getStartState, [])
    Queue.queue queue_wf queue_wfa
    eq_refl eq_refl eq_refl (λ _ _, eq_refl) (λ _ _, eq_refl)
    pnode_extend_g
    (ex_intro _ _ (conj eq_refl (conj eq_refl queue_wf_init)))
    queue_isEmpty_spec queue_pop_spec queue_wfa_wf queue_push_spec.

(** The queue hands out a node with a shortest path. *)
Lemma queue_pop_min :
  pop_min (FS:=queue_spec) problem (getStartState, [])
    (λ n, (Z.of_nat (length n.2) + 0)%Z).
Proof.
  intros f n f' Hwf Hpop m Hm. simpl in *.
  destruct f as [[|n0 l]]; [done|]. unfold Queue.pop in Hpop.
  simpl in *. simplify_eq.
  apply list_elem_of_lookup in Hm as [i Hi].
  destruct (Hwf 0 i n m) as (? & ? & ?); [lia|done..|]. lia.
Qed.

(** *** PriorityQueue *)
Section pq_instance.
Context (node_lt : cnode → cnode → result bool) (priority : cnode → Z).
Local Abbreviation start := (getStartState, [] : list Action, 0%Z).
Implicit Types (q : PriorityQueue.t (Item:=cnode)).

Lemma pq_fringe_init_spec :
  ∃ q0, PriorityQueue.push node_lt PriorityQueue.init start (priority start)
          = Ok q0 ∧
        PriorityQueue.entry_item <$> PriorityQueue.heap q0 = [start] ∧
        pq_fringe_wf priority q0.
Proof.
  destruct (pq_push_spec node_lt PriorityQueue.init start (priority start))
    as (q0 & Hpush & Hwf & Hperm & _); [apply pq_wf_init|].
  simpl in Hperm. apply Permutation_singleton_r in Hperm.
  exists q0. rewrite Hperm. split_and!; [done..|].
  split; [done|]. rewrite Hperm. by intros e ->%list_elem_of_singleton.
Qed.

Lemma pq_fringe_isEmpty_spec q :
  PriorityQueue.isEmpty q = true ↔
  PriorityQueue.entry_item <$> PriorityQueue.heap q = [].
Proof.
  rewrite pq_isEmpty_heap. split; [by intros ->|apply fmap_nil_inv].
Qed.

Lemma pq_fringe_pop_spec q :
  pq_fringe_wf priority q → PriorityQueue.isEmpty q = false →
  ∃ n q', PriorityQueue.pop node_lt q = Ok (n, q') ∧
          PriorityQueue.entry_item <$> PriorityQueue.heap q
            ≡ₚ n :: (PriorityQueue.entry_item <$> PriorityQueue.heap q') ∧
          pq_fringe_wf priority q'.
Proof.
  intros [Hwf Hprio] Hne.
  destruct (pq_pop_spec node_lt q Hwf Hne)
    as (e & q' & Hpop & Hperm & Hwf' & _ & _).
  eexists _, q'. split_and!; [done|by rewrite Hperm|].
  split; [done|]. intros y Hy. apply Hprio. rewrite Hperm. by right.
Qed.

Lemma pq_fringe_push_spec (n : cnode) q (e : edge) :
  pq_fringe_wf priority q → e ∈ getSuccessors n.1.1 →
  ∃ q', PriorityQueue.push node_lt q
          (node_extend (SearchNode:=cnode_ops) n e)
          (priority (node_extend (SearchNode:=cnode_ops) n e)) = Ok q' ∧
        PriorityQueue.entry_item <$> PriorityQueue.heap q'
          ≡ₚ node_extend (SearchNode:=cnode_ops) n e
               :: (PriorityQueue.entry_item <$> PriorityQueue.heap q) ∧
        pq_fringe_wf priority q'.
Proof.
  intros [Hwf Hprio] _.
  destruct (pq_push_spec node_lt q (node_extend (SearchNode:=cnode_ops) n e)
              (priority (node_extend (SearchNode:=cnode_ops) n e)) Hwf)
    as (q' & Hpush & Hwf' & Hperm & _).
  exists q'. split_and!; [done|by rewrite Hperm|].
  split; [done|]. intros y. rewrite Hperm.
  intros [->|Hy]%elem_of_cons; [done|by apply Hprio].
Qed.

Definition pq_spec
    : FringeSpec (Fringe0:=pq_fringe node_lt priority)
        (SearchNode0:=cnode_ops) problem start :=
  @Build_FringeSpec State Action problem _ _
    (pq_fringe node_lt priority) cnode_ops start
    (λ q, PriorityQueue.entry_item <$> PriorityQueue.heap q)
    (pq_fringe_wf priority) (λ _, pq_fringe_wf priority)
    eq_refl eq_refl eq_refl (λ _ _, eq_refl) (λ _ _, eq_refl)
    (λ _ _, eq_refl)
    pq_fringe_init_spec pq_fringe_isEmpty_spec pq_fringe_pop_spec
    (λ _ _ Hwf, Hwf) pq_fringe_push_spec.

(** The priority queue hands out a node of least priority. *)
Lemma pq_pop_min : pop_min (FS:=pq_spec) problem start priority.
Proof.
  intros q n q' [Hwf Hprio] Hpop m Hm. simpl in *.
  destruct (PriorityQueue.isEmpty q) eqn:Hne.
  { rewrite pq_pop_empty in Hpop by done. discriminate. }
  destruct (pq_pop_spec node_lt q Hwf Hne)
    as (e & q'' & Hpop' & Hperm & _ & _ & Hmin).
  rewrite Hpop in Hpop'. simplify_eq.
  apply list_elem_of_fmap in Hm as (y & -> & Hy).
  rewrite <- !Hprio by (done || rewrite Hperm; by left).
  destruct (Hmin y Hy) as [?|[? _]]; lia.
Qed.
End pq_instance.

(** *** Each algorithm is the shared loop on its fringe *)
Lemma dfs_body_generic c :
  dfs_body problem c
  = search_body (Fringe0:=stack_fringe) (SearchNode0:=pnode_ops) problem c.
Proof.
  destruct c as [fringe visited]. unfold dfs_body, search_body. simpl.
  destruct (Stack.pop fringe) as [[[state path] fringe1]| |]; simpl; try done.
  case_decide; [done|]. destruct (isGoalState state); [done|].
  f_equal. apply for_each_ext. by intros f [[successor action] stepCost].
Qed.

Lemma depthFirstSearch_generic fuel :
  depthFirstSearch problem fuel
  = search (Fringe0:=stack_fringe) (SearchNode0:=pnode_ops) problem
      (getStartState, []) fuel.
Proof. apply while_loop_ext, dfs_body_generic. Qed.

Lemma bfs_body_generic c :
  bfs_body problem c
  = search_body (Fringe0:=queue_fringe) (SearchNode0:=pnode_ops) problem c.
Proof.
  destruct c as [fringe visited]. unfold bfs_body, search_body. simpl.
  destruct (Queue.pop fringe) as [[[state path] fringe1]| |]; simpl; try done.
  case_decide; [done|]. destruct (isGoalState state); [done|].
  f_equal. apply for_each_ext. by intros f [[successor action] stepCost].
Qed.

Lemma breadthFirstSearch_generic fuel :
  breadthFirstSearch problem fuel
  = search (Fringe0:=queue_fringe) (SearchNode0:=pnode_ops) problem
      (getStartState, []) fuel.
Proof. apply while_loop_ext, bfs_body_generic. Qed.

Section cost_based.
Context (node_lt : cnode → cnode → result bool).

Lemma ucs_body_generic c :
  ucs_body problem node_lt c
  = search_body (Fringe0:=pq_fringe node_lt ucs_priority)
      (SearchNode0:=cnode_ops) problem c.
Proof.
  destruct c as [fringe visited]. unfold ucs_body, search_body. simpl.
  destruct (PriorityQueue.pop node_lt fringe)
    as [[[[state path] cost] fringe1]| |]; simpl; try done.
  case_decide; [done|]. destruct (isGoalState state); [done|].
  f_equal. apply for_each_ext. by intros f [[successor action] stepCost].
Qed.

Lemma uniformCostSearch_generic fuel :
  uniformCostSearch problem node_lt fuel
  = search (Fringe0:=pq_fringe node_lt ucs_priority)
      (SearchNode0:=cnode_ops) problem (getStartState, [], 0%Z) fuel.
Proof.
  unfold uniformCostSearch, search. apply bind_ext. intros fringe.
  apply while_loop_ext, ucs_body_generic.
Qed.

Lemma astar_body_generic heuristic c :
  astar_body problem node_lt heuristic c
  = search_body (Fringe0:=pq_fringe node_lt (astar_priority problem heuristic))
      (SearchNode0:=cnode_ops) problem c.
Proof.
  destruct c as [fringe visited]. unfold astar_body, search_body. simpl.
  destruct (PriorityQueue.pop node_lt fringe)
    as [[[[state path] cost] fringe1]| |]; simpl; try done.
  case_decide; [done|]. destruct (isGoalState state); [done|].
  f_equal. apply for_each_ext. by intros f [[successor action] stepCost].
Qed.

Lemma aStarSearch_generic heuristic fuel :
  aStarSearch problem node_lt heuristic fuel
  = search (Fringe0:=pq_fringe node_lt (astar_priority problem heuristic))
      (SearchNode0:=cnode_ops) problem (getStartState, [], 0%Z) fuel.
Proof.
  unfold aStarSearch, search. apply bind_ext. intros fringe.
  apply while_loop_ext, astar_body_generic.
Qed.
End cost_based.
End instance_proofs.

(** ** Properties of the four algorithms *)
Section discipline_proofs.
Context {State Action : Type} `{Countable State}.
Context {F Node : Type} `{!Fringe F Node, !SearchNode State Action Node}.

Lemma search_body_discards (problem : Problem State Action) :
  discards_visited fringe_pop node_state
    (λ problem, search_body problem) problem.
Proof.
  intros fringe visited node fringe' Hpop Hin.
  unfold search_body. rewrite Hpop. simpl. by rewrite decide_True.
Qed.

Lemma search_body_grows (problem : Problem State Action) c c' :
  search_body problem c = Ok (inl c') → c.2 ⊆ c'.2.
Proof.
  destruct c as [f visited]. unfold search_body.
  destruct (fringe_pop f) as [[n f1]| |]; simpl; try done.
  case_decide; [by intros [= <-]|].
  destruct (isGoalState (node_state n)); [done|].
  destruct (for_each _ _ _); simpl; try done.
  intros [= <-]. simpl. apply union_subseteq_r.
Qed.

Lemma never_reexpands_intro (pop : F → result (Node * F)) state_of cond
    (body : Problem State Action → F * gset State →
            result (F * gset State + @answer Action)) problem :
  (∀ c c', body problem c = Ok (inl c') → c.2 ⊆ c'.2) →
  (∀ problem', discards_visited pop state_of body problem') →
  never_reexpands pop state_of cond body problem.
Proof.
  intros Hgrows Hdiscard c c' s Hrun Hs.
  assert (s ∈ c'.2) as Hs'.
  { induction Hrun as [|c1 c2 c3 [_ Hstep] _ IH]; [done|].
    apply IH. by apply (Hgrows c1 c2 Hstep). }
  split; [done|]. intros node fringe' Hpop <- problem'.
  destruct c' as [f visited]. simpl in *.
  exact (Hdiscard problem' f visited node fringe' Hpop Hs').
Qed.
End discipline_proofs.

Section algorithm_proofs.
Context {State Action : Type} `{Countable State}.
Context (problem : Problem State Action).
Local Abbreviation cnode := (State * list Action * Z)%type.
Context (node_lt : cnode → cnode → result bool).
Context (heuristic : State → Problem State Action → Z).

Local Abbreviation dfs_cond :=
  (λ c : Stack.t (State * list Action) * gset State, negb (Stack.isEmpty c.1)).
Local Abbreviation bfs_cond :=
  (λ c : Queue.t (State * list Action) * gset State, negb (Queue.isEmpty c.1)).
Local Abbreviation pq_cond :=
  (λ c : PriorityQueue.t (Item:=cnode) * gset State,
     negb (PriorityQueue.isEmpty c.1)).

(** *** Visited states are dropped *)
Lemma dfs_discards (problem' : Problem State Action) :
  discards_visited Stack.pop fst dfs_body problem'.
Proof.
  intros f v n f' Hpop Hin. rewrite dfs_body_generic.
  exact (search_body_discards (Fringe0:=stack_fringe)
              (SearchNode0:=pnode_ops)
           problem' f v n f' Hpop Hin).
Qed.

Lemma bfs_discards (problem' : Problem State Action) :
  discards_visited Queue.pop fst bfs_body problem'.
Proof.
  intros f v n f' Hpop Hin. rewrite bfs_body_generic.
  exact (search_body_discards (Fringe0:=queue_fringe)
              (SearchNode0:=pnode_ops)
           problem' f v n f' Hpop Hin).
Qed.

Lemma ucs_discards (problem' : Problem State Action) :
  discards_visited (PriorityQueue.pop node_lt) (λ n : cnode, n.1.1)
    (λ problem, ucs_body problem node_lt) problem'.
Proof.
  intros f v n f' Hpop Hin. rewrite ucs_body_generic.
  exact (search_body_discards (Fringe0:=pq_fringe node_lt ucs_priority)
              (SearchNode0:=cnode_ops)
           problem' f v n f' Hpop Hin).
Qed.

Lemma astar_discards (problem' : Problem State Action) :
  discards_visited (PriorityQueue.pop node_lt) (λ n : cnode, n.1.1)
    (λ problem, astar_body problem node_lt heuristic) problem'.
Proof.
  intros f v n f' Hpop Hin. rewrite astar_body_generic.
  exact (search_body_discards
              (Fringe0:=pq_fringe node_lt (astar_priority problem' heuristic))
              (SearchNode0:=cnode_ops)
           problem' f v n f' Hpop Hin).
Qed.

Lemma dfs_never_reexpands :
  never_reexpands Stack.pop fst dfs_cond dfs_body problem.
Proof.
  apply never_reexpands_intro; [|apply dfs_discards].
  intros c c'. rewrite dfs_body_generic. apply search_body_grows.
Qed.

Lemma bfs_never_reexpands :
  never_reexpands Queue.pop fst bfs_cond bfs_body problem.
Proof.
  apply never_reexpands_intro; [|apply bfs_discards].
  intros c c'. rewrite bfs_body_generic. apply search_body_grows.
Qed.

Lemma ucs_never_reexpands :
  never_reexpands (PriorityQueue.pop node_lt) (λ n : cnode, n.1.1) pq_cond
    (λ problem, ucs_body problem node_lt) problem.
Proof.
  apply never_reexpands_intro; [|apply ucs_discards].
  intros c c'. rewrite ucs_body_generic. apply search_body_grows.
Qed.

Lemma astar_never_reexpands :
  never_reexpands (PriorityQueue.pop node_lt) (λ n : cnode, n.1.1) pq_cond
    (λ problem, astar_body problem node_lt heuristic) problem.
Proof.
  apply never_reexpands_intro; [|apply astar_discards].
  intros c c'. rewrite astar_body_generic. apply search_body_grows.
Qed.

(** *** Answers are sound *)
Lemma dfs_sound fuel :
  depthFirstSearch problem fuel = OutOfFuel ∨
  ∃ r, depthFirstSearch problem fuel = Ok r ∧ answer_ok problem r.
Proof.
  rewrite depthFirstSearch_generic.
  apply (search_sound problem _ (FringeSpec0:=stack_spec problem)).
Qed.

Lemma bfs_sound fuel :
  breadthFirstSearch problem fuel = OutOfFuel ∨
  ∃ r, breadthFirstSearch problem fuel = Ok r ∧ answer_ok problem r.
Proof.
  rewrite breadthFirstSearch_generic.
  apply (search_sound problem _ (FringeSpec0:=queue_spec problem)).
Qed.

Lemma ucs_sound fuel :
  uniformCostSearch problem node_lt fuel = OutOfFuel ∨
  ∃ r, uniformCostSearch problem node_lt fuel = Ok r ∧ answer_ok problem r.
Proof.
  rewrite uniformCostSearch_generic.
  apply (search_sound problem _
           (FringeSpec0:=pq_spec problem node_lt ucs_priority)).
Qed.

Lemma astar_sound fuel :
  aStarSearch problem node_lt heuristic fuel = OutOfFuel ∨
  ∃ r, aStarSearch problem node_lt heuristic fuel = Ok r ∧
       answer_ok problem r.
Proof.
  rewrite aStarSearch_generic.
  apply (search_sound problem _
           (FringeSpec0:=pq_spec problem node_lt
                           (astar_priority problem heuristic))).
Qed.

(** *** The loops end on finite state spaces *)
Lemma dfs_terminates :
  finite_reachable problem → ∃ fuel r, depthFirstSearch problem fuel = Ok r.
Proof.
  intros Hfin.
  destruct (search_terminates problem _ (FringeSpec0:=stack_spec problem) Hfin)
    as (fuel & r & Hr).
  exists fuel, r. by rewrite depthFirstSearch_generic.
Qed.

Lemma bfs_terminates :
  finite_reachable problem → ∃ fuel r, breadthFirstSearch problem fuel = Ok r.
Proof.
  intros Hfin.
  destruct (search_terminates problem _ (FringeSpec0:=queue_spec problem) Hfin)
    as (fuel & r & Hr).
  exists fuel, r. by rewrite breadthFirstSearch_generic.
Qed.

Lemma ucs_terminates :
  finite_reachable problem →
  ∃ fuel r, uniformCostSearch problem node_lt fuel = Ok r.
Proof.
  intros Hfin.
  destruct (search_terminates problem _
              (FringeSpec0:=pq_spec problem node_lt ucs_priority) Hfin)
    as (fuel & r & Hr).
  exists fuel, r. by rewrite uniformCostSearch_generic.
Qed.

Lemma astar_terminates :
  finite_reachable problem →
  ∃ fuel r, aStarSearch problem node_lt heuristic fuel = Ok r.
Proof.
  intros Hfin.
  destruct (search_terminates problem _
              (FringeSpec0:=pq_spec problem node_lt
                              (astar_priority problem heuristic)) Hfin)
    as (fuel & r & Hr).
  exists fuel, r. by rewrite aStarSearch_generic.
Qed.

(** *** More fuel keeps the answer *)
Lemma dfs_more_fuel fuel fuel' r :
  depthFirstSearch problem fuel = Ok r → fuel ≤ fuel' →
  depthFirstSearch problem fuel' = Ok r.
Proof. apply while_loop_more_fuel. Qed.

Lemma bfs_more_fuel fuel fuel' r :
  breadthFirstSearch problem fuel = Ok r → fuel ≤ fuel' →
  breadthFirstSearch problem fuel' = Ok r.
Proof. apply while_loop_more_fuel. Qed.

Lemma ucs_more_fuel fuel fuel' r :
  uniformCostSearch problem node_lt fuel = Ok r → fuel ≤ fuel' →
  uniformCostSearch problem node_lt fuel' = Ok r.
Proof.
  unfold uniformCostSearch.
  destruct (PriorityQueue.push node_lt PriorityQueue.init
              (getStartState, [], 0%Z) 0%Z); simpl; try done.
  apply while_loop_more_fuel.
Qed.

Lemma astar_more_fuel fuel fuel' r :
  aStarSearch problem node_lt heuristic fuel = Ok r → fuel ≤ fuel' →
  aStarSearch problem node_lt heuristic fuel' = Ok r.
Proof.
  unfold aStarSearch.
  destruct (PriorityQueue.push node_lt PriorityQueue.init
              (getStartState, [], 0%Z)
              (0 + heuristic getStartState problem)%Z); simpl; try done.
  apply while_loop_more_fuel.
Qed.

(** *** The start state is a goal *)
Lemma dfs_start_goal fuel :
  isGoalState getStartState = true →
  depthFirstSearch problem (S fuel) = Ok (Some []).
Proof.
  rewrite depthFirstSearch_generic.
  apply (search_start_goal problem _ (FringeSpec0:=stack_spec problem)).
Qed.

Lemma bfs_start_goal fuel :
  isGoalState getStartState = true →
  breadthFirstSearch problem (S fuel) = Ok (Some []).
Proof.
  rewrite breadthFirstSearch_generic.
  apply (search_start_goal problem _ (FringeSpec0:=queue_spec problem)).
Qed.

Lemma ucs_start_goal fuel :
  isGoalState getStartState = true →
  uniformCostSearch problem node_lt (S fuel) = Ok (Some []).
Proof.
  rewrite uniformCostSearch_generic.
  apply (search_start_goal problem _
           (FringeSpec0:=pq_spec problem node_lt ucs_priority)).
Qed.

Lemma astar_start_goal fuel :
  isGoalState getStartState = true →
  aStarSearch problem node_lt heuristic (S fuel) = Ok (Some []).
Proof.
  rewrite aStarSearch_generic.
  apply (search_start_goal problem _
           (FringeSpec0:=pq_spec problem node_lt
                           (astar_priority problem heuristic))).
Qed.

(** *** Least cost and fewest actions *)
Lemma bfs_optimal fuel p :
  breadthFirstSearch problem fuel = Ok (Some p) →
  solution problem p ∧ ∀ p', solution problem p' → length p ≤ length p'.
Proof.
  rewrite breadthFirstSearch_generic. intros Hrun.
  destruct (search_optimal problem _ (FringeSpec0:=queue_spec problem)
              (λ _, 0%Z)) with (fuel := fuel) (p := p)
    as (es & Hgoal & <- & Hleast); [| | | |done|].
  - apply queue_pop_min.
  - intros s e _. simpl. lia.
  - done.
  - done.
  - split; [by exists es|].
    intros p' (es' & Hgoal' & <-). specialize (Hleast es' Hgoal').
    simpl in Hleast. rewrite !weight_unit in Hleast.
    rewrite !actions_length. lia.
Qed.

Lemma ucs_optimal fuel p :
  nonneg_costs problem →
  uniformCostSearch problem node_lt fuel = Ok (Some p) →
  optimal_solution problem edge_cost p.
Proof.
  rewrite uniformCostSearch_generic. intros Hcost Hrun.
  apply (search_optimal problem _
           (FringeSpec0:=pq_spec problem node_lt ucs_priority)
           (λ _, 0%Z)) with (fuel := fuel); [| | | |done].
  - intros f n f' Hwf Hpop m Hm.
    pose proof (pq_pop_min problem node_lt ucs_priority f n f' Hwf Hpop m Hm)
      as Hle.
    unfold ucs_priority in Hle. simpl. lia.
  - intros s e He. specialize (Hcost s e He). simpl. lia.
  - done.
  - done.
Qed.

Lemma astar_optimal fuel p :
  nonneg_heuristic (λ s, heuristic s problem) →
  admissible problem (λ s, heuristic s problem) →
  consistent problem edge_cost (λ s, heuristic s problem) →
  aStarSearch problem node_lt heuristic fuel = Ok (Some p) →
  optimal_solution problem edge_cost p.
Proof.
  rewrite aStarSearch_generic. intros Hnonneg Hadm Hcons Hrun.
  apply (search_optimal problem _
           (FringeSpec0:=pq_spec problem node_lt
                           (astar_priority problem heuristic))
           (λ s, heuristic s problem)) with (fuel := fuel); [| | | |done].
  - apply pq_pop_min.
  - done.
  - done.
  - intros s Hgoal. apply (Hadm s [] s); [constructor|done].
Qed.
End algorithm_proofs.

(** * Main results *)

(** ** Facts about the example problems *)

(** Membership in a list that is written out. *)
Ltac in_list :=
  repeat first [apply list_elem_of_here | apply list_elem_of_further].
Ltac cases_in_list H :=
  repeat (apply elem_of_cons in H as [->|H]); try by apply elem_of_nil in H.

Lemma demo_finite c01 : finite_reachable (demo_problem c01).
Proof.
  exists [0; 1; 2; 3]. intros s [es Hw].
  induction Hw as [|es u e Hw IH He]; [in_list|].
  simpl in He. destruct u as [|[|[|u]]]; cases_in_list He; in_list.
Qed.

Lemma demo_goal_walk c01 :
  goal_walk (demo_problem c01) [(2, 20, 1%Z); (1, 21, 1%Z); (3, 13, 1%Z)].
Proof.
  exists 3. split; [|done].
  apply (walk_cons _ 0); [simpl; in_list|].
  apply (walk_cons _ 2); [simpl; in_list|].
  apply (walk_cons _ 1); [simpl; in_list|]. constructor.
Qed.

Lemma demo_goal_reachable c01 : goal_reachable (demo_problem c01).
Proof. eexists. apply demo_goal_walk. Qed.

Lemma demo_nonneg_costs c01 : (0 ≤ c01)%Z → nonneg_costs (demo_problem c01).
Proof.
  intros Hc s e He. simpl in He.
  destruct s as [|[|[|s]]]; cases_in_list He; simpl; lia.
Qed.

Lemma demo_unit_costs : unit_costs (demo_problem 1).
Proof.
  intros s e He. simpl in He.
  destruct s as [|[|[|s]]]; cases_in_list He; done.
Qed.

Lemma ring_finite goal : finite_reachable (ring_problem goal).
Proof.
  exists [0; 1; 2]. intros s [es Hw].
  induction Hw as [|es u e Hw IH He]; [in_list|].
  simpl in He. destruct u as [|[|[|u]]]; cases_in_list He; in_list.
Qed.

Lemma chain_no_goal : ¬ goal_reachable chain_problem.
Proof. by intros (es & t & _ & Hgoal). Qed.

(** On the endless chain the depth-first search never comes back. *)
Lemma chain_dfs_loop fuel (n : nat) (path : list unit) (visited : gset nat) :
  (∀ v, v ∈ visited → v < n) →
  while_loop (λ c, negb (Stack.isEmpty c.1)) (dfs_body chain_problem) None fuel
    (Stack.mk [(n, path)], visited) = OutOfFuel.
Proof.
  revert n path visited.
  induction fuel as [|fuel IH]; intros n path visited Hlt; [done|].
  rewrite while_loop_S. simpl.
  rewrite decide_False by (intros Hn%Hlt; lia). simpl.
  rewrite decide_False; last first.
  { intros [Hn%elem_of_singleton|Hn%Hlt]%elem_of_union; lia. }
  simpl. apply IH.
  intros v [->%elem_of_singleton|Hv%Hlt]%elem_of_union; lia.
Qed.

Lemma chain_dfs_out_of_fuel fuel : depthFirstSearch chain_problem fuel = OutOfFuel.
Proof. apply chain_dfs_loop. intros v Hv. by apply elem_of_empty in Hv. Qed.

(** ** The containers *)



(** C10.  In every priority queue obtained from the empty one by pushes
    and pops, whatever the payload comparison [item_lt] does (it may
    raise on every call): the entries carry pairwise distinct sequence
    numbers, all below the counter; comparing two different entries is
    decided by their [(priority, count)] prefix; a push succeeds and
    advances the counter by one; a pop from a non-empty queue succeeds and
    leaves the counter alone. *)
Theorem pq_sequence_numbers_distinct {Item : Type}
    (item_lt : Item → Item → result bool) (q : PriorityQueue.t) :
  pq_reachable item_lt q →
  NoDup (PriorityQueue.entry_count <$> PriorityQueue.heap q) ∧
  (∀ e, e ∈ PriorityQueue.heap q →
        PriorityQueue.entry_count e < PriorityQueue.count q) ∧
  (∀ a b, a ∈ PriorityQueue.heap q → b ∈ PriorityQueue.heap q → a ≠ b →
          PriorityQueue.entry_lt item_lt a b = Ok (bool_decide (key_lt a b))) ∧
  (∀ x p, ∃ q', PriorityQueue.push item_lt q x p = Ok q' ∧
                PriorityQueue.count q' = PriorityQueue.count q + 1) ∧
  (PriorityQueue.isEmpty q = false →
   ∃ x q', PriorityQueue.pop item_lt q = Ok (x, q') ∧
           PriorityQueue.count q' = PriorityQueue.count q).
Proof.
  intros Hwf%pq_reachable_wf. pose proof Hwf as (_ & Hnd & Hlt).
  split_and!; [done|done| | |].
  - intros a b [i Hi]%list_elem_of_lookup [j Hj]%list_elem_of_lookup Hab.
    apply entry_lt_distinct. intros Hcnt. apply Hab.
    assert (i = j) as ->; [|congruence].
    eapply (NoDup_lookup _ i j _ Hnd); rewrite list_lookup_fmap;
      [by rewrite Hi | by rewrite Hj, Hcnt].
  - intros x p.
    destruct (pq_push_spec item_lt q x p Hwf) as (q' & ? & _ & _ & ?). eauto.
  - intros Hne.
    destruct (pq_pop_spec item_lt q Hwf Hne) as (e & q' & ? & _ & _ & ? & _).
    eauto.
Qed.

Lemma pq_sequence_numbers_distinct_witness :
  let q := PriorityQueue.mk [(3%Z, 0, 7); (3%Z, 1, 8)] 2 in
  NoDup (PriorityQueue.entry_count <$> PriorityQueue.heap q) ∧
  (∀ e, e ∈ PriorityQueue.heap q →
        PriorityQueue.entry_count e < PriorityQueue.count q) ∧
  (∀ a b, a ∈ PriorityQueue.heap q → b ∈ PriorityQueue.heap q → a ≠ b →
          PriorityQueue.entry_lt no_lt a b = Ok (bool_decide (key_lt a b))) ∧
  (∀ x p, ∃ q', PriorityQueue.push no_lt q x p = Ok q' ∧
                PriorityQueue.count q' = PriorityQueue.count q + 1) ∧
  (PriorityQueue.isEmpty q = false →
   ∃ x q', PriorityQueue.pop no_lt q = Ok (x, q') ∧
           PriorityQueue.count q' = PriorityQueue.count q).
Proof.
  apply (pq_sequence_numbers_distinct no_lt).
  apply (pq_reach_push _ (PriorityQueue.mk [(3%Z, 0, 7)] 1) 8 3%Z);
    [|reflexivity].
  apply (pq_reach_push _ PriorityQueue.init 7 3%Z); [|reflexivity].
  apply pq_reach_init.
Defined.

(** C6.  A* with the null heuristic gives the same result as uniform-cost
    search, for every problem and every amount of fuel: the same path, the
    same [None], and it is cut off at the same point. *)
Theorem astar_null_is_ucs {State Action : Type} `{Countable State}
    (problem : Problem State Action)
    (node_lt : State * list Action * Z → State * list Action * Z → result bool)
    (fuel : nat) :
  aStarSearch problem node_lt nullHeuristic fuel
  = uniformCostSearch problem node_lt fuel.
Proof.
  unfold aStarSearch, uniformCostSearch. apply bind_ext. intros fringe.
  apply while_loop_ext. intros [f visited].
  unfold astar_body, ucs_body.
  apply bind_ext. intros [[[state path] cost] f1].
  case_decide; [done|]. destruct (isGoalState state); [done|].
  f_equal. apply for_each_ext. intros f2 [[successor action] stepCost].
  case_decide; [done|]. unfold nullHeuristic. by rewrite Z.add_0_r.
Qed.

(** ** The search functions *)
Section search_results.
Context {State Action : Type} `{Countable State}.
Context (problem : Problem State Action).
Local Abbreviation cnode := (State * list Action * Z)%type.
Context (node_lt : cnode → cnode → result bool).
Context (heuristic : State → Problem State Action → Z).

(** C9.  [pop] on an empty [Stack], [Queue] or [PriorityQueue] raises
    [IndexError]; and none of the four search functions ever raises, with
    any amount of fuel: an exception raised by a [pop] inside the loop
    would be the result of the search, so no [pop] of a run is one on an
    empty fringe. *)
Theorem empty_pop_raises_and_is_unreachable :
  (∀ (A : Type) (s : Stack.t A),
     Stack.isEmpty s = true → Stack.pop s = Raise IndexError) ∧
  (∀ (A : Type) (q : Queue.t A),
     Queue.isEmpty q = true → Queue.pop q = Raise IndexError) ∧
  (∀ (Item : Type) (lt : Item → Item → result bool) (q : PriorityQueue.t),
     PriorityQueue.isEmpty q = true →
     PriorityQueue.pop lt q = Raise IndexError) ∧
  (∀ fuel e,
     depthFirstSearch problem fuel ≠ Raise e ∧
     breadthFirstSearch problem fuel ≠ Raise e ∧
     uniformCostSearch problem node_lt fuel ≠ Raise e ∧
     aStarSearch problem node_lt heuristic fuel ≠ Raise e).
Proof.
  split_and!.
  - intros A s. apply stack_pop_empty.
  - intros A q. apply queue_pop_empty.
  - intros Item lt q. apply pq_pop_empty.
  - intros fuel e. split_and!.
    + destruct (dfs_sound problem fuel) as [->|(r & -> & _)]; done.
    + destruct (bfs_sound problem fuel) as [->|(r & -> & _)]; done.
    + destruct (ucs_sound problem node_lt fuel) as [->|(r & -> & _)]; done.
    + destruct (astar_sound problem node_lt heuristic fuel)
        as [->|(r & -> & _)]; done.
Qed.

(** C8.  In a run of any of the four loops, a state that is in the
    visited set is in it at every later iteration, and an iteration that
    pops a node of such a state only drops that node: its outcome is the
    same for every problem, so neither the goal test nor the successors
    are used, whatever path or cost the node carries. *)
Theorem visited_state_is_never_expanded_again :
  never_reexpands Stack.pop fst
    (λ c, negb (Stack.isEmpty c.1)) dfs_body problem ∧
  never_reexpands Queue.pop fst
    (λ c, negb (Queue.isEmpty c.1)) bfs_body problem ∧
  never_reexpands (PriorityQueue.pop node_lt) (λ n : cnode, n.1.1)
    (λ c, negb (PriorityQueue.isEmpty c.1))
    (λ problem, ucs_body problem node_lt) problem ∧
  never_reexpands (PriorityQueue.pop node_lt) (λ n : cnode, n.1.1)
    (λ c, negb (PriorityQueue.isEmpty c.1))
    (λ problem, astar_body problem node_lt heuristic) problem.
Proof.
  split_and!.
  - apply dfs_never_reexpands.
  - apply bfs_never_reexpands.
  - apply ucs_never_reexpands.
  - apply astar_never_reexpands.
Qed.

(** C2.  A path returned by any of the four search functions can be
    replayed from the start state, each action through a successor triple
    of the state it is applied to, and the replay ends in a goal state. *)
Theorem returned_path_is_valid (fuel : nat) (p : list Action) :
  depthFirstSearch problem fuel = Ok (Some p) ∨
  breadthFirstSearch problem fuel = Ok (Some p) ∨
  uniformCostSearch problem node_lt fuel = Ok (Some p) ∨
  aStarSearch problem node_lt heuristic fuel = Ok (Some p) →
  solution problem p.
Proof.
  intros [Hrun|[Hrun|[Hrun|Hrun]]].
  - destruct (dfs_sound problem fuel) as [Hout|(r & Hr & Hok)];
      [congruence|]. rewrite Hrun in Hr. by simplify_eq.
  - destruct (bfs_sound problem fuel) as [Hout|(r & Hr & Hok)];
      [congruence|]. rewrite Hrun in Hr. by simplify_eq.
  - destruct (ucs_sound problem node_lt fuel) as [Hout|(r & Hr & Hok)];
      [congruence|]. rewrite Hrun in Hr. by simplify_eq.
  - destruct (astar_sound problem node_lt heuristic fuel)
      as [Hout|(r & Hr & Hok)]; [congruence|].
    rewrite Hrun in Hr. by simplify_eq.
Qed.

(** C3.  When finitely many states are reachable from the start state,
    there is an amount of fuel with which each of the four search
    functions returns a path or [None]; and in each of them an iteration
    that pops a node whose state is in the visited set drops the node
    without expanding it. *)
Theorem search_terminates_on_finite_spaces :
  finite_reachable problem →
  (∃ fuel r1 r2 r3 r4,
     depthFirstSearch problem fuel = Ok r1 ∧
     breadthFirstSearch problem fuel = Ok r2 ∧
     uniformCostSearch problem node_lt fuel = Ok r3 ∧
     aStarSearch problem node_lt heuristic fuel = Ok r4) ∧
  discards_visited Stack.pop fst dfs_body problem ∧
  discards_visited Queue.pop fst bfs_body problem ∧
  discards_visited (PriorityQueue.pop node_lt) (λ n : cnode, n.1.1)
    (λ problem, ucs_body problem node_lt) problem ∧
  discards_visited (PriorityQueue.pop node_lt) (λ n : cnode, n.1.1)
    (λ problem, astar_body problem node_lt heuristic) problem.
Proof.
  intros Hfin. split_and!.
  - destruct (dfs_terminates problem Hfin) as (n1 & r1 & H1).
    destruct (bfs_terminates problem Hfin) as (n2 & r2 & H2).
    destruct (ucs_terminates problem node_lt Hfin) as (n3 & r3 & H3).
    destruct (astar_terminates problem node_lt heuristic Hfin)
      as (n4 & r4 & H4).
    exists (n1 + n2 + n3 + n4), r1, r2, r3, r4. split_and!.
    + eapply dfs_more_fuel; [done|lia].
    + eapply bfs_more_fuel; [done|lia].
    + eapply ucs_more_fuel; [done|lia].
    + eapply astar_more_fuel; [done|lia].
  - apply dfs_discards.
  - apply bfs_discards.
  - apply ucs_discards.
  - apply astar_discards.
Qed.

(** C4.  For each of the four search functions: if it
    returns [None], no goal state is reachable; if no goal state is
    reachable and the reachable states are finitely many, it returns
    [None]; and if the start state is a goal state it returns the empty
    action sequence. *)
Theorem sentinel_contract (run : nat → result (@answer Action)) :
  run ∈ [depthFirstSearch problem; breadthFirstSearch problem;
         uniformCostSearch problem node_lt;
         aStarSearch problem node_lt heuristic] →
  (returns run None → ¬ goal_reachable problem) ∧
  (finite_reachable problem → ¬ goal_reachable problem → returns run None) ∧
  (isGoalState getStartState = true → returns run (Some [])).
Proof.
  intros Hrun.
  assert ((∀ fuel, run fuel = OutOfFuel ∨
                   ∃ r, run fuel = Ok r ∧ answer_ok problem r) ∧
          (finite_reachable problem → ∃ fuel r, run fuel = Ok r) ∧
          (isGoalState getStartState = true → run 1 = Ok (Some [])))
    as (Hsound & Hterm & Hstart).
  { cases_in_list Hrun.
    - split_and!; [apply dfs_sound|apply dfs_terminates|apply dfs_start_goal].
    - split_and!; [apply bfs_sound|apply bfs_terminates|apply bfs_start_goal].
    - split_and!; [apply ucs_sound|apply ucs_terminates|apply ucs_start_goal].
    - split_and!; [apply astar_sound|apply astar_terminates
                  |apply astar_start_goal]. }
  split_and!.
  - intros [fuel Hr].
    destruct (Hsound fuel) as [?|(r & Hr' & Hok)]; [congruence|].
    rewrite Hr in Hr'. by simplify_eq.
  - intros Hfin Hno. destruct (Hterm Hfin) as (fuel & r & Hr).
    exists fuel. destruct (Hsound fuel) as [?|(r' & Hr' & Hok)]; [congruence|].
    rewrite Hr in Hr'. simplify_eq. destruct r' as [p|]; [|done].
    destruct Hno. destruct Hok as (es & ? & _). by exists es.
  - intros Hgoal. exists 1. by apply Hstart.
Qed.

(** C5.  When every step costs 1 and a goal state is reachable, whatever
    [breadthFirstSearch] returns is a path that replays to a goal state
    and has no more actions than any other such path; and it does return
    when the reachable states are finitely many. *)
Theorem bfs_returns_fewest_actions :
  unit_costs problem → goal_reachable problem →
  (∀ fuel r, breadthFirstSearch problem fuel = Ok r →
             fewest_actions_answer problem r) ∧
  (finite_reachable problem →
   ∃ fuel r, breadthFirstSearch problem fuel = Ok r).
Proof.
  intros _ Hreach. split; [|apply bfs_terminates].
  intros fuel r Hrun.
  destruct (bfs_sound problem fuel) as [?|(r' & Hr' & Hok)]; [congruence|].
  rewrite Hrun in Hr'. simplify_eq. destruct r' as [p|]; [|done].
  exists p. split; [done|]. by eapply bfs_optimal.
Qed.

(** C1.  When no step cost is negative and a goal state is reachable:
    whatever [uniformCostSearch] returns is a path along a walk to a goal
    state whose total step cost is least among all walks from the start
    state to a goal state; the same holds for [aStarSearch] when the
    heuristic is non-negative, admissible and consistent; and both
    return when the reachable states are finitely many. *)
Theorem cost_optimality :
  nonneg_costs problem → goal_reachable problem →
  ((∀ fuel r, uniformCostSearch problem node_lt fuel = Ok r →
              least_cost_answer problem r) ∧
   (finite_reachable problem →
    ∃ fuel r, uniformCostSearch problem node_lt fuel = Ok r)) ∧
  (nonneg_heuristic (λ s, heuristic s problem) →
   admissible problem (λ s, heuristic s problem) →
   consistent problem edge_cost (λ s, heuristic s problem) →
   (∀ fuel r, aStarSearch problem node_lt heuristic fuel = Ok r →
              least_cost_answer problem r) ∧
   (finite_reachable problem →
    ∃ fuel r, aStarSearch problem node_lt heuristic fuel = Ok r)).
Proof.
  intros Hcost Hreach. split_and!.
  - intros fuel r Hrun.
    destruct (ucs_sound problem node_lt fuel) as [?|(r' & Hr' & Hok)];
      [congruence|].
    rewrite Hrun in Hr'. simplify_eq. destruct r' as [p|]; [|done].
    exists p. split; [done|]. by eapply ucs_optimal.
  - apply ucs_terminates.
  - intros Hnonneg Hadm Hcons. split; [|apply astar_terminates].
    intros fuel r Hrun.
    destruct (astar_sound problem node_lt heuristic fuel)
      as [?|(r' & Hr' & Hok)]; [congruence|].
    rewrite Hrun in Hr'. simplify_eq. destruct r' as [p|]; [|done].
    exists p. split; [done|]. by eapply astar_optimal.
Qed.
End search_results.

(** ** The results on the example problems *)

Lemma nonneg_path_cost {State Action : Type} (problem : Problem State Action)
    s es t :
  nonneg_costs problem → walk problem s es t → (0 ≤ path_cost es)%Z.
Proof.
  intros Hcost Hw. induction Hw as [|es u e Hw IH He]; [done|].
  unfold path_cost in *. rewrite weight_snoc. specialize (Hcost u e He). lia.
Qed.

Lemma returned_path_is_valid_witness : solution (demo_problem 5) [20; 21; 13].
Proof.
  apply (returned_path_is_valid (demo_problem 5) no_lt nullHeuristic 10).
  left. vm_compute. reflexivity.
Defined.

Lemma search_terminates_on_finite_spaces_witness :
  (∃ fuel r1 r2 r3 r4,
     depthFirstSearch (demo_problem 5) fuel = Ok r1 ∧
     breadthFirstSearch (demo_problem 5) fuel = Ok r2 ∧
     uniformCostSearch (demo_problem 5) no_lt fuel = Ok r3 ∧
     aStarSearch (demo_problem 5) no_lt nullHeuristic fuel = Ok r4) ∧
  discards_visited Stack.pop fst dfs_body (demo_problem 5) ∧
  discards_visited Queue.pop fst bfs_body (demo_problem 5) ∧
  discards_visited (PriorityQueue.pop no_lt) (λ n : nat * list nat * Z, n.1.1)
    (λ problem, ucs_body problem no_lt) (demo_problem 5) ∧
  discards_visited (PriorityQueue.pop no_lt) (λ n : nat * list nat * Z, n.1.1)
    (λ problem, astar_body problem no_lt nullHeuristic) (demo_problem 5).
Proof.
  apply (search_terminates_on_finite_spaces (demo_problem 5) no_lt nullHeuristic).
  apply demo_finite.
Defined.

(** C4, without finiteness: on the endless chain no goal state is
    reachable, yet the depth-first search does not return [None]; it does
    not return at all. *)
Lemma sentinel_iff_fails_on_endless_chain :
  ¬ (returns (depthFirstSearch chain_problem) None
     ↔ ¬ goal_reachable chain_problem).
Proof.
  intros [_ Hback]. destruct (Hback chain_no_goal) as [fuel Hrun].
  by rewrite chain_dfs_out_of_fuel in Hrun.
Qed.

(** On the ring without a goal state the depth-first search returns
    [None], so no goal state is reachable, and A* returns [None] as well;
    on the ring whose start state is the goal, the uniform-cost search
    returns the empty action sequence. *)
Lemma sentinel_contract_witness :
  ¬ goal_reachable (ring_problem 7) ∧
  returns (aStarSearch (ring_problem 7) no_lt nullHeuristic) None ∧
  returns (uniformCostSearch (ring_problem 0) no_lt) (Some []).
Proof.
  assert (¬ goal_reachable (ring_problem 7)) as Hno.
  { destruct (sentinel_contract (ring_problem 7) no_lt nullHeuristic
                (depthFirstSearch (ring_problem 7))) as (Hnone & _ & _);
      [in_list|].
    apply Hnone. exists 10. vm_compute. reflexivity. }
  split_and!.
  - exact Hno.
  - destruct (sentinel_contract (ring_problem 7) no_lt nullHeuristic
                (aStarSearch (ring_problem 7) no_lt nullHeuristic))
      as (_ & Hfin & _); [in_list|].
    apply Hfin; [apply ring_finite|exact Hno].
  - destruct (sentinel_contract (ring_problem 0) no_lt nullHeuristic
                (uniformCostSearch (ring_problem 0) no_lt))
      as (_ & _ & Hstart); [in_list|].
    apply Hstart. reflexivity.
Defined.

Lemma bfs_returns_fewest_actions_witness :
  fewest_actions_answer (demo_problem 1) (Some [10; 13]).
Proof.
  destruct (bfs_returns_fewest_actions (demo_problem 1)) as [Hbfs _].
  - apply demo_unit_costs.
  - apply demo_goal_reachable.
  - apply (Hbfs 10). vm_compute. reflexivity.
Defined.

Lemma cost_optimality_witness :
  least_cost_answer (demo_problem 5) (Some [20; 21; 13]) ∧
  ∀ fuel r, aStarSearch (demo_problem 5) no_lt nullHeuristic fuel = Ok r →
            least_cost_answer (demo_problem 5) r.
Proof.
  destruct (cost_optimality (demo_problem 5) no_lt nullHeuristic)
    as [[Hucs _] Hastar].
  - apply demo_nonneg_costs. lia.
  - apply demo_goal_reachable.
  - split.
    + apply (Hucs 10). vm_compute. reflexivity.
    + apply Hastar.
      * by intros s.
      * intros s es t Hw _. unfold nullHeuristic.
        eapply nonneg_path_cost; [|done]. apply demo_nonneg_costs. lia.
      * intros s e He. unfold nullHeuristic.
        pose proof (demo_nonneg_costs 5 ltac:(lia) s e He). lia.
Defined.

(** * Further results *)

(** ** Loops that collect *)

(** A loop that appends [f x] for the [x] that pass a test computes a
    filtered map. *)
Lemma foldl_collect {A B} (P : A → bool) (f : A → B) (l : list A)
    (acc : list B) :
  foldl (λ acc x, if P x then acc ++ [f x] else acc) acc l
  = acc ++ (f <$> filter P l).
Proof.
  revert acc. induction l as [|x l IH]; intros acc; simpl.
  { by rewrite app_nil_r. }
  rewrite IH. destruct (P x) eqn:HP.
  - rewrite filter_cons_True; [|rewrite HP; exact I].
    by rewrite <- app_assoc.
  - rewrite filter_cons_False; [done|]. rewrite HP. exact id.
Qed.

(** ** maze_problem.py *)
Section maze_proofs.
Context (self : MazeProblem.t).
Local Abbreviation maze := (MazeProblem.problem self).

Lemma maze_getSuccessors_filter (state : Z * Z) :
  MazeProblem.getSuccessors self state
  = (λ a : string * (Z * Z),
       ((state.1 + a.2.1, state.2 + a.2.2)%Z, a.1, 1%Z)) <$>
    filter (λ a : string * (Z * Z),
              maze_free self (state.1 + a.2.1, state.2 + a.2.2)%Z)
      MazeProblem.possible_actions.
Proof.
  destruct state as [r c]. rewrite <- (app_nil_l (_ <$> _)).
  rewrite <- foldl_collect. reflexivity.
Qed.

(** The successors of a cell are its neighbours to the north, south, west
    and east that lie inside the bounds and are not walls, each at step
    cost 1. *)
Lemma maze_successor_iff (state : Z * Z) (e : Z * Z * string * Z) :
  e ∈ MazeProblem.getSuccessors self state ↔
  ∃ action dr dc,
    (action, (dr, dc)) ∈ MazeProblem.possible_actions ∧
    e = ((state.1 + dr, state.2 + dc)%Z, action, 1%Z) ∧
    (0 ≤ state.1 + dr < MazeProblem.height self)%Z ∧
    (0 ≤ state.2 + dc < MazeProblem.width self)%Z ∧
    (state.1 + dr, state.2 + dc)%Z ∉ MazeProblem.walls self.
Proof.
  rewrite maze_getSuccessors_filter, list_elem_of_fmap. split.
  - intros ([action [dr dc]] & -> & [Hfree Hin]%list_elem_of_filter).
    apply bool_decide_unpack in Hfree. simpl in *.
    exists action, dr, dc. tauto.
  - intros (action & dr & dc & Hin & -> & Hr & Hc & Hw).
    exists (action, (dr, dc)). split; [done|].
    apply list_elem_of_filter. split; [|done].
    apply bool_decide_pack. simpl. tauto.
Qed.

Lemma maze_unit_costs : unit_costs maze.
Proof.
  intros s e (action & dr & dc & _ & -> & _)%maze_successor_iff. done.
Qed.

Lemma maze_cells_spec (state : Z * Z) :
  state ∈ maze_cells self ↔
  (0 ≤ state.1 < MazeProblem.height self)%Z ∧
  (0 ≤ state.2 < MazeProblem.width self)%Z.
Proof.
  destruct state as [r c]. unfold maze_cells. rewrite list_elem_of_bind. split.
  - intros (r' & (c' & Hrc & Hc%elem_of_seqZ)%list_elem_of_bind
                & Hr%elem_of_seqZ).
    apply list_elem_of_singleton in Hrc. simplify_eq. simpl. lia.
  - simpl. intros [Hr Hc]. exists r. split; [|apply elem_of_seqZ; lia].
    apply list_elem_of_bind. exists c. split; [|apply elem_of_seqZ; lia].
    by apply list_elem_of_singleton.
Qed.

(** Whatever can be reached in a maze is the start state or a cell inside
    the bounds that is not a wall. *)
Lemma maze_reachable_free (state : Z * Z) :
  reachable maze state →
  state = MazeProblem.startState self ∨ maze_free self state = true.
Proof.
  intros [es Hw]. induction Hw as [|es u e Hw IH He]; [by left|right].
  apply maze_successor_iff in He as (action & dr & dc & _ & -> & ? & ? & ?).
  apply bool_decide_eq_true. done.
Qed.

Lemma maze_finite : finite_reachable maze.
Proof.
  exists (MazeProblem.startState self :: maze_cells self).
  intros s [->|Hfree%bool_decide_eq_true]%maze_reachable_free.
  - by left.
  - right. apply maze_cells_spec. tauto.
Qed.

(** *** The Manhattan distance *)
Lemma manhattan_nonneg : nonneg_heuristic (λ s, maze_heuristic self s maze).
Proof.
  intros [r c]. unfold maze_heuristic, manhattanHeuristic.
  destruct (MazeProblem.goalState self). lia.
Qed.

Lemma manhattan_consistent :
  consistent maze edge_cost (λ s, maze_heuristic self s maze).
Proof.
  intros [r c] e He. change (e ∈ MazeProblem.getSuccessors self (r, c)) in He.
  apply maze_successor_iff in He as (action & dr & dc & Hin & -> & _).
  unfold maze_heuristic, manhattanHeuristic, edge_target, edge_cost. simpl.
  destruct (MazeProblem.goalState self) as [r2 c2].
  unfold MazeProblem.possible_actions in Hin.
  repeat (apply elem_of_cons in Hin as [Heq|Hin]; [simplify_eq; simpl; lia|]).
  by apply elem_of_nil in Hin.
Qed.

Lemma manhattan_goal (state : Z * Z) :
  isGoalState (Problem:=maze) state = true →
  maze_heuristic self state maze = 0%Z.
Proof.
  intros ->%bool_decide_eq_true. unfold maze_heuristic, manhattanHeuristic.
  destruct (MazeProblem.goalState self). lia.
Qed.

Lemma manhattan_admissible : admissible maze (λ s, maze_heuristic self s maze).
Proof.
  intros s es t Hw Hgoal.
  pose proof (consistent_walk maze edge_cost _ s es t manhattan_consistent Hw)
    as Hle.
  simpl in Hle. rewrite (manhattan_goal t Hgoal) in Hle.
  unfold path_cost. lia.
Qed.
End maze_proofs.

(** ** search.py: unit step costs *)
Section unit_cost_proofs.
Context {State Action : Type} `{Countable State}.
Context (problem : Problem State Action).

Lemma unit_path_cost s es t :
  unit_costs problem → walk problem s es t →
  path_cost es = Z.of_nat (length es).
Proof.
  intros Hunit Hw. induction Hw as [|es u e Hw IH He]; [done|].
  unfold path_cost in *. rewrite weight_snoc, IH, (Hunit u e He), length_app.
  simpl. lia.
Qed.

Lemma unit_nonneg_costs : unit_costs problem → nonneg_costs problem.
Proof. intros Hunit s e He. rewrite (Hunit s e He). lia. Qed.

(** With unit step costs a path of least cost is one of fewest actions. *)
Lemma least_cost_fewest_actions r :
  unit_costs problem → least_cost_answer problem r →
  fewest_actions_answer problem r.
Proof.
  intros Hunit (p & -> & es & Hgoal & <- & Hleast).
  exists (actions es). split_and!; [done|by exists es|].
  intros p' (es' & Hgoal' & <-). specialize (Hleast es' Hgoal').
  destruct Hgoal as (t & Hw & _), Hgoal' as (t' & Hw' & _).
  unfold path_cost in *.
  pose proof (unit_path_cost _ _ _ Hunit Hw) as Hc.
  pose proof (unit_path_cost _ _ _ Hunit Hw') as Hc'.
  unfold path_cost in *. rewrite !actions_length. lia.
Qed.

Lemma fewest_actions_same_length p q :
  fewest_actions_answer problem (Some p) →
  fewest_actions_answer problem (Some q) → length p = length q.
Proof.
  intros (p' & [= <-] & Hp & Hpmin) (q' & [= <-] & Hq & Hqmin).
  specialize (Hpmin q Hq). specialize (Hqmin p Hp). lia.
Qed.
End unit_cost_proofs.

(** ** search.py: returned paths do not pass through a state twice *)
Section simple_proofs.
Context {State Action : Type} `{Countable State}.
Context (problem : Problem State Action).
Context {F Node : Type} `{!Fringe F Node, !SearchNode State Action Node}.
Context (node_start : Node) `{!FringeSpec problem node_start}.

Lemma walk_states_snoc (s : State) (es : list (State * Action * Z)) e :
  walk_states s (es ++ [e]) = walk_states s es ++ [edge_target e].
Proof. unfold walk_states. by rewrite fmap_app. Qed.

Lemma walk_states_reachable es t s :
  walk problem getStartState es t → s ∈ walk_states getStartState es →
  reachable problem s.
Proof.
  intros Hw. induction Hw as [|es u e Hw IH He].
  - intros ->%list_elem_of_singleton. exists []. constructor.
  - rewrite walk_states_snoc, elem_of_app.
    intros [?|Hs]; [by auto|]. apply list_elem_of_singleton in Hs as ->.
    exists (es ++ [e]). by econstructor.
Qed.

Lemma node_simple_mono visited visited' n :
  visited ⊆ visited' → node_simple problem visited n →
  node_simple problem visited' n.
Proof.
  intros Hsub (es & ? & ? & ? & Hin). exists es. split_and!; [done..|].
  intros s [?|?]%Hin; [by left|right]. by apply Hsub.
Qed.

Lemma node_simple_extend visited n e :
  node_simple problem visited n → e ∈ getSuccessors (node_state n) →
  edge_target e ∉ {[node_state n]} ∪ visited →
  node_simple problem ({[node_state n]} ∪ visited) (node_extend n e).
Proof.
  intros (es & Hw & Ha & Hnd & Hin) He Hnew.
  assert (∀ s, s ∈ walk_states getStartState es →
               s ∈ {[node_state n]} ∪ visited) as Hin'.
  { intros s [->|?]%Hin; apply elem_of_union; [left|by right].
    by apply elem_of_singleton. }
  exists (es ++ [e]).
  rewrite node_extend_state, node_extend_path, walk_states_snoc.
  split_and!.
  - by econstructor.
  - unfold actions in *. by rewrite fmap_app, Ha.
  - apply NoDup_app. split_and!; [done| |apply NoDup_singleton].
    intros s Hs ->%list_elem_of_singleton. by apply Hnew, Hin'.
  - intros s [?|Hs]%elem_of_app; [right; by apply Hin'|left].
    by apply list_elem_of_singleton in Hs.
Qed.

Lemma body_simple c :
  (∃ closed, search_inv problem node_start closed c ∧
             simple_inv problem node_start c) →
  search_cond c = true →
  ∃ r, search_body problem c = Ok r ∧
       match r with
       | inl c' => ∃ closed, search_inv problem node_start closed c' ∧
                             simple_inv problem node_start c'
       | inr x => answer_simple problem x
       end.
Proof.
  intros (closed & Hinv & Hsimple) Hne. destruct c as [f visited].
  apply negb_true_iff in Hne.
  destruct (body_cases problem node_start closed f visited Hinv Hne)
    as (n & f1 & Hpop & Hperm & Hcases).
  assert (node_simple problem visited n) as Hn.
  { apply Hsimple. simpl. rewrite Hperm. by left. }
  case_decide as Hv; [|destruct (isGoalState (node_state n)) eqn:Hgoal].
  - destruct Hcases as [-> ?]. eexists; split; [done|]. simpl.
    eexists; split; [done|]. intros m Hm. apply Hsimple. simpl.
    rewrite Hperm. by right.
  - rewrite Hcases. eexists; split; [done|]. simpl.
    destruct Hn as (es & Hw & Ha & Hnd & _).
    exists es. split_and!; [by exists (node_state n)|done..].
  - destruct Hcases as (f2 & -> & Hinv2 & Hperm2).
    eexists; split; [done|]. simpl. eexists; split; [done|].
    intros m. simpl. rewrite Hperm2, elem_of_app.
    intros [(e & -> & [Hnew He]%list_elem_of_filter)%list_elem_of_fmap|Hm].
    + by apply node_simple_extend.
    + eapply node_simple_mono; [apply union_subseteq_r|].
      apply Hsimple. simpl. rewrite Hperm. by right.
Qed.

Lemma search_simple fuel p :
  search problem node_start fuel = Ok (Some p) → simple_solution problem p.
Proof.
  unfold search. destruct init_spec as (f0 & -> & Hel & Hwf). simpl.
  intros Hrun.
  destruct (while_loop_inv search_cond (search_body problem) None
              (λ c, ∃ closed, search_inv problem node_start closed c ∧
                              simple_inv problem node_start c)
              (answer_simple problem))
    with (fuel := fuel) (c := (f0, ∅ : gset State))
    as [Hout|(x & Hx & Hpost)].
  - done.
  - apply body_simple.
  - exists []. split; [by apply inv_init|].
    intros n. simpl. rewrite Hel. intros ->%list_elem_of_singleton.
    exists []. rewrite node_start_state, node_start_path.
    split_and!; [constructor|done|apply NoDup_singleton|].
    intros s ->%list_elem_of_singleton. by left.
  - congruence.
  - rewrite Hrun in Hx. by simplify_eq.
Qed.
End simple_proofs.

(** A path without repeated states has fewer actions than there are
    reachable states. *)
Lemma simple_solution_length {State Action : Type} `{Countable State}
    (problem : Problem State Action) (R : list State) p :
  (∀ s, reachable problem s → s ∈ R) →
  simple_solution problem p → length p < length R.
Proof.
  intros HR (es & (t & Hw & _) & <- & Hnd).
  rewrite actions_length.
  assert (walk_states getStartState es ⊆+ R) as Hsub.
  { apply NoDup_submseteq; [done|].
    intros s Hs. apply HR. by eapply walk_states_reachable. }
  apply submseteq_length in Hsub. unfold walk_states in Hsub.
  simpl in Hsub. rewrite length_fmap in Hsub. lia.
Qed.

(** ** search.py: the uninformed searches do not look at step costs *)
Lemma for_each_fmap {A B S} (h : A → B) (g : S → B → result S) (l : list A) s :
  for_each l (λ s x, g s (h x)) s = for_each (h <$> l) g s.
Proof.
  revert s. induction l as [|x l IH]; intros s; simpl; [done|].
  destruct (g s (h x)); simpl; auto.
Qed.

Section cost_blind_proofs.
Context {State Action : Type} `{Countable State}.
Context (problem problem' : Problem State Action).
Hypothesis Hsame : same_up_to_costs problem problem'.

Lemma dfs_body_cost_blind c : dfs_body problem c = dfs_body problem' c.
Proof.
  destruct Hsame as (_ & Hgoal & Hsucc).
  destruct c as [fringe visited]. unfold dfs_body.
  apply bind_ext. intros [[state path] fringe1].
  case_decide; [done|]. rewrite Hgoal.
  destruct (isGoalState state); [done|]. f_equal.
  transitivity (for_each (fst <$> getSuccessors (Problem:=problem) state)
    (λ fringe '(successor, action),
       if decide (successor ∈ {[state]} ∪ visited) then mret fringe
       else mret (Stack.push fringe (successor, path ++ [action]))) fringe1).
  - rewrite <- for_each_fmap. apply for_each_ext.
    by intros f [[successor action] stepCost].
  - rewrite Hsucc, <- for_each_fmap. apply for_each_ext.
    by intros f [[successor action] stepCost].
Qed.

Lemma bfs_body_cost_blind c : bfs_body problem c = bfs_body problem' c.
Proof.
  destruct Hsame as (_ & Hgoal & Hsucc).
  destruct c as [fringe visited]. unfold bfs_body.
  apply bind_ext. intros [[state path] fringe1].
  case_decide; [done|]. rewrite Hgoal.
  destruct (isGoalState state); [done|]. f_equal.
  transitivity (for_each (fst <$> getSuccessors (Problem:=problem) state)
    (λ fringe '(successor, action),
       if decide (successor ∈ {[state]} ∪ visited) then mret fringe
       else mret (Queue.push fringe (successor, path ++ [action]))) fringe1).
  - rewrite <- for_each_fmap. apply for_each_ext.
    by intros f [[successor action] stepCost].
  - rewrite Hsucc, <- for_each_fmap. apply for_each_ext.
    by intros f [[successor action] stepCost].
Qed.
End cost_blind_proofs.

(** ** utils.py: draining the containers *)
Lemma stack_pop_push {A} (s : Stack.t A) x : Stack.pop (Stack.push s x) = Ok (x, s).
Proof. destruct s as [l]. unfold Stack.pop, Stack.push. simpl.
  by rewrite list_pop_snoc. Qed.

Lemma queue_foldl_push {A} (l : list A) (q : Queue.t A) :
  foldl Queue.push q l = Queue.mk (Queue.queue q ++ l).
Proof.
  revert q. induction l as [|x l IH]; intros [q]; simpl.
  - by rewrite app_nil_r.
  - rewrite IH. simpl. by rewrite <- app_assoc.
Qed.

Lemma queue_drain_list {A} (l : list A) :
  pop_many Queue.pop (length l) (Queue.mk l) = Ok (l, Queue.mk []).
Proof. induction l as [|x l IH]; simpl; [done|]. by rewrite IH. Qed.

Section pq_drain_proofs.
Context {Item : Type} (item_lt : Item → Item → result bool).

Lemma pq_drain (n : nat) (q : PriorityQueue.t) :
  pq_wf q → length (PriorityQueue.heap q) = n →
  ∃ es q', pop_many (PriorityQueue.pop item_lt) n q
             = Ok (PriorityQueue.entry_item <$> es, q') ∧
           es ≡ₚ PriorityQueue.heap q ∧ StronglySorted key_le es ∧
           PriorityQueue.isEmpty q' = true.
Proof.
  revert q. induction n as [|n IH]; intros q Hwf Hlen.
  - exists [], q. split_and!; [done| |constructor|].
    + symmetry. apply Permutation_nil_r. by apply length_zero_iff_nil.
    + by apply bool_decide_eq_true.
  - assert (PriorityQueue.isEmpty q = false) as Hne.
    { apply bool_decide_eq_false. lia. }
    destruct (pq_pop_spec item_lt q Hwf Hne)
      as (e & q1 & Hpop & Hperm & Hwf1 & _ & Hmin).
    destruct (IH q1 Hwf1) as (es & q' & Hrun & Hperm' & Hsorted & Hempty).
    { apply Permutation_length in Hperm. simpl in Hperm. lia. }
    exists (e :: es), q'. simpl. rewrite Hpop. simpl. rewrite Hrun. simpl.
    split_and!; [done|by rewrite Hperm, Hperm'| |done].
    constructor; [done|]. apply Forall_forall. intros y Hy.
    apply Hmin. rewrite Hperm. right. by rewrite <- Hperm'.
Qed.
End pq_drain_proofs.

(** ** heapq.heapify and PriorityQueue.update *)
Lemma bind_Ok_intro {A B} (m : result A) (f : A → result B) a r :
  m = Ok a → f a = r → m ≫= f = r.
Proof. by intros -> <-. Qed.

Section heapify_proofs.
Context {Item : Type} (item_lt : Item → Item → result bool).
Local Abbreviation entry := (@PriorityQueue.entry Item).
Local Abbreviation cnt := PriorityQueue.entry_count.
Local Abbreviation elt := (PriorityQueue.entry_lt item_lt).
Implicit Types (h orig : list entry) (x y new : entry).

Lemma below_le k pos : below k pos → k ≤ pos.
Proof.
  induction 1 as [|p c _ IH Hc%is_child_lt]; lia.
Qed.

Lemma below_parent k pos pp :
  below k pos → k ≠ pos → is_child pp pos → below k pp.
Proof.
  intros Hb Hne Hpp. destruct Hb as [|p c Hb Hc]; [done|].
  by rewrite (is_child_inj pp p c).
Qed.

Lemma insert_distinct orig h pos new i j x y :
  NoDup (cnt <$> orig) → <[pos:=new]> h ≡ₚ orig →
  i ≠ j → <[pos:=new]> h !! i = Some x → <[pos:=new]> h !! j = Some y →
  cnt x ≠ cnt y.
Proof.
  intros Hnd Hperm Hij Hi Hj Heq. rewrite <- Hperm in Hnd. apply Hij.
  eapply (NoDup_lookup _ i j (cnt x) Hnd);
    rewrite list_lookup_fmap; [by rewrite Hi | by rewrite Hj, Heq].
Qed.

Lemma hole_from_insert k h pos x :
  hole_from k h pos → hole_from k (<[pos:=x]> h) pos.
Proof.
  intros [H1 H2]. split.
  - intros p c a b Hc Hk Hp Hcp.
    rewrite !list_lookup_insert_ne by done. eauto.
  - intros p c a b Hp Hc Hk.
    apply is_child_lt in Hp as Hp'.
    apply is_child_lt in Hc as Hc'.
    rewrite !list_lookup_insert_ne by lia. eauto.
Qed.

Lemma hole_from_fill k h pos new :
  hole_from k h pos → pos < length h →
  (∀ p y, is_child p pos → k ≤ p → h !! p = Some y → key_le y new) →
  (∀ c y, is_child pos c → h !! c = Some y → key_le new y) →
  heap_from k (<[pos:=new]> h).
Proof.
  intros [H1 H2] Hlen Hup Hdown p c x y Hc Hk Hp Hcy.
  apply is_child_lt in Hc as Hlt.
  destruct (decide (p = pos)) as [->|Hp'].
  - rewrite list_lookup_insert_eq in Hp by done.
    rewrite list_lookup_insert_ne in Hcy by lia. simplify_eq. eauto.
  - rewrite list_lookup_insert_ne in Hp by done.
    destruct (decide (c = pos)) as [->|Hc'].
    + rewrite list_lookup_insert_eq in Hcy by done. simplify_eq. eauto.
    + rewrite list_lookup_insert_ne in Hcy by done. eauto.
Qed.

Lemma hole_from_up k h pos pp parent :
  hole_from k h pos → is_child pp pos → k ≤ pp → h !! pp = Some parent →
  hole_from k (<[pos:=parent]> h) pp.
Proof.
  intros [H1 H2] Hpp Hk Hparent.
  apply is_child_lt in Hpp as Hlt. split.
  - intros p c x y Hc Hkp Hp Hcp Hx Hy.
    destruct (decide (c = pos)) as [->|Hc'].
    { destruct Hp. by eapply is_child_inj. }
    rewrite list_lookup_insert_ne in Hy by done.
    destruct (decide (p = pos)) as [->|Hp'].
    + assert (pos < length h).
      { apply is_child_lt in Hc.
        apply lookup_lt_Some in Hy. lia. }
      rewrite list_lookup_insert_eq in Hx by done. simplify_eq. eauto.
    + rewrite list_lookup_insert_ne in Hx by done. eauto.
  - intros p c x y Hp Hc Hkp Hx Hy.
    apply is_child_lt in Hp as Hlt'.
    rewrite list_lookup_insert_ne in Hx by lia.
    assert (key_le x parent) by (eapply (H1 p pp); eauto; lia).
    destruct (decide (c = pos)) as [->|Hc'].
    + assert (pos < length h).
      { apply lookup_lt_Some in Hy. by rewrite length_insert in Hy. }
      rewrite list_lookup_insert_eq in Hy by done. by simplify_eq.
    + rewrite list_lookup_insert_ne in Hy by done.
      eapply key_le_trans; [done|]. eapply (H1 pp c); eauto; lia.
Qed.

Lemma hole_from_down k h pos c child :
  hole_from k h pos → k ≤ pos → is_child pos c → h !! c = Some child →
  (∀ s z, is_child pos s → h !! s = Some z → key_le child z) →
  hole_from k (<[pos:=child]> h) c.
Proof.
  intros [H1 H2] Hk Hc Hchild Hmin.
  apply is_child_lt in Hc as Hlt.
  assert (pos < length h) by (apply lookup_lt_Some in Hchild; lia).
  split.
  - intros p d x y Hd Hkp Hp Hdc Hx Hy.
    destruct (decide (d = pos)) as [->|Hd'].
    + rewrite list_lookup_insert_eq in Hy by done.
      apply is_child_lt in Hd as ?.
      rewrite list_lookup_insert_ne in Hx by lia. simplify_eq. eauto.
    + rewrite list_lookup_insert_ne in Hy by done.
      destruct (decide (p = pos)) as [->|Hp'].
      * rewrite list_lookup_insert_eq in Hx by done. simplify_eq. eauto.
      * rewrite list_lookup_insert_ne in Hx by done. eauto.
  - intros p d x y Hp Hd Hkp Hx Hy.
    assert (p = pos) as -> by by eapply is_child_inj.
    apply is_child_lt in Hd as ?.
    rewrite list_lookup_insert_eq in Hx by done.
    rewrite list_lookup_insert_ne in Hy by lia. simplify_eq.
    eapply (H1 c d); eauto; lia.
Qed.

Lemma siftdown_from orig k fuel h pos new :
  NoDup (cnt <$> orig) → pos ≤ fuel → pos < length h → below k pos →
  hole_from k h pos → <[pos:=new]> h ≡ₚ orig →
  (∀ c y, is_child pos c → h !! c = Some y → key_le new y) →
  ∃ h', heapq.siftdown_loop elt fuel h k pos new = Ok h' ∧
        heap_from k h' ∧ h' ≡ₚ orig.
Proof.
  intros Hnd. revert h pos.
  induction fuel as [|fuel IH];
    intros h pos Hfuel Hlen Hbelow Hhole Hperm Hdown;
    cbn [heapq.siftdown_loop].
  - rewrite decide_False by lia. rewrite list_set_Ok by done.
    eexists; split_and!; [done| |done].
    apply hole_from_fill; [done..| |done].
    intros p y Hp%is_child_lt. lia.
  - apply below_le in Hbelow as Hk. case_decide as Hpos; last first.
    { rewrite list_set_Ok by done. eexists; split_and!; [done| |done].
      apply hole_from_fill; [done..| |done].
      intros p y Hp%is_child_lt. lia. }
    pose proof (parent_is_child pos ltac:(lia)) as Hpp.
    set (pp := (pos - 1) `div` 2) in *.
    apply is_child_lt in Hpp as Hlt.
    assert (below k pp) as Hbelow' by (eapply below_parent; [done|lia|done]).
    apply below_le in Hbelow' as Hk'.
    destruct (lookup_lt_is_Some_2 h pp) as [parent Hparent]; [lia|].
    rewrite (list_get_Ok _ _ _ Hparent). simpl.
    rewrite entry_lt_distinct; last first.
    { eapply (insert_distinct orig h pos new pos pp); eauto; [lia|..].
      - by apply list_lookup_insert_eq.
      - by rewrite list_lookup_insert_ne by lia. }
    simpl. case_bool_decide as Hcmp.
    + rewrite list_set_Ok by done. simpl.
      apply IH; [lia|rewrite length_insert; lia|done|by eapply hole_from_up| |].
      * rewrite insert_insert_Permutation; [done|lia|done|done].
      * intros c y Hc Hy. destruct (decide (c = pos)) as [->|Hc'].
        -- rewrite list_lookup_insert_eq in Hy by done. simplify_eq.
           by apply key_lt_le.
        -- rewrite list_lookup_insert_ne in Hy by done.
           eapply key_le_trans; [by apply key_lt_le|].
           destruct Hhole as [H1 _]. eapply (H1 pp c); eauto; lia.
    + rewrite list_set_Ok by done. eexists; split_and!; [done| |done].
      apply hole_from_fill; [done..| |done].
      intros p y Hp _ Hy.
      assert (p = pp) as -> by (eapply is_child_inj; eauto).
      simplify_eq. by apply not_key_lt_le.
Qed.

Lemma siftup_loop_from orig k fuel h pos new :
  NoDup (cnt <$> orig) → length h - pos ≤ fuel → pos < length h →
  below k pos → hole_from k h pos → <[pos:=new]> h ≡ₚ orig →
  ∃ h' pos', heapq.siftup_loop elt fuel h (length h) pos = Ok (h', pos') ∧
             pos' < length h' ∧ below k pos' ∧ hole_from k h' pos' ∧
             <[pos':=new]> h' ≡ₚ orig ∧ length h' ≤ 2 * pos' + 1.
Proof.
  intros Hnd. revert h pos.
  induction fuel as [|fuel IH]; intros h pos Hfuel Hlen Hbelow Hhole Hperm;
    cbn [heapq.siftup_loop].
  - rewrite decide_False by lia. eexists _, _. split_and!; [done..|lia].
  - case_decide as Hleft; last first.
    { eexists _, _. split_and!; [done..|lia]. }
    assert (∃ c child,
      (if decide (2 * pos + 1 + 1 < length h)
       then l ← list_get h (2 * pos + 1);
            r ← list_get h (2 * pos + 1 + 1);
            b ← elt l r;
            mret (if (b : bool) then 2 * pos + 1 else 2 * pos + 1 + 1)
       else mret (2 * pos + 1)) = Ok c ∧
      is_child pos c ∧ h !! c = Some child ∧
      ∀ s z, is_child pos s → h !! s = Some z → key_le child z)
      as (c & child & -> & Hc & Hchild & Hmin).
    { destruct (lookup_lt_is_Some_2 h (2 * pos + 1)) as [l Hl]; [lia|].
      case_decide as Hright.
      - destruct (lookup_lt_is_Some_2 h (2 * pos + 1 + 1)) as [r Hr]; [lia|].
        rewrite (list_get_Ok _ _ _ Hl), (list_get_Ok _ _ _ Hr). simpl.
        rewrite entry_lt_distinct; last first.
        { eapply (insert_distinct orig h pos new
                    (2 * pos + 1) (2 * pos + 1 + 1)); eauto; [lia|..];
            by rewrite list_lookup_insert_ne by lia. }
        simpl. case_bool_decide as Hcmp.
        + exists (2 * pos + 1), l. split_and!; [done|left; lia|done|].
          intros s z [->| ->] Hz; simplify_eq; [apply key_le_refl|].
          replace (2 * pos + 2) with (2 * pos + 1 + 1) in Hz by lia.
          simplify_eq. by apply key_lt_le.
        + exists (2 * pos + 1 + 1), r.
          split_and!; [done|right; lia|done|].
          intros s z [->| ->] Hz; simplify_eq; [by apply not_key_lt_le|].
          replace (2 * pos + 2) with (2 * pos + 1 + 1) in Hz by lia.
          simplify_eq. apply key_le_refl.
      - exists (2 * pos + 1), l. split_and!; [done|left; lia|done|].
        intros s z [->| ->] Hz; simplify_eq; [apply key_le_refl|].
        apply lookup_lt_Some in Hz. lia. }
    simpl. rewrite (list_get_Ok _ _ _ Hchild). simpl.
    rewrite list_set_Ok by done. simpl.
    apply is_child_lt in Hc as Hlt. apply below_le in Hbelow as Hk.
    rewrite <- (length_insert h pos child).
    apply IH.
    + rewrite length_insert. lia.
    + rewrite length_insert. by apply lookup_lt_Some in Hchild.
    + by eapply below_child.
    + by eapply hole_from_down.
    + rewrite insert_insert_Permutation; [done|lia|done|done].
Qed.

(** [_siftup] at index [k] extends the heap below [k + 1] to [k]. *)
Lemma siftup_from k h :
  NoDup (cnt <$> h) → k < length h → heap_from (S k) h →
  ∃ h', heapq._siftup elt h k = Ok h' ∧ heap_from k h' ∧ h' ≡ₚ h.
Proof.
  intros Hnd Hk Hheap. unfold heapq._siftup.
  destruct (lookup_lt_is_Some_2 h k Hk) as [new Hnew].
  rewrite (list_get_Ok _ _ _ Hnew). simpl.
  destruct (siftup_loop_from h k (length h) h k new)
    as (h1 & pos1 & -> & Hlen1 & Hbelow1 & Hhole1 & Hperm1 & Hleaf);
    [done|lia|done|constructor| |by rewrite list_insert_id|].
  { split.
    - intros p c x y Hc Hp Hpk _. apply (Hheap p c x y Hc). lia.
    - intros p c x y Hp%is_child_lt _ Hkp. lia. }
  simpl. rewrite list_set_Ok by done. simpl.
  unfold heapq._siftdown.
  rewrite (list_get_Ok _ _ new) by by apply list_lookup_insert_eq.
  simpl. apply siftdown_from; [done|lia|by rewrite length_insert|done| | |].
  - by apply hole_from_insert.
  - by rewrite list_insert_insert_eq.
  - intros c y Hc Hy%lookup_lt_Some.
    rewrite length_insert in Hy. unfold is_child in Hc. lia.
Qed.

Lemma heapify_loop_spec m h :
  NoDup (cnt <$> h) → m ≤ length h → heap_from m h →
  ∃ h', heapq.heapify_loop elt (reverse (seq 0 m)) h = Ok h' ∧
        heap_ok h' ∧ h' ≡ₚ h.
Proof.
  revert h. induction m as [|m IH]; intros h Hnd Hm Hheap.
  - exists h. split_and!; [done| |done].
    intros p c x y Hc. apply (Hheap p c x y Hc). lia.
  - rewrite seq_S, reverse_snoc. simpl.
    destruct (siftup_from m h) as (h1 & -> & Hheap1 & Hperm1);
      [done|lia|done|].
    simpl. destruct (IH h1) as (h' & -> & Hok & Hperm'); [| |done|].
    + by rewrite Hperm1.
    + apply Permutation_length in Hperm1. lia.
    + exists h'. split_and!; [done..|]. by rewrite Hperm'.
Qed.

(** [heapify] turns any list of entries with distinct sequence numbers
    into a heap of the same entries. *)
Lemma heapify_spec h :
  NoDup (cnt <$> h) →
  ∃ h', heapq.heapify elt h = Ok h' ∧ heap_ok h' ∧ h' ≡ₚ h.
Proof.
  intros Hnd. unfold heapq.heapify.
  pose proof (Nat.div_mod_eq (length h) 2) as Hd.
  pose proof (Nat.mod_upper_bound (length h) 2) as Hm.
  apply heapify_loop_spec; [done|lia|].
  intros p c x y Hc Hp _ Hy%lookup_lt_Some. unfold is_child in Hc. lia.
Qed.

Context (item_eq : Item → Item → bool).
Local Abbreviation matches item :=
  (λ e : entry, item_eq (PriorityQueue.entry_item e) item = true).

Lemma update_loop_spec (q : PriorityQueue.t) item priority pre rest :
  pq_wf q → PriorityQueue.heap q = pre ++ rest →
  match list_find (matches item) rest with
  | None =>
      PriorityQueue.update_loop item_lt item_eq q item priority
        (length pre) rest = Ok None
  | Some (j, e) =>
      if decide (priority < PriorityQueue.entry_priority e)%Z then
        ∃ q', PriorityQueue.update_loop item_lt item_eq q item priority
                (length pre) rest = Ok (Some q') ∧
              pq_wf q' ∧
              PriorityQueue.heap q' ≡ₚ
                <[length pre + j := (priority, cnt e, item)]>
                  (PriorityQueue.heap q) ∧
              PriorityQueue.count q' = PriorityQueue.count q
      else PriorityQueue.update_loop item_lt item_eq q item priority
             (length pre) rest = Ok (Some q)
  end.
Proof.
  intros (Hheap & Hnd & Hlt). revert pre.
  induction rest as [|[[p c] i] rest IH]; intros pre Hpre; [done|].
  cbn [list_find PriorityQueue.update_loop].
  destruct (item_eq i item) eqn:Heq.
  - rewrite decide_True by done.
    change (PriorityQueue.entry_priority (p, c, i)) with p.
    change (cnt (p, c, i)) with c.
    case_decide as Hlower; [|done].
    assert (PriorityQueue.heap q !! length pre = Some (p, c, i)) as Hidx.
    { rewrite Hpre. by apply list_lookup_middle. }
    rewrite list_set_Ok by by eapply lookup_lt_Some.
    cbn [mbind result_bind].
    assert (cnt <$> <[length pre:=(priority, c, item)]> (PriorityQueue.heap q)
            = cnt <$> PriorityQueue.heap q) as Hcnt.
    { rewrite list_fmap_insert. apply list_insert_id.
      rewrite list_lookup_fmap. exact (f_equal (fmap cnt) Hidx). }
    destruct (heapify_spec
                (<[length pre:=(priority, c, item)]> (PriorityQueue.heap q)))
      as (h' & Hheapify & Hok & Hperm); [by rewrite Hcnt|].
    eexists. rewrite Nat.add_0_r.
    split_and!; [by eapply bind_Ok_intro; [exact Hheapify|]| |done|done].
    split_and!; simpl; [done|by rewrite Hperm, Hcnt|].
    intros e He. rewrite Hperm in He.
    apply list_elem_of_fmap_2 with (f := cnt) in He.
    rewrite Hcnt in He.
    apply list_elem_of_fmap in He as (e' & -> & He'). by apply Hlt.
  - rewrite decide_False; last first.
    { unfold PriorityQueue.entry_item. simpl. congruence. }
    specialize (IH (pre ++ [(p, c, i)])).
    rewrite length_app in IH. simpl in IH.
    replace (length pre + 1) with (S (length pre)) in IH by lia.
    specialize (IH ltac:(by rewrite <- app_assoc)).
    destruct (list_find (matches item) rest) as [[j e]|]; simpl; [|done].
    replace (length pre + S j) with (S (length pre) + j) by lia. done.
Qed.

(** What [update] does on a well-formed queue, by the first entry whose
    payload equals the item. *)
Lemma update_spec (q : PriorityQueue.t) item priority :
  pq_wf q →
  match first_match item_eq item (PriorityQueue.heap q) with
  | None =>
      PriorityQueue.update item_lt item_eq q item priority
      = PriorityQueue.push item_lt q item priority
  | Some (index, e) =>
      if decide (priority < PriorityQueue.entry_priority e)%Z then
        ∃ q', PriorityQueue.update item_lt item_eq q item priority = Ok q' ∧
              pq_wf q' ∧
              PriorityQueue.heap q' ≡ₚ
                <[index := (priority, cnt e, item)]> (PriorityQueue.heap q) ∧
              PriorityQueue.count q' = PriorityQueue.count q
      else PriorityQueue.update item_lt item_eq q item priority = Ok q
  end.
Proof.
  intros Hwf. unfold PriorityQueue.update, first_match.
  pose proof (update_loop_spec q item priority [] (PriorityQueue.heap q)
                Hwf eq_refl) as Hloop.
  simpl in Hloop.
  destruct (list_find (matches item) (PriorityQueue.heap q)) as [[j e]|].
  - case_decide.
    + destruct Hloop as (q' & -> & ? & ? & ?). simpl. eauto.
    + by rewrite Hloop.
  - by rewrite Hloop.
Qed.
End heapify_proofs.

(** ** maze_problem.py: reading the file *)
Lemma enumerate_snoc {A} (l : list A) x :
  MazeProblem.enumerate (l ++ [x]) = MazeProblem.enumerate l ++ [(length l, x)].
Proof.
  unfold MazeProblem.enumerate. rewrite imap_app. simpl.
  by rewrite Nat.add_0_r.
Qed.

Lemma row_positions_snoc ch r row x :
  row_positions ch r (row ++ [x])
  = row_positions ch r row
    ++ (if decide (x = ch) then [(Z.of_nat r, Z.of_nat (length row))] else []).
Proof.
  unfold row_positions. rewrite enumerate_snoc, omap_app. simpl.
  by case_decide.
Qed.

Lemma positions_snoc ch rows row :
  positions ch (rows ++ [row])
  = positions ch rows ++ row_positions ch (length rows) row.
Proof.
  unfold positions. rewrite imap_app, join_app. simpl.
  by rewrite Nat.add_0_r, app_nil_r.
Qed.

Lemma elem_of_row_positions ch r row (q : Z * Z) :
  q ∈ row_positions ch r row ↔
  ∃ j, q = (Z.of_nat r, Z.of_nat j) ∧ row !! j = Some ch.
Proof.
  induction row as [|x row IH] using rev_ind.
  - split; [by intros ?%elem_of_nil|by intros (j & _ & ?)].
  - rewrite row_positions_snoc, elem_of_app, IH. split.
    + intros [(j & -> & Hj)|Hq].
      * exists j. split; [done|]. rewrite lookup_app_l; [done|].
        by eapply lookup_lt_Some.
      * case_decide as Hx; [|by apply elem_of_nil in Hq].
        apply list_elem_of_singleton in Hq as ->. subst x.
        exists (length row). split; [done|]. by apply list_lookup_middle.
    + intros (j & -> & Hj). apply lookup_snoc_Some in Hj as [[? ?]|[-> ->]].
      * left. by exists j.
      * right. rewrite decide_True by done. by apply list_elem_of_singleton.
Qed.

Lemma elem_of_positions ch rows (q : Z * Z) :
  q ∈ positions ch rows ↔
  ∃ i j row, q = (Z.of_nat i, Z.of_nat j) ∧
             rows !! i = Some row ∧ row !! j = Some ch.
Proof.
  induction rows as [|row rows IH] using rev_ind.
  - split; [by intros ?%elem_of_nil|by intros (i & j & row & _ & ? & _)].
  - rewrite positions_snoc, elem_of_app, IH, elem_of_row_positions. split.
    + intros [(i & j & row' & -> & Hi & Hj)|(j & -> & Hj)].
      * exists i, j, row'. split_and!; [done| |done].
        rewrite lookup_app_l; [done|]. by eapply lookup_lt_Some.
      * exists (length rows), j, row. split_and!; [done| |done].
        by apply list_lookup_middle.
    + intros (i & j & row' & -> & Hi & Hj).
      apply lookup_snoc_Some in Hi as [[? ?]|[-> ->]].
      * left. by exists i, j, row'.
      * right. by exists j.
Qed.

Lemma elem_of_positions_grid_at ch rows (q : Z * Z) :
  q ∈ positions ch rows ↔ grid_at rows q = Some ch.
Proof.
  rewrite elem_of_positions. unfold grid_at. destruct q as [r c]. simpl. split.
  - intros (i & j & row & [= -> ->] & Hi & Hj).
    rewrite decide_True by lia. rewrite !Nat2Z.id, Hi. done.
  - case_decide as Hpos; [|done].
    destruct (rows !! Z.to_nat r) as [row|] eqn:Hrow; [|done]. simpl.
    intros Hc. exists (Z.to_nat r), (Z.to_nat c), row.
    split_and!; [|done..]. f_equal; lia.
Qed.

(** The last position of a character comes after all its other
    positions in reading order. *)
Lemma last_row_positions ch r row p :
  last (row_positions ch r row) = Some p →
  ∀ q, q ∈ row_positions ch r row → reads_before q p.
Proof.
  induction row as [|x row IH] using rev_ind; [done|].
  rewrite row_positions_snoc. case_decide as Hx.
  - rewrite last_snoc. intros [= <-] q.
    rewrite elem_of_app, elem_of_row_positions.
    intros [(j & -> & Hj%lookup_lt_Some)|Hq].
    + unfold reads_before. simpl. lia.
    + apply list_elem_of_singleton in Hq as ->.
      unfold reads_before. simpl. lia.
  - by rewrite app_nil_r.
Qed.

Lemma last_positions ch rows p :
  last (positions ch rows) = Some p →
  ∀ q, q ∈ positions ch rows → reads_before q p.
Proof.
  induction rows as [|row rows IH] using rev_ind; [done|].
  rewrite positions_snoc, last_app.
  destruct (last (row_positions ch (length rows) row)) as [p'|] eqn:Hlast.
  - intros [= ->] q. rewrite elem_of_app.
    intros [(i & j & row' & -> & Hi%lookup_lt_Some & _)%elem_of_positions|Hq].
    + apply last_Some_elem_of, elem_of_row_positions in Hlast
        as (j' & -> & _).
      unfold reads_before. simpl. lia.
    + by eapply last_row_positions.
  - apply last_None in Hlast. rewrite Hlast, app_nil_r. exact IH.
Qed.

Section parse_proofs.
Context (isspace : MazeProblem.char → bool).

(** The loop over the characters of one line. *)
Lemma scan_row r row st :
  ∃ st', foldl (MazeProblem.scan_char r) ([], st) (MazeProblem.enumerate row)
         = (row, st') ∧
    MazeProblem.scan_grid st' = MazeProblem.scan_grid st ∧
    MazeProblem.scan_walls st'
    = MazeProblem.scan_walls st
      ∪ list_to_set (row_positions MazeProblem.wall_char r row) ∧
    MazeProblem.scan_start st'
    = match last (row_positions MazeProblem.start_char r row) with
      | Some p => Some p
      | None => MazeProblem.scan_start st
      end ∧
    MazeProblem.scan_goal st'
    = match last (row_positions MazeProblem.goal_char r row) with
      | Some p => Some p
      | None => MazeProblem.scan_goal st
      end.
Proof.
  induction row as [|x row IH] using rev_ind.
  - exists st. split_and!; [done..| |done|done].
    simpl. by rewrite union_empty_r_L.
  - destruct IH as (st1 & Hrun & Hgrid & Hwalls & Hstart & Hgoal).
    rewrite enumerate_snoc, foldl_snoc, Hrun, !row_positions_snoc.
    unfold MazeProblem.scan_char.
    destruct (decide (x = MazeProblem.wall_char)) as [->|Hw];
      [|destruct (decide (x = MazeProblem.start_char)) as [->|Hs];
        [|destruct (decide (x = MazeProblem.goal_char)) as [->|Hg]]].
    + eexists. split; [done|]. simpl.
      rewrite !app_nil_r, list_to_set_snoc_L, Hwalls.
      split_and!; [done| |done..].
      by rewrite (union_comm_L {[_]}), union_assoc_L.
    + eexists. split; [done|]. simpl.
      rewrite !app_nil_r, last_snoc. done.
    + eexists. split; [done|]. simpl.
      rewrite !app_nil_r, last_snoc. done.
    + exists st1. split; [done|]. by rewrite !app_nil_r.
Qed.

(** The loop over the lines of the file. *)
Lemma scan_lines (f : list (list MazeProblem.char)) :
  let rows := MazeProblem.strip isspace <$> f in
  foldl (MazeProblem.scan_line isspace) (MazeProblem.mk_scan [] ∅ None None)
    (MazeProblem.enumerate f)
  = MazeProblem.mk_scan rows
      (list_to_set (positions MazeProblem.wall_char rows))
      (last (positions MazeProblem.start_char rows))
      (last (positions MazeProblem.goal_char rows)).
Proof.
  induction f as [|line f IH] using rev_ind; [done|].
  simpl in *. rewrite enumerate_snoc, foldl_snoc, IH.
  unfold MazeProblem.scan_line.
  destruct (scan_row (length f) (MazeProblem.strip isspace line)
              (MazeProblem.mk_scan (MazeProblem.strip isspace <$> f)
                 (list_to_set (positions MazeProblem.wall_char
                                 (MazeProblem.strip isspace <$> f)))
                 (last (positions MazeProblem.start_char
                          (MazeProblem.strip isspace <$> f)))
                 (last (positions MazeProblem.goal_char
                          (MazeProblem.strip isspace <$> f)))))
    as (st' & -> & Hgrid & Hwalls & Hstart & Hgoal).
  simpl in *. rewrite Hgrid, Hwalls, Hstart, Hgoal.
  rewrite fmap_app.
  change (MazeProblem.strip isspace <$> [line])
    with [MazeProblem.strip isspace line].
  rewrite !positions_snoc, !last_app, list_to_set_app_L.
  simpl. by rewrite length_fmap.
Qed.

(** What [__init__] leaves behind, by the last ['S'] and the last ['G']
    of the stripped lines. *)
Lemma init_spec_file (f : list (list MazeProblem.char)) :
  let rows := MazeProblem.strip isspace <$> f in
  MazeProblem.__init__ isspace (Some f)
  = match last (positions MazeProblem.start_char rows),
          last (positions MazeProblem.goal_char rows) with
    | Some s, Some g =>
        MazeProblem.Loaded
          (MazeProblem.mk rows
             (list_to_set (positions MazeProblem.wall_char rows)) s g
             (Z.of_nat (length rows))
             (Z.of_nat (length (default [] (head rows)))))
    | _, _ => MazeProblem.Exit 1
    end.
Proof.
  simpl. unfold MazeProblem.__init__. rewrite scan_lines. simpl.
  destruct (last (positions MazeProblem.start_char _)) as [s|]; [|done].
  destruct (last (positions MazeProblem.goal_char _)) as [g|]; [|done].
  do 2 f_equal. by destruct f as [|line f].
Qed.
End parse_proofs.

(** ** search.py: runs on problems that differ in their costs only *)
Section cost_blind_runs.
Context {State Action : Type} `{Countable State}.
Context (problem problem' : Problem State Action).

Lemma dfs_cost_blind fuel :
  same_up_to_costs problem problem' →
  depthFirstSearch problem fuel = depthFirstSearch problem' fuel.
Proof.
  intros Hsame. pose proof Hsame as (Hstart & _).
  unfold depthFirstSearch. rewrite Hstart. apply while_loop_ext.
  intros c. by apply dfs_body_cost_blind.
Qed.

Lemma bfs_cost_blind fuel :
  same_up_to_costs problem problem' →
  breadthFirstSearch problem fuel = breadthFirstSearch problem' fuel.
Proof.
  intros Hsame. pose proof Hsame as (Hstart & _).
  unfold breadthFirstSearch. rewrite Hstart. apply while_loop_ext.
  intros c. by apply bfs_body_cost_blind.
Qed.
End cost_blind_runs.

(** ** search.py: what holds for each of the four functions *)
Section run_proofs.
Context {State Action : Type} `{Countable State}.
Context (problem : Problem State Action).
Context (node_lt : State * list Action * Z → State * list Action * Z
                   → result bool).
Context (heuristic : State → Problem State Action → Z).

Lemma dfs_simple fuel p :
  depthFirstSearch problem fuel = Ok (Some p) → simple_solution problem p.
Proof.
  rewrite depthFirstSearch_generic.
  apply (search_simple problem _ (FringeSpec0:=stack_spec problem)).
Qed.

Lemma bfs_simple fuel p :
  breadthFirstSearch problem fuel = Ok (Some p) → simple_solution problem p.
Proof.
  rewrite breadthFirstSearch_generic.
  apply (search_simple problem _ (FringeSpec0:=queue_spec problem)).
Qed.

Lemma ucs_simple fuel p :
  uniformCostSearch problem node_lt fuel = Ok (Some p) →
  simple_solution problem p.
Proof.
  rewrite uniformCostSearch_generic.
  apply (search_simple problem _
           (FringeSpec0:=pq_spec problem node_lt ucs_priority)).
Qed.

Lemma astar_simple fuel p :
  aStarSearch problem node_lt heuristic fuel = Ok (Some p) →
  simple_solution problem p.
Proof.
  rewrite aStarSearch_generic.
  apply (search_simple problem _
           (FringeSpec0:=pq_spec problem node_lt
                           (astar_priority problem heuristic))).
Qed.

(** Soundness, termination and simple paths, for whichever of the four
    functions [run] is. *)
Lemma run_cases (run : nat → result (@answer Action)) :
  run ∈ [depthFirstSearch problem; breadthFirstSearch problem;
         uniformCostSearch problem node_lt;
         aStarSearch problem node_lt heuristic] →
  (∀ fuel, run fuel = OutOfFuel ∨
           ∃ r, run fuel = Ok r ∧ answer_ok problem r) ∧
  (finite_reachable problem → ∃ fuel r, run fuel = Ok r) ∧
  (∀ fuel p, run fuel = Ok (Some p) → simple_solution problem p).
Proof.
  intros Hrun.
  repeat (apply elem_of_cons in Hrun as [->|Hrun]);
    [| | | |by apply elem_of_nil in Hrun].
  - split_and!; [apply dfs_sound|apply dfs_terminates|apply dfs_simple].
  - split_and!; [apply bfs_sound|apply bfs_terminates|apply bfs_simple].
  - split_and!; [apply ucs_sound|apply ucs_terminates|apply ucs_simple].
  - split_and!; [apply astar_sound|apply astar_terminates|apply astar_simple].
Qed.

(** With unit step costs, a path returned by [uniformCostSearch] has
    the fewest actions. *)
Lemma ucs_fewest fuel p :
  unit_costs problem →
  uniformCostSearch problem node_lt fuel = Ok (Some p) →
  fewest_actions_answer problem (Some p).
Proof.
  intros Hunit Hrun. apply least_cost_fewest_actions; [done|].
  exists p. split; [done|].
  eapply ucs_optimal; [by apply unit_nonneg_costs|done].
Qed.

Lemma astar_fewest fuel p :
  unit_costs problem →
  nonneg_heuristic (λ s, heuristic s problem) →
  admissible problem (λ s, heuristic s problem) →
  consistent problem edge_cost (λ s, heuristic s problem) →
  aStarSearch problem node_lt heuristic fuel = Ok (Some p) →
  fewest_actions_answer problem (Some p).
Proof.
  intros Hunit Hnonneg Hadm Hcons Hrun.
  apply least_cost_fewest_actions; [done|].
  exists p. split; [done|]. by eapply astar_optimal.
Qed.

Lemma bfs_fewest fuel p :
  breadthFirstSearch problem fuel = Ok (Some p) →
  fewest_actions_answer problem (Some p).
Proof.
  intros Hrun. exists p. split; [done|]. by eapply bfs_optimal.
Qed.
End run_proofs.

(** ** utils.py: lowering a priority and popping *)
Lemma list_delete_insert_same {A} (l : list A) i x :
  delete i (<[i:=x]> l) = delete i l.
Proof.
  revert i. induction l as [|y l IH]; intros [|i]; simpl; [done..|].
  by rewrite IH.
Qed.

(** ** maze_problem.py: moves and distances *)
Section maze_move_proofs.
Context (self : MazeProblem.t).
Local Abbreviation maze := (MazeProblem.problem self).

(** No path to the goal has fewer actions than the Manhattan distance
    of the start state. *)
Lemma manhattan_lower_bound (p : list string) :
  solution maze p →
  (manhattanHeuristic (MazeProblem.startState self) self
   ≤ Z.of_nat (length p))%Z.
Proof.
  intros (es & (t & Hw & Hgoal) & <-). rewrite actions_length.
  rewrite <- (unit_path_cost maze _ es t (maze_unit_costs self) Hw).
  exact (manhattan_admissible self _ es t Hw Hgoal).
Qed.

Lemma length_maze_cells :
  length (maze_cells self)
  = Z.to_nat (MazeProblem.height self) * Z.to_nat (MazeProblem.width self).
Proof.
  unfold maze_cells.
  assert (∀ r : Z, length (c ← seqZ 0 (MazeProblem.width self); [(r, c)])
                   = Z.to_nat (MazeProblem.width self)) as Hrow.
  { intros r. rewrite <- (length_seqZ 0 (MazeProblem.width self)).
    induction (seqZ 0 (MazeProblem.width self)) as [|c cs IH]; [done|].
    cbn [mbind list_bind]. rewrite length_app, IH. done. }
  rewrite <- (length_seqZ 0 (MazeProblem.height self)).
  induction (seqZ 0 (MazeProblem.height self)) as [|r rs IH]; [done|].
  cbn [mbind list_bind]. rewrite length_app, Hrow, IH. cbn [length]. lia.
Qed.

(** A path without repeated states has at most as many actions as the
    grid has cells. *)
Lemma maze_simple_length (p : list string) :
  simple_solution maze p →
  length p
  ≤ Z.to_nat (MazeProblem.height self) * Z.to_nat (MazeProblem.width self).
Proof.
  intros Hsimple. rewrite <- length_maze_cells.
  pose proof (simple_solution_length maze
                (MazeProblem.startState self :: maze_cells self) p) as Hlen.
  simpl in Hlen. apply Nat.lt_succ_r, Hlen; [|done].
  intros s [->|Hfree%bool_decide_eq_true]%maze_reachable_free.
  - by left.
  - right. apply maze_cells_spec. tauto.
Qed.
End maze_move_proofs.

(** ** main.py: the table of algorithms *)
Section main_proofs.
Context (node_lt : (Z * Z) * list string * Z → (Z * Z) * list string * Z
                   → result bool).

Lemma solve_dfs maze fuel :
  solve node_lt "dfs" maze fuel
  = Some (depthFirstSearch (MazeProblem.problem maze) fuel).
Proof. unfold solve, alg_map. by rewrite lookup_insert_eq. Qed.

Lemma solve_bfs maze fuel :
  solve node_lt "bfs" maze fuel
  = Some (breadthFirstSearch (MazeProblem.problem maze) fuel).
Proof.
  unfold solve, alg_map.
  rewrite lookup_insert_ne by done. by rewrite lookup_insert_eq.
Qed.

Lemma solve_ucs maze fuel :
  solve node_lt "ucs" maze fuel
  = Some (uniformCostSearch (MazeProblem.problem maze) node_lt fuel).
Proof.
  unfold solve, alg_map.
  rewrite !lookup_insert_ne by done. by rewrite lookup_insert_eq.
Qed.

Lemma solve_a_star maze fuel :
  solve node_lt "a_star" maze fuel
  = Some (aStarSearch (MazeProblem.problem maze) node_lt
            (maze_heuristic maze) fuel).
Proof.
  unfold solve, alg_map.
  rewrite !lookup_insert_ne by done. by rewrite lookup_insert_eq.
Qed.

(** The function a name of the table stands for. *)
Lemma solve_run algorithm_name maze :
  algorithm_name ∈ ["dfs"; "bfs"; "ucs"; "a_star"] →
  ∃ run,
    (∀ fuel, solve node_lt algorithm_name maze fuel = Some (run fuel)) ∧
    run ∈ [depthFirstSearch (MazeProblem.problem maze);
           breadthFirstSearch (MazeProblem.problem maze);
           uniformCostSearch (MazeProblem.problem maze) node_lt;
           aStarSearch (MazeProblem.problem maze) node_lt
             (maze_heuristic maze)].
Proof.
  intros Hname.
  repeat (apply elem_of_cons in Hname as [->|Hname]);
    [| | | |by apply elem_of_nil in Hname]; eexists; split.
  - apply solve_dfs.
  - repeat first [apply list_elem_of_here | apply list_elem_of_further].
  - apply solve_bfs.
  - repeat first [apply list_elem_of_here | apply list_elem_of_further].
  - apply solve_ucs.
  - repeat first [apply list_elem_of_here | apply list_elem_of_further].
  - apply solve_a_star.
  - repeat first [apply list_elem_of_here | apply list_elem_of_further].
Qed.

(** With one of the names that look at path lengths, a returned path
    has the fewest actions. *)
Lemma solve_fewest algorithm_name maze fuel p :
  algorithm_name ∈ ["bfs"; "ucs"; "a_star"] →
  solve node_lt algorithm_name maze fuel = Some (Ok (Some p)) →
  fewest_actions_answer (MazeProblem.problem maze) (Some p).
Proof.
  intros Hname.
  repeat (apply elem_of_cons in Hname as [->|Hname]);
    [| | |by apply elem_of_nil in Hname].
  - rewrite solve_bfs. intros [= Hrun]. by eapply bfs_fewest.
  - rewrite solve_ucs. intros [= Hrun].
    eapply ucs_fewest; [apply maze_unit_costs|done].
  - rewrite solve_a_star. intros [= Hrun].
    eapply astar_fewest; [apply maze_unit_costs| | | |done].
    + apply manhattan_nonneg.
    + apply manhattan_admissible.
    + apply manhattan_consistent.
Qed.
End main_proofs.

(** * Further results on the code *)

(** Deciding a closed proposition by evaluation. *)
Ltac by_evaluation := apply (bool_decide_unpack _); vm_compute; exact I.

(** ** Facts about the examples *)
Lemma demo_same_up_to_costs c01 c01' :
  same_up_to_costs (demo_problem c01) (demo_problem c01').
Proof.
  split_and!; [done|done|]. by intros [|[|[|s]]].
Qed.

Lemma null_heuristic_ok {State Action : Type} (problem : Problem State Action) :
  nonneg_costs problem →
  nonneg_heuristic (λ s, nullHeuristic s problem) ∧
  admissible problem (λ s, nullHeuristic s problem) ∧
  consistent problem edge_cost (λ s, nullHeuristic s problem).
Proof.
  intros Hcost. split_and!.
  - by intros s.
  - intros s es t Hw _. unfold nullHeuristic. by eapply nonneg_path_cost.
  - intros s e He. unfold nullHeuristic. specialize (Hcost s e He). lia.
Qed.

Lemma demo_queue_wf :
  pq_wf (PriorityQueue.mk [(3%Z, 0, 7); (3%Z, 1, 8)] 2).
Proof.
  apply (pq_reachable_wf no_lt).
  apply (pq_reach_push _ (PriorityQueue.mk [(3%Z, 0, 7)] 1) 8 3%Z);
    [|reflexivity].
  apply (pq_reach_push _ PriorityQueue.init 7 3%Z); [|reflexivity].
  apply pq_reach_init.
Qed.

(** ** utils.py *)

(** X1.  [Stack] is last-in first-out: after the items of a list were
    pushed onto a stack, as many calls of [pop] return them in the reverse
    order and leave the stack as it was before the pushes. *)
Theorem stack_pops_in_reverse_push_order {A : Type} (l : list A)
    (s : Stack.t A) :
  pop_many Stack.pop (length l) (foldl Stack.push s l) = Ok (reverse l, s).
Proof.
  induction l as [|x l IH] using rev_ind; [done|].
  rewrite foldl_snoc, length_app, Nat.add_comm, reverse_snoc. simpl.
  rewrite stack_pop_push. simpl. by rewrite IH.
Qed.

(** X2.  [Queue] is first-in first-out: after the items of a list were
    pushed onto a queue, popping as often as the queue has items returns
    the items it held before, then the pushed ones in the order of the
    pushes, and leaves it empty. *)
Theorem queue_pops_in_push_order {A : Type} (l : list A) (q : Queue.t A) :
  pop_many Queue.pop (length (Queue.queue q) + length l)
    (foldl Queue.push q l)
  = Ok (Queue.queue q ++ l, Queue.init).
Proof. rewrite queue_foldl_push, <- length_app. apply queue_drain_list. Qed.

(** X3.  [PriorityQueue] sorts stably: after the items of a list were
    pushed onto the empty queue, as many calls of [pop] succeed, whatever
    the comparison of the payloads does, and return every pushed item
    once, in the order of their priorities and, for equal priorities, of
    their pushes; the queue is empty afterwards. *)
Theorem priority_queue_pops_in_priority_order {Item : Type}
    (item_lt : Item → Item → result bool) (l : list (Item * Z)) :
  ∃ q es q',
    push_all item_lt l PriorityQueue.init = Ok q ∧
    pop_many (PriorityQueue.pop item_lt) (length l) q
      = Ok (PriorityQueue.entry_item <$> es, q') ∧
    es ≡ₚ imap (λ i ip, (ip.2, i, ip.1)) l ∧
    StronglySorted key_le es ∧
    PriorityQueue.isEmpty q' = true.
Proof.
  destruct (push_all_spec item_lt l PriorityQueue.init)
    as (q & Hpush & Hwf & Hperm); [apply pq_wf_init|].
  simpl in Hperm. rewrite app_nil_r in Hperm.
  destruct (pq_drain item_lt (length l) q Hwf)
    as (es & q' & Hrun & Hperm' & Hsorted & Hempty).
  { apply Permutation_length in Hperm. by rewrite length_imap in Hperm. }
  exists q, es, q'. split_and!; [done..| |done|done]. by rewrite Hperm'.
Qed.

(** X4.  [heapq.heapify], which [update] calls, succeeds on every list of
    entries with pairwise distinct sequence numbers, whatever the
    comparison of the payloads does, and returns a heap of the same
    entries. *)
Theorem heapify_builds_a_heap {Item : Type}
    (item_lt : Item → Item → result bool)
    (h : list (@PriorityQueue.entry Item)) :
  NoDup (PriorityQueue.entry_count <$> h) →
  ∃ h', heapq.heapify (PriorityQueue.entry_lt item_lt) h = Ok h' ∧
        heap_ok h' ∧ h' ≡ₚ h.
Proof. apply heapify_spec. Qed.

Lemma heapify_builds_a_heap_witness :
  ∃ h', heapq.heapify (PriorityQueue.entry_lt no_lt)
          [(5%Z, 0, 7); (3%Z, 1, 8); (4%Z, 2, 9); (1%Z, 3, 6)] = Ok h' ∧
        heap_ok h' ∧
        h' ≡ₚ [(5%Z, 0, 7); (3%Z, 1, 8); (4%Z, 2, 9); (1%Z, 3, 6)].
Proof. apply (heapify_builds_a_heap no_lt). by_evaluation. Defined.

(** X5.  [update] on a well-formed queue looks at the first entry of the
    heap whose payload equals the item.  If there is none it does what
    [push] does.  If that entry's priority is not above the new one the
    queue stays as it is.  Otherwise the entry gets the new priority and
    keeps its sequence number, all other entries stay, the counter stays,
    and the queue is well-formed again. *)
Theorem update_lowers_the_first_match {Item : Type}
    (item_lt : Item → Item → result bool) (item_eq : Item → Item → bool)
    (q : PriorityQueue.t) (item : Item) (priority : Z) :
  pq_wf q →
  match first_match item_eq item (PriorityQueue.heap q) with
  | None =>
      PriorityQueue.update item_lt item_eq q item priority
      = PriorityQueue.push item_lt q item priority
  | Some (index, e) =>
      if decide (priority < PriorityQueue.entry_priority e)%Z then
        ∃ q', PriorityQueue.update item_lt item_eq q item priority = Ok q' ∧
              pq_wf q' ∧
              PriorityQueue.heap q' ≡ₚ
                <[index := (priority, PriorityQueue.entry_count e, item)]>
                  (PriorityQueue.heap q) ∧
              PriorityQueue.count q' = PriorityQueue.count q
      else PriorityQueue.update item_lt item_eq q item priority = Ok q
  end.
Proof. apply update_spec. Qed.

Lemma update_lowers_the_first_match_witness :
  let q := PriorityQueue.mk [(3%Z, 0, 7); (3%Z, 1, 8)] 2 in
  ∃ q', PriorityQueue.update no_lt Nat.eqb q 8 1%Z = Ok q' ∧
        pq_wf q' ∧
        PriorityQueue.heap q' ≡ₚ <[1 := (1%Z, 1, 8)]> (PriorityQueue.heap q) ∧
        PriorityQueue.count q' = PriorityQueue.count q.
Proof.
  exact (update_lowers_the_first_match no_lt Nat.eqb
           (PriorityQueue.mk [(3%Z, 0, 7); (3%Z, 1, 8)] 2) 8 1%Z
           demo_queue_wf).
Defined.

(** X6.  Lowering the priority of an item that is in a well-formed queue
    below the priorities of all entries makes it the next item [pop]
    returns; what is left are the other entries. *)
Theorem update_below_all_pops_next {Item : Type}
    (item_lt : Item → Item → result bool) (item_eq : Item → Item → bool)
    (q : PriorityQueue.t) (item : Item) (priority : Z) (index : nat)
    (e : PriorityQueue.entry) :
  pq_wf q →
  first_match item_eq item (PriorityQueue.heap q) = Some (index, e) →
  (∀ e', e' ∈ PriorityQueue.heap q →
         (priority < PriorityQueue.entry_priority e')%Z) →
  ∃ q' q'',
    PriorityQueue.update item_lt item_eq q item priority = Ok q' ∧
    PriorityQueue.pop item_lt q' = Ok (item, q'') ∧
    PriorityQueue.heap q'' ≡ₚ delete index (PriorityQueue.heap q).
Proof.
  intros Hwf Hfind Hlow.
  pose proof (update_spec item_lt item_eq q item priority Hwf) as Hupd.
  rewrite Hfind in Hupd.
  apply list_find_Some in Hfind as (Hidx & _ & _).
  assert (e ∈ PriorityQueue.heap q) as He by by eapply list_elem_of_lookup_2.
  rewrite decide_True in Hupd by by apply Hlow.
  destruct Hupd as (q' & Hupd & Hwf' & Hperm & _).
  set (new := (priority, PriorityQueue.entry_count e, item)) in *.
  assert (<[index:=new]> (PriorityQueue.heap q)
          ≡ₚ new :: delete index (PriorityQueue.heap q)) as Hins.
  { rewrite <- (list_delete_insert_same _ index new).
    apply delete_Permutation, list_lookup_insert_eq.
    by eapply lookup_lt_Some. }
  rewrite Hins in Hperm.
  assert (PriorityQueue.isEmpty q' = false) as Hne.
  { apply not_true_is_false. intros Hnil%pq_isEmpty_heap.
    rewrite Hnil in Hperm. by apply Permutation_nil_cons in Hperm. }
  destruct (pq_pop_spec item_lt q' Hwf' Hne)
    as (e1 & q'' & Hpop & Hperm' & _ & _ & Hmin).
  assert (e1 = new) as ->.
  { assert (e1 ∈ new :: delete index (PriorityQueue.heap q)) as He1.
    { rewrite <- Hperm, Hperm'. by left. }
    apply elem_of_cons in He1 as [?|He1]; [done|exfalso].
    assert (e1 ∈ PriorityQueue.heap q) as He1'.
    { rewrite (delete_Permutation _ _ _ Hidx). by right. }
    specialize (Hlow e1 He1').
    destruct (Hmin new) as [Hlt|[Heq _]].
    - rewrite Hperm. by left.
    - unfold new, PriorityQueue.entry_priority in *. simpl in *. lia.
    - unfold new, PriorityQueue.entry_priority in *. simpl in *. lia. }
  exists q', q''. split_and!; [done|done|].
  rewrite Hperm in Hperm'. by apply Permutation_cons_inv in Hperm'.
Qed.

Lemma update_below_all_pops_next_witness :
  let q := PriorityQueue.mk [(3%Z, 0, 7); (3%Z, 1, 8)] 2 in
  ∃ q' q'',
    PriorityQueue.update no_lt Nat.eqb q 8 1%Z = Ok q' ∧
    PriorityQueue.pop no_lt q' = Ok (8, q'') ∧
    PriorityQueue.heap q'' ≡ₚ delete 1 (PriorityQueue.heap q).
Proof.
  apply (update_below_all_pops_next no_lt Nat.eqb
           (PriorityQueue.mk [(3%Z, 0, 7); (3%Z, 1, 8)] 2) 8 1%Z 1
           (3%Z, 1, 8)).
  - exact demo_queue_wf.
  - reflexivity.
  - intros e' He'. simpl in He'.
    repeat (apply elem_of_cons in He' as [->|He']; [by vm_compute|]).
    by apply elem_of_nil in He'.
Defined.

(** ** search.py *)
Section more_search_results.
Context {State Action : Type} `{Countable State}.
Context (problem : Problem State Action).
Local Abbreviation cnode := (State * list Action * Z)%type.
Context (node_lt : cnode → cnode → result bool).
Context (heuristic : State → Problem State Action → Z).

(** X7.  A path returned by any of the four search functions replays to
    a goal state without passing through any state twice; so it has fewer
    actions than any list of all reachable states has entries. *)
Theorem returned_path_visits_no_state_twice (fuel : nat) (p : list Action) :
  depthFirstSearch problem fuel = Ok (Some p) ∨
  breadthFirstSearch problem fuel = Ok (Some p) ∨
  uniformCostSearch problem node_lt fuel = Ok (Some p) ∨
  aStarSearch problem node_lt heuristic fuel = Ok (Some p) →
  simple_solution problem p ∧
  ∀ R : list State, (∀ s, reachable problem s → s ∈ R) → length p < length R.
Proof.
  intros Hrun.
  assert (simple_solution problem p) as Hsimple.
  { destruct Hrun as [Hrun|[Hrun|[Hrun|Hrun]]].
    - by eapply dfs_simple.
    - by eapply bfs_simple.
    - by eapply ucs_simple.
    - by eapply astar_simple. }
  split; [done|]. intros R HR. by eapply simple_solution_length.
Qed.

(** X8.  When every step costs 1, a path returned by [uniformCostSearch]
    has the fewest actions among all action sequences that replay to a
    goal state; so has one returned by [aStarSearch] when the heuristic is
    non-negative, admissible and consistent. *)
Theorem unit_costs_give_fewest_actions :
  unit_costs problem →
  (∀ fuel p, uniformCostSearch problem node_lt fuel = Ok (Some p) →
             fewest_actions_answer problem (Some p)) ∧
  (nonneg_heuristic (λ s, heuristic s problem) →
   admissible problem (λ s, heuristic s problem) →
   consistent problem edge_cost (λ s, heuristic s problem) →
   ∀ fuel p, aStarSearch problem node_lt heuristic fuel = Ok (Some p) →
             fewest_actions_answer problem (Some p)).
Proof.
  intros Hunit. split.
  - intros fuel p. by apply ucs_fewest.
  - intros Hnonneg Hadm Hcons fuel p. by apply astar_fewest.
Qed.

(** X9.  When every step costs 1 and the heuristic is non-negative,
    admissible and consistent, the paths [breadthFirstSearch],
    [uniformCostSearch] and [aStarSearch] return have the same number of
    actions. *)
Theorem unit_cost_searches_agree_on_length
    (fuel1 fuel2 fuel3 : nat) (p1 p2 p3 : list Action) :
  unit_costs problem →
  nonneg_heuristic (λ s, heuristic s problem) →
  admissible problem (λ s, heuristic s problem) →
  consistent problem edge_cost (λ s, heuristic s problem) →
  breadthFirstSearch problem fuel1 = Ok (Some p1) →
  uniformCostSearch problem node_lt fuel2 = Ok (Some p2) →
  aStarSearch problem node_lt heuristic fuel3 = Ok (Some p3) →
  length p1 = length p2 ∧ length p2 = length p3.
Proof.
  intros Hunit Hnonneg Hadm Hcons H1 H2 H3.
  pose proof (bfs_fewest problem fuel1 p1 H1) as Hp1.
  pose proof (ucs_fewest problem node_lt fuel2 p2 Hunit H2) as Hp2.
  pose proof (astar_fewest problem node_lt heuristic fuel3 p3
                Hunit Hnonneg Hadm Hcons H3) as Hp3.
  split; by eapply fewest_actions_same_length.
Qed.

(** X10.  [depthFirstSearch] and [breadthFirstSearch] do not look at the
    step costs: on two problems with the same start state, the same goal
    test and the same successors and actions, they give the same result
    with every amount of fuel. *)
Theorem uninformed_searches_ignore_step_costs
    (problem' : Problem State Action) (fuel : nat) :
  same_up_to_costs problem problem' →
  depthFirstSearch problem fuel = depthFirstSearch problem' fuel ∧
  breadthFirstSearch problem fuel = breadthFirstSearch problem' fuel.
Proof.
  intros Hsame. split; [by apply dfs_cost_blind|by apply bfs_cost_blind].
Qed.
End more_search_results.

Lemma returned_path_visits_no_state_twice_witness :
  simple_solution (demo_problem 5) [20; 21; 13] ∧
  ∀ R : list nat,
    (∀ s, reachable (demo_problem 5) s → s ∈ R) → length [20; 21; 13] < length R.
Proof.
  apply (returned_path_visits_no_state_twice (demo_problem 5) no_lt
           nullHeuristic 10).
  left. vm_compute. reflexivity.
Defined.

Lemma unit_costs_give_fewest_actions_witness :
  fewest_actions_answer (demo_problem 1) (Some [10; 13]).
Proof.
  destruct (unit_costs_give_fewest_actions (demo_problem 1) no_lt
              nullHeuristic) as [Hucs _].
  - apply demo_unit_costs.
  - apply (Hucs 10). vm_compute. reflexivity.
Defined.

Lemma unit_cost_searches_agree_on_length_witness :
  length [10; 13] = length [10; 13] ∧ length [10; 13] = length [10; 13].
Proof.
  destruct (null_heuristic_ok (demo_problem 1)) as (Hnonneg & Hadm & Hcons).
  { apply demo_nonneg_costs. lia. }
  apply (unit_cost_searches_agree_on_length (demo_problem 1) no_lt
           nullHeuristic 10 10 10 [10; 13] [10; 13] [10; 13]).
  - apply demo_unit_costs.
  - exact Hnonneg.
  - exact Hadm.
  - exact Hcons.
  - vm_compute. reflexivity.
  - vm_compute. reflexivity.
  - vm_compute. reflexivity.
Defined.

Lemma uninformed_searches_ignore_step_costs_witness :
  depthFirstSearch (demo_problem 5) 10 = depthFirstSearch (demo_problem 1) 10 ∧
  breadthFirstSearch (demo_problem 5) 10
  = breadthFirstSearch (demo_problem 1) 10.
Proof.
  apply (uninformed_searches_ignore_step_costs (demo_problem 5)
           (demo_problem 1) 10).
  apply demo_same_up_to_costs.
Defined.

(** ** maze_problem.py *)

(** X11.  The successors of a state of a maze are its neighbours to the
    north, south, west and east that lie inside the bounds and are not
    walls, each with the action that leads there and the step cost 1. *)
Theorem maze_successors_are_the_free_neighbours (self : MazeProblem.t)
    (state : Z * Z) (e : Z * Z * string * Z) :
  e ∈ MazeProblem.getSuccessors self state ↔
  ∃ action dr dc,
    (action, (dr, dc)) ∈ MazeProblem.possible_actions ∧
    e = ((state.1 + dr, state.2 + dc)%Z, action, 1%Z) ∧
    (0 ≤ state.1 + dr < MazeProblem.height self)%Z ∧
    (0 ≤ state.2 + dc < MazeProblem.width self)%Z ∧
    (state.1 + dr, state.2 + dc)%Z ∉ MazeProblem.walls self.
Proof. apply maze_successor_iff. Qed.

(** X12.  A move out of a cell that is inside the bounds and not a wall
    can be taken back: the cell is among the successors of the state the
    move leads to. *)
Theorem maze_moves_can_be_taken_back (self : MazeProblem.t)
    (state : Z * Z) (e : Z * Z * string * Z) :
  maze_free self state = true →
  e ∈ MazeProblem.getSuccessors self state →
  ∃ action,
    (state, action, 1%Z) ∈ MazeProblem.getSuccessors self (edge_target e).
Proof.
  intros Hfree%bool_decide_eq_true
         (action & dr & dc & Hin & -> & Hr & Hc & Hw)%maze_successor_iff.
  destruct state as [r c]. simpl in *.
  assert (∃ action', (action', (- dr, - dc)%Z) ∈ MazeProblem.possible_actions)
    as [action' Hin'].
  { unfold MazeProblem.possible_actions in *.
    repeat (apply elem_of_cons in Hin as [Heq|Hin];
            [simplify_eq; eexists; simpl;
             repeat first [apply list_elem_of_here | apply list_elem_of_further]
            |]).
    by apply elem_of_nil in Hin. }
  exists action'.
  apply (proj2 (maze_successor_iff self ((r + dr)%Z, (c + dc)%Z)
                  ((r, c), action', 1%Z))).
  exists action', (- dr)%Z, (- dc)%Z. simpl.
  replace (r + dr + - dr)%Z with r by lia.
  replace (c + dc + - dc)%Z with c by lia.
  split; [done|]. split; [done|]. split; [lia|]. split; [lia|]. tauto.
Qed.

Lemma maze_moves_can_be_taken_back_witness :
  ∃ action,
    ((1, 1)%Z, action, 1%Z)
    ∈ MazeProblem.getSuccessors demo_maze
        (edge_target ((1, 2)%Z, "East", 1%Z)).
Proof.
  apply (maze_moves_can_be_taken_back demo_maze (1, 1)%Z
           ((1, 2)%Z, "East", 1%Z)).
  - vm_compute. reflexivity.
  - by_evaluation.
Defined.

(** X13.  Every state reachable in a maze is the start state or a cell
    inside the bounds that is not a wall; so the reachable states are
    finitely many. *)
Theorem maze_reachable_states_are_free_cells (self : MazeProblem.t)
    (state : Z * Z) :
  reachable (MazeProblem.problem self) state →
  (state = MazeProblem.startState self ∨ maze_free self state = true) ∧
  state ∈ MazeProblem.startState self :: maze_cells self.
Proof.
  intros Hreach. pose proof (maze_reachable_free self state Hreach) as Hfree.
  split; [done|]. destruct Hfree as [->|Hfree%bool_decide_eq_true].
  - by left.
  - right. apply maze_cells_spec. tauto.
Qed.

Lemma maze_reachable_states_are_free_cells_witness :
  ((1, 2)%Z = MazeProblem.startState demo_maze
   ∨ maze_free demo_maze (1, 2)%Z = true) ∧
  (1, 2)%Z ∈ MazeProblem.startState demo_maze :: maze_cells demo_maze.
Proof.
  apply (maze_reachable_states_are_free_cells demo_maze (1, 2)%Z).
  exists [((1, 2)%Z, "East", 1%Z)].
  apply (walk_snoc _ _ [] (1, 1)%Z ((1, 2)%Z, "East", 1%Z)).
  - apply walk_nil.
  - by_evaluation.
Defined.

(** X14.  On every maze the Manhattan distance to the goal is a
    non-negative heuristic that is 0 at the goal, consistent and
    admissible. *)
Theorem manhattan_heuristic_is_consistent_and_admissible
    (self : MazeProblem.t) :
  nonneg_heuristic (λ s, manhattanHeuristic s self) ∧
  (∀ s, isGoalState (Problem:=MazeProblem.problem self) s = true →
        manhattanHeuristic s self = 0%Z) ∧
  consistent (MazeProblem.problem self) edge_cost
    (λ s, manhattanHeuristic s self) ∧
  admissible (MazeProblem.problem self) (λ s, manhattanHeuristic s self).
Proof.
  split_and!.
  - exact (manhattan_nonneg self).
  - exact (manhattan_goal self).
  - exact (manhattan_consistent self).
  - exact (manhattan_admissible self).
Qed.

(** X15.  [__init__] ends the program with status 1 when the file does
    not exist; for a file that exists it either ends the program with
    status 1 or sets the maze up, and it sets the maze up exactly when
    the lines, stripped of surrounding white space, contain an ['S'] and
    a ['G']. *)
Theorem maze_file_needs_start_and_goal (isspace : MazeProblem.char → bool) :
  MazeProblem.__init__ isspace None = MazeProblem.Exit 1 ∧
  ∀ f : list (list MazeProblem.char),
    (MazeProblem.__init__ isspace (Some f) = MazeProblem.Exit 1 ∨
     ∃ m, MazeProblem.__init__ isspace (Some f) = MazeProblem.Loaded m) ∧
    ((∃ m, MazeProblem.__init__ isspace (Some f) = MazeProblem.Loaded m) ↔
     (∃ pos, grid_at (MazeProblem.strip isspace <$> f) pos
             = Some MazeProblem.start_char) ∧
     (∃ pos, grid_at (MazeProblem.strip isspace <$> f) pos
             = Some MazeProblem.goal_char)).
Proof.
  split; [done|]. intros f. rewrite init_spec_file.
  destruct (last (positions MazeProblem.start_char _)) as [s|] eqn:Hs;
    [destruct (last (positions MazeProblem.goal_char _)) as [g|] eqn:Hg|].
  - split; [right; by eexists|]. split; [intros _|by eexists].
    apply last_Some_elem_of, elem_of_positions_grid_at in Hs, Hg.
    split; by eexists.
  - split; [by left|]. split; [by intros [m ?]|].
    intros (_ & pos & Hpos%elem_of_positions_grid_at).
    apply last_None in Hg. rewrite Hg in Hpos. by apply elem_of_nil in Hpos.
  - split; [by left|]. split; [by intros [m ?]|].
    intros ((pos & Hpos%elem_of_positions_grid_at) & _).
    apply last_None in Hs. rewrite Hs in Hpos. by apply elem_of_nil in Hpos.
Qed.

(** X16.  When [__init__] sets a maze up, its grid holds the lines of
    the file stripped of surrounding white space, its height is their
    number, which is not 0, its width is the length of the first of them,
    and its walls are the positions of the grid that hold a ['%']. *)
Theorem loaded_maze_has_the_grid_of_the_file
    (isspace : MazeProblem.char → bool) (f : list (list MazeProblem.char))
    (m : MazeProblem.t) :
  MazeProblem.__init__ isspace (Some f) = MazeProblem.Loaded m →
  MazeProblem.grid m = MazeProblem.strip isspace <$> f ∧
  MazeProblem.height m = Z.of_nat (length f) ∧
  (0 < MazeProblem.height m)%Z ∧
  MazeProblem.width m
  = Z.of_nat (length (default [] (head (MazeProblem.grid m)))) ∧
  ∀ pos, pos ∈ MazeProblem.walls m ↔
         grid_at (MazeProblem.grid m) pos = Some MazeProblem.wall_char.
Proof.
  rewrite init_spec_file.
  destruct (last (positions MazeProblem.start_char _)) as [s|] eqn:Hs;
    [|done].
  destruct (last (positions MazeProblem.goal_char _)) as [g|]; [|done].
  intros [= <-]. simpl. rewrite length_fmap. split_and!; [done|done| |done|].
  - destruct f as [|line f]; [done|]. simpl. lia.
  - intros pos. by rewrite elem_of_list_to_set, elem_of_positions_grid_at.
Qed.

Lemma loaded_maze_has_the_grid_of_the_file_witness :
  MazeProblem.grid demo_maze = MazeProblem.strip ascii_isspace <$> demo_lines ∧
  MazeProblem.height demo_maze = Z.of_nat (length demo_lines) ∧
  (0 < MazeProblem.height demo_maze)%Z ∧
  MazeProblem.width demo_maze
  = Z.of_nat (length (default [] (head (MazeProblem.grid demo_maze)))) ∧
  ∀ pos, pos ∈ MazeProblem.walls demo_maze ↔
         grid_at (MazeProblem.grid demo_maze) pos
         = Some MazeProblem.wall_char.
Proof.
  apply (loaded_maze_has_the_grid_of_the_file ascii_isspace demo_lines
           demo_maze).
  vm_compute. reflexivity.
Defined.

(** X17.  When [__init__] sets a maze up, the start state is the
    position of the last ['S'] of the grid in reading order and the goal
    state that of the last ['G']; they are different positions and
    neither is a wall. *)
Theorem loaded_maze_starts_at_the_last_S
    (isspace : MazeProblem.char → bool) (f : list (list MazeProblem.char))
    (m : MazeProblem.t) :
  MazeProblem.__init__ isspace (Some f) = MazeProblem.Loaded m →
  (grid_at (MazeProblem.grid m) (MazeProblem.startState m)
   = Some MazeProblem.start_char ∧
   ∀ pos, grid_at (MazeProblem.grid m) pos = Some MazeProblem.start_char →
          reads_before pos (MazeProblem.startState m)) ∧
  (grid_at (MazeProblem.grid m) (MazeProblem.goalState m)
   = Some MazeProblem.goal_char ∧
   ∀ pos, grid_at (MazeProblem.grid m) pos = Some MazeProblem.goal_char →
          reads_before pos (MazeProblem.goalState m)) ∧
  MazeProblem.startState m ≠ MazeProblem.goalState m ∧
  (MazeProblem.startState m ∉ MazeProblem.walls m) ∧
  (MazeProblem.goalState m ∉ MazeProblem.walls m).
Proof.
  rewrite init_spec_file.
  destruct (last (positions MazeProblem.start_char _)) as [s|] eqn:Hs;
    [|done].
  destruct (last (positions MazeProblem.goal_char _)) as [g|] eqn:Hg;
    [|done].
  intros [= <-]. simpl.
  pose proof (last_positions _ _ _ Hs) as Hs_last.
  pose proof (last_positions _ _ _ Hg) as Hg_last.
  apply last_Some_elem_of, elem_of_positions_grid_at in Hs, Hg.
  split_and!.
  - done.
  - intros pos Hpos. by apply Hs_last, elem_of_positions_grid_at.
  - done.
  - intros pos Hpos. by apply Hg_last, elem_of_positions_grid_at.
  - intros ->. rewrite Hs in Hg. discriminate.
  - rewrite elem_of_list_to_set, elem_of_positions_grid_at, Hs. discriminate.
  - rewrite elem_of_list_to_set, elem_of_positions_grid_at, Hg. discriminate.
Qed.

Lemma loaded_maze_starts_at_the_last_S_witness :
  (grid_at (MazeProblem.grid demo_maze) (MazeProblem.startState demo_maze)
   = Some MazeProblem.start_char ∧
   ∀ pos, grid_at (MazeProblem.grid demo_maze) pos
          = Some MazeProblem.start_char →
          reads_before pos (MazeProblem.startState demo_maze)) ∧
  (grid_at (MazeProblem.grid demo_maze) (MazeProblem.goalState demo_maze)
   = Some MazeProblem.goal_char ∧
   ∀ pos, grid_at (MazeProblem.grid demo_maze) pos
          = Some MazeProblem.goal_char →
          reads_before pos (MazeProblem.goalState demo_maze)) ∧
  MazeProblem.startState demo_maze ≠ MazeProblem.goalState demo_maze ∧
  (MazeProblem.startState demo_maze ∉ MazeProblem.walls demo_maze) ∧
  (MazeProblem.goalState demo_maze ∉ MazeProblem.walls demo_maze).
Proof.
  apply (loaded_maze_starts_at_the_last_S ascii_isspace demo_lines demo_maze).
  vm_compute. reflexivity.
Defined.

(** ** main.py *)
Section main_results.
Context (node_lt : (Z * Z) * list string * Z → (Z * Z) * list string * Z
                   → result bool).

(** X18.  For each of the four names of the table and every maze: the
    search that [main] runs returns, a path or [None], when it is given
    enough fuel, and never raises; when it returns [None] the goal cannot
    be reached from the start state; a path it returns replays to the
    goal without passing through a cell twice and has at most as many
    actions as the grid has cells. *)
Theorem maze_search_returns (algorithm_name : string)
    (maze : MazeProblem.t) :
  algorithm_name ∈ ["dfs"; "bfs"; "ucs"; "a_star"] →
  (∃ fuel r, solve node_lt algorithm_name maze fuel = Some (Ok r)) ∧
  (∀ fuel e, solve node_lt algorithm_name maze fuel ≠ Some (Raise e)) ∧
  (∀ fuel, solve node_lt algorithm_name maze fuel = Some (Ok None) →
           ¬ goal_reachable (MazeProblem.problem maze)) ∧
  (∀ fuel p, solve node_lt algorithm_name maze fuel = Some (Ok (Some p)) →
             simple_solution (MazeProblem.problem maze) p ∧
             length p ≤ Z.to_nat (MazeProblem.height maze)
                        * Z.to_nat (MazeProblem.width maze)).
Proof.
  intros (run & Hsolve & Hrun)%(solve_run node_lt _ maze).
  apply run_cases in Hrun as (Hsound & Hterm & Hsimple).
  split_and!.
  - destruct (Hterm (maze_finite maze)) as (fuel & r & Hr).
    exists fuel, r. by rewrite Hsolve, Hr.
  - intros fuel e. rewrite Hsolve. intros [= Hr].
    destruct (Hsound fuel) as [?|(r & ? & _)]; congruence.
  - intros fuel. rewrite Hsolve. intros [= Hr].
    destruct (Hsound fuel) as [?|(r & Hr' & Hok)]; [congruence|].
    rewrite Hr in Hr'. by simplify_eq.
  - intros fuel p. rewrite Hsolve. intros [= Hr%Hsimple].
    split; [done|]. by apply maze_simple_length.
Qed.

(** X19.  With the names [bfs], [ucs] and [a_star], a path the search
    returns on a maze has the fewest actions among all action sequences
    that lead from the start state to the goal, and not fewer than the
    Manhattan distance between the two. *)
Theorem maze_search_finds_a_shortest_path (algorithm_name : string)
    (maze : MazeProblem.t) (fuel : nat) (p : list string) :
  algorithm_name ∈ ["bfs"; "ucs"; "a_star"] →
  solve node_lt algorithm_name maze fuel = Some (Ok (Some p)) →
  solution (MazeProblem.problem maze) p ∧
  (∀ p', solution (MazeProblem.problem maze) p' → length p ≤ length p') ∧
  (manhattanHeuristic (MazeProblem.startState maze) maze
   ≤ Z.of_nat (length p))%Z.
Proof.
  intros Hname Hrun.
  destruct (solve_fewest node_lt algorithm_name maze fuel p Hname Hrun)
    as (p' & [= <-] & Hsol & Hmin).
  split_and!; [done|done|]. by apply manhattan_lower_bound.
Qed.
End main_results.

Lemma maze_search_returns_witness :
  (∃ fuel r, solve no_lt "a_star" demo_maze fuel = Some (Ok r)) ∧
  (∀ fuel e, solve no_lt "a_star" demo_maze fuel ≠ Some (Raise e)) ∧
  (∀ fuel, solve no_lt "a_star" demo_maze fuel = Some (Ok None) →
           ¬ goal_reachable (MazeProblem.problem demo_maze)) ∧
  (∀ fuel p, solve no_lt "a_star" demo_maze fuel = Some (Ok (Some p)) →
             simple_solution (MazeProblem.problem demo_maze) p ∧
             length p ≤ Z.to_nat (MazeProblem.height demo_maze)
                        * Z.to_nat (MazeProblem.width demo_maze)).
Proof. apply (maze_search_returns no_lt "a_star" demo_maze). in_list. Defined.

Lemma maze_search_finds_a_shortest_path_witness :
  solution (MazeProblem.problem demo_maze) ["East"; "East"; "South"] ∧
  (∀ p', solution (MazeProblem.problem demo_maze) p' →
         length ["East"; "East"; "South"] ≤ length p') ∧
  (manhattanHeuristic (MazeProblem.startState demo_maze) demo_maze
   ≤ Z.of_nat (length ["East"; "East"; "South"]))%Z.
Proof.
  apply (maze_search_finds_a_shortest_path no_lt "a_star" demo_maze 30).
  - in_list.
  - vm_compute. reflexivity.
Defined.
